(** * Scene-graph core of infamous / lume: a shallow embedding

    The development follows the TypeScript sources:

    - [Tree]      : packages/lume/src/core/TreeNode.ts (parent/child links,
                    [add], [removeNode], [subnodes], deferred life-cycle
                    callbacks);
    - [Gltf]      : the glTF model behaviour and its load version token;
    - [Values]    : [{x, y, z}] triples;
    - [Transform] : [_calculateMatrix] of ImperativeBase;
    - [Size]      : the parent-size autorun of ImperativeBase and the host
                    resize handler of Scene.ts;
    - [Backend]   : the lazily created Three.js objects of ImperativeBase,
                    [_loadGL] and [_loadCSS];
    - [TreeOps]   : [addChildren], [removeChildren], [removeAllChildren] and
                    [traverse] of TreeNode.ts;
    - [GltfOps]   : what a run of the glTF behaviour keeps;
    - [BackendOps]: the walks up the parent links of ImperativeBase (the
                    [scene] getter, [_getNearestAncestorThatShouldBeRendered])
                    and runs of its getters and loading methods;
    - [Camera]    : the cameras of a scene in Scene.ts;
    - [HostSize]  : [#checkSize] of Scene.ts.

    JavaScript objects have identity and are mutated in place, so nodes,
    arrays and Three.js objects live in stores indexed by references.  The
    models come first; the modules named [...Facts] hold what is proved
    about them. *)

From stdpp Require Import gmap list strings.
From Stdlib Require Import Floats.

Set Default Proof Using "Type".

(** ** TreeNode.ts *)
Module Tree.

(** A reference is the identity of a heap object: a node, or an array. *)
Abbreviation ref := nat (only parsing).

(** The fields of a [TreeNode] instance.  [__children] holds a reference to
    the array object, which is what [this.__children] evaluates to. *)
Record TreeNode := mkTreeNode {
  __parent : option ref;
  __children : ref;
  __isConnected : bool;
}.

(** The exceptions the class throws: [TypeError] (also what a method call on
    something that is not an object raises), the plain [Error] of
    [removeNode], and [ReferenceError]
    ('childNode is not a child of this parent.'). *)
Inductive exn := TypeError | Error | ReferenceError.

(** The generic life-cycle methods; what a subclass does in them is not the
    tree's business, so a call is recorded by its name and arguments. *)
Inductive callback :=
  | connected (n : ref)
  | disconnected (n : ref)
  | childConnected (p c : ref)
  | childDisconnected (p c : ref).

(** The store.  [tasks] is the queue of deferred closures, each one the list
    of calls in its body; [delivered] is the trace of the calls that ran. *)
Record state := mkState {
  nodes : gmap nat TreeNode;
  arrays : gmap nat (list nat);
  tasks : list (list callback);
  delivered : list callback;
}.

Definition empty_state : state := mkState ∅ ∅ [] [].

#[global] Instance TreeNode_eq_dec : EqDecision TreeNode.
Proof. solve_decision. Defined.
#[global] Instance exn_eq_dec : EqDecision exn.
Proof. solve_decision. Defined.
#[global] Instance callback_eq_dec : EqDecision callback.
Proof. solve_decision. Defined.
#[global] Instance state_eq_dec : EqDecision state.
Proof. solve_decision. Defined.

(** *** Sequencing with exceptions

    A JavaScript exception unwinds the call but keeps every write made
    before it, so a computation returns the store together with its result
    or exception. *)
Definition M (A : Type) : Type := state → (exn + A) * state.

Definition ret {A} (a : A) : M A := λ s, (inr a, s).
Definition throw {A} (e : exn) : M A := λ s, (inl e, s).
Definition bind {A B} (m : M A) (f : A → M B) : M B :=
  λ s, match m s with
       | (inl e, s') => (inl e, s')
       | (inr a, s') => f a s'
       end.

#[global] Instance M_ret : MRet M := @ret.
#[global] Instance M_bind : MBind M := λ A B f m, bind m f.

Definition modify (f : state → state) : M unit := λ s, (inr tt, f s).

(** *** Primitive reads and writes *)

(** [o instanceof TreeNode], raising [e] otherwise; returns the fields. *)
Definition instance_of (e : exn) (o : ref) : M TreeNode :=
  λ s, match nodes s !! o with
       | Some n => (inr n, s)
       | None => (inl e, s)
       end.

Definition with_nodes (f : gmap nat TreeNode → gmap nat TreeNode) (s : state) : state :=
  mkState (f (nodes s)) (arrays s) (tasks s) (delivered s).

Definition with_arrays (f : gmap nat (list nat) → gmap nat (list nat)) (s : state) : state :=
  mkState (nodes s) (f (arrays s)) (tasks s) (delivered s).

(** [o.__parent = v] *)
Definition set_parent (o : ref) (v : option ref) : M unit :=
  modify (with_nodes (alter (λ n, mkTreeNode v (__children n) (__isConnected n)) o)).

(** [o.__isConnected = v] *)
Definition set_isConnected (o : ref) (v : bool) : M unit :=
  modify (with_nodes (alter (λ n, mkTreeNode (__parent n) (__children n) v) o)).

(** Reading an array through its reference. *)
Definition array_get (a : ref) : M (list nat) :=
  λ s, match arrays s !! a with
       | Some l => (inr l, s)
       | None => (inl TypeError, s)
       end.

(** A new array object: [[...l]], or [[]] for [l = []]. *)
Definition array_alloc (l : list nat) : M ref :=
  λ s, let a := fresh (dom (arrays s)) in (inr a, with_arrays <[a := l]> s).

(** [a.push(x)] *)
Definition array_push (a : ref) (x : nat) : M unit :=
  modify (with_arrays (alter (λ l, l ++ [x]) a)).

(** [l.indexOf(x)]: the first index of [x], or [-1]. *)
Fixpoint indexOf (l : list nat) (x : nat) : Z :=
  match l with
  | [] => (-1)%Z
  | y :: l' => if decide (y = x) then 0%Z
               else let i := indexOf l' x in
                    if decide (i = -1)%Z then (-1)%Z else (i + 1)%Z
  end.

(** [l.splice(start, 1)]: a negative [start] counts from the end (and is
    clamped at 0), a [start] past the end removes nothing. *)
Definition splice1 (start : Z) (l : list nat) : list nat :=
  let k := if decide (start < 0)%Z
           then Z.max (Z.of_nat (length l) + start) 0
           else start in
  delete (Z.to_nat k) l.

Definition array_splice1 (a : ref) (start : Z) : M unit :=
  modify (with_arrays (alter (splice1 start) a)).

(** Modelled from the spec: [defer] of ./utils.js is not among the sources.
    Section 9 of the specification describes it as a queue that delivers
    after the current synchronous batch completes: the closure is appended
    to the task queue and nothing of it runs now. *)
Definition defer (body : list callback) : M unit :=
  modify (λ s, mkState (nodes s) (arrays s) (tasks s ++ [body]) (delivered s)).

(** The host runs the oldest deferred closure, once the synchronous code
    has returned. *)
Definition run_task (s : state) : state :=
  match tasks s with
  | [] => s
  | body :: rest => mkState (nodes s) (arrays s) rest (delivered s ++ body)
  end.

Definition drain (s : state) : state :=
  mkState (nodes s) (arrays s) [] (delivered s ++ concat (tasks s)).

(** *** The class *)

(** [new TreeNode()]: [__parent = null], [__children = []],
    [__isConnected = false].  Outside the DOM [this.parentNode] is
    undefined and the constructor's optional call does nothing. *)
Definition new_TreeNode : M ref :=
  a ← array_alloc [];
  ((λ s, let n := fresh (dom (nodes s)) in
         (inr n, with_nodes <[n := mkTreeNode None a false]> s)) : M ref).

(** [removeNode(childNode)] *)
Definition removeNode (this childNode : ref) : M ref :=
  t ← instance_of TypeError this;
  c ← instance_of Error childNode;
  if decide (__parent c ≠ Some this) then throw ReferenceError else
  set_parent childNode None;;
  l ← array_get (__children t);
  array_splice1 (__children t) (indexOf l childNode);;
  set_isConnected childNode false;;
  defer [disconnected childNode; childDisconnected this childNode];;
  ret this.

(** [add(childNode)].  [this.__children] is an array from construction on
    and an array is never falsy, so the [if (!this.__children)] line never
    assigns. *)
Definition add (this childNode : ref) : M ref :=
  t ← instance_of TypeError this;
  c ← instance_of TypeError childNode;
  if decide (__parent c = Some this) then ret this else
  match __parent c with
  | Some p => removeNode p childNode;; ret tt
  | None => ret tt
  end;;
  set_parent childNode (Some this);;
  array_push (__children t) childNode;;
  set_isConnected childNode true;;
  defer [connected childNode; childConnected this childNode];;
  ret this.

(** [get subnodes()]: [[...this.__children]], a new array object. *)
Definition subnodes (this : ref) : M ref :=
  t ← instance_of TypeError this;
  l ← array_get (__children t);
  array_alloc l.

(** [get childCount()] *)
Definition childCount (this : ref) : M nat :=
  t ← instance_of TypeError this;
  l ← array_get (__children t);
  ret (length l).

(** *** The overrides of ImperativeBase

    ImperativeBase passes a call on to the methods above after checks on
    the kind of the child; the flags are [childNode instanceof
    ImperativeBase], [childNode.isScene] and [childNode.isNode].  The DOM
    connection that follows ([_elementOperations]) is not part of the
    tree. *)
Definition ImperativeBase_add (is_imperative is_scene : bool)
    (this childNode : ref) : M ref :=
  if negb is_imperative then ret this else
  if is_scene then ret this else
  add this childNode;;
  ret this.

Definition ImperativeBase_removeNode (is_node : bool)
    (this childNode : ref) : M ref :=
  if negb is_node then ret this else
  removeNode this childNode;;
  ret this.

(** *** Observations of a store *)

Definition parent (s : state) (a : ref) : option ref :=
  n ← nodes s !! a; __parent n.

Definition children (s : state) (b : ref) : list ref :=
  default [] (n ← nodes s !! b; arrays s !! __children n).

Definition isConnected (s : state) (a : ref) : bool :=
  default false (__isConnected <$> nodes s !! a).

(** [a] is a proper ancestor of [b] along the parent links [par]. *)
Inductive ancestor_of (par : ref → option ref) (a : ref) : ref → Prop :=
  | anc_parent b : par b = Some a → ancestor_of par a b
  | anc_step b c : par b = Some c → ancestor_of par a c → ancestor_of par a b.

Definition ancestor (s : state) : ref → ref → Prop := ancestor_of (parent s).

Definition acyclic (s : state) : Prop := ∀ n, ¬ ancestor s n n.

(** Parent pointers and child arrays agree. *)
Definition consistent (s : state) : Prop :=
  ∀ a b, a ∈ children s b ↔ parent s a = Some b.

(** The store after a successful [removeNode], written out. *)
Definition removed (this c : ref) (t cn : TreeNode) (l : list nat) (s : state) : state :=
  mkState (<[c := mkTreeNode None (__children cn) false]> (nodes s))
          (<[__children t := splice1 (indexOf l c) l]> (arrays s))
          (tasks s ++ [[disconnected c; childDisconnected this c]])
          (delivered s).

(** The statements of [add] after the detaching step. *)
Definition attach (this c : ref) (t : TreeNode) : M ref :=
  set_parent c (Some this);;
  array_push (__children t) c;;
  set_isConnected c true;;
  defer [connected c; childConnected this c];;
  mret this.

(** The store after [add] on a child without a parent, written out. *)
Definition added (this c : ref) (t cn : TreeNode) (s : state) : state :=
  mkState (<[c := mkTreeNode (Some this) (__children cn) true]> (nodes s))
          (alter (λ l, l ++ [c]) (__children t) (arrays s))
          (tasks s ++ [[connected c; childConnected this c]])
          (delivered s).

(** *** Well-formed stores *)

(** Every node owns an allocated array that no other node holds, the
    flag [__isConnected] tells whether there is a parent, child arrays have
    no repetition, and parent pointers agree with child arrays. *)
Record wf (s : state) : Prop := mk_wf {
  wf_array : ∀ n t, nodes s !! n = Some t → is_Some (arrays s !! __children t);
  wf_own : ∀ n m t u, nodes s !! n = Some t → nodes s !! m = Some u →
                      __children t = __children u → n = m;
  wf_flag : ∀ a, isConnected s a = true ↔ is_Some (parent s a);
  wf_nodup : ∀ b, NoDup (children s b);
  wf_consistent : consistent s;
}.

(** The four ways [add] can go on a well-formed store. *)
Inductive add_case (s : state) (this c : ref) : (exn + ref) * state → Prop :=
  | add_no_node :
      nodes s !! this = None ∨ nodes s !! c = None →
      add_case s this c (inl TypeError, s)
  | add_already t cn :
      nodes s !! this = Some t → nodes s !! c = Some cn →
      __parent cn = Some this →
      add_case s this c (inr this, s)
  | add_fresh t cn :
      nodes s !! this = Some t → nodes s !! c = Some cn →
      __parent cn = None →
      add_case s this c (inr this, added this c t cn s)
  | add_moved t cn q tq l t' :
      nodes s !! this = Some t → nodes s !! c = Some cn →
      __parent cn = Some q → q ≠ this →
      nodes s !! q = Some tq → arrays s !! __children tq = Some l →
      nodes (removed q c tq cn l s) !! this = Some t' →
      add_case s this c
        (inr this,
         added this c t' (mkTreeNode None (__children cn) false)
               (removed q c tq cn l s)).

(** *** Sequences of calls

    A caller that catches the exception of a rejected call goes on with the
    store as the exception left it. *)
Inductive op :=
  | New
  | Add (p c : ref)
  | Remove (p c : ref).

Definition exec (o : op) (s : state) : state :=
  match o with
  | New => (new_TreeNode s).2
  | Add p c => (add p c s).2
  | Remove p c => (removeNode p c s).2
  end.

Definition exec_all (ops : list op) (s : state) : state :=
  foldl (λ s o, exec o s) s ops.

(** No [add] of the sequence names as child the receiver itself or one of
    its ancestors at the time of the call. *)
Fixpoint tree_like (s : state) (ops : list op) : Prop :=
  match ops with
  | [] => True
  | o :: ops' =>
      match o with
      | Add p c => c ≠ p ∧ ¬ ancestor s c p
      | _ => True
      end ∧ tree_like (exec o s) ops'
  end.

(** *** Small stores used as examples *)

(** Two nodes, [1] a child of [0]. *)
Definition pair_store : state := exec_all [New; New; Add 0 1] empty_state.

(** Three nodes in a chain: [0] above [1] above [2]. *)
Definition chain_store : state :=
  exec_all [New; New; New; Add 0 1; Add 1 2] empty_state.

(** Three nodes, [1] and [2] the children of [0], in this order. *)
Definition family_store : state :=
  exec_all [New; New; New; Add 0 1; Add 0 2] empty_state.

End Tree.

(** ** The glTF model behaviour

    [GltfModelBehavior]; in the sources it is the second unit of
    packages/lume/src/utils/Settable.ts. *)
Module Gltf.

(** What the loader hands over: [gltf.scene], possibly missing, and
    [gltf.scenes]. *)
Record GLTF := mkGLTF {
  gltf_id : nat;
  gltf_scene : option nat;
  gltf_scenes : list nat;
}.

(** The object that [#setModel] puts under [element.three]: the scene of
    the file, or [new Scene().add(...model.scenes)]. *)
Inductive scene_object :=
  | FileScene (id : nat)
  | NewScene (members : list nat).

(** The argument of the error callback. *)
Record ErrorEvent := mkErrorEvent {
  message : option string;
  error : option nat;
}.

Inductive event :=
  | PROGRESS (progress : nat)
  | MODEL_ERROR (err : option nat)
  | MODEL_LOAD (model : GLTF).

Inductive console :=
  | warn (msg : option string)
  | console_error (err : nat).

(** A [gltfLoader.load] call in flight: its three callbacks are closures
    over the local [version] of [#loadObj]. *)
Record request := mkRequest {
  token : nat;
  url : string;
}.

(** The behaviour and what it acts on.  [version] is the private
    [#version]: a counter that starts at 0 and only ever takes [++], which
    is exact on a JavaScript number for every count a program reaches. *)
Record behavior := mkBehavior {
  src : option string;
  dracoDecoder : option string;
  centerGeometry : bool;
  model : option GLTF;
  version : nat;
  hasLoaders : bool;
  requests : list request;
  attached : list (scene_object * bool);
  disposed : list GLTF;
  emitted : list event;
  logged : list console;
  updates : nat;
}.

#[global] Instance GLTF_eq_dec : EqDecision GLTF.
Proof. solve_decision. Defined.
#[global] Instance scene_object_eq_dec : EqDecision scene_object.
Proof. solve_decision. Defined.
#[global] Instance event_eq_dec : EqDecision event.
Proof. solve_decision. Defined.
#[global] Instance console_eq_dec : EqDecision console.
Proof. solve_decision. Defined.
#[global] Instance request_eq_dec : EqDecision request.
Proof. solve_decision. Defined.
#[global] Instance behavior_eq_dec : EqDecision behavior.
Proof. solve_decision. Defined.

(** A behaviour as constructed: [src = ''], [dracoDecoder = ''],
    [centerGeometry = false], [model = null], [#version = 0]. *)
Definition initial : behavior :=
  mkBehavior (Some EmptyString) (Some EmptyString) false None 0 false [] [] [] [] [] 0.

(** [!src] for a [string | null]. *)
Definition falsy (s : option string) : bool :=
  match s with
  | None => true
  | Some s => bool_decide (s = EmptyString)
  end.

(** [#cleanupModel()] *)
Definition cleanupModel (b : behavior) : behavior :=
  mkBehavior (src b) (dracoDecoder b) (centerGeometry b) None (version b)
    (hasLoaders b) (requests b) (attached b)
    (match model b with Some m => disposed b ++ [m] | None => disposed b end)
    (emitted b) (logged b) (updates b).

(** [this.#version++] *)
Definition bump (b : behavior) : behavior :=
  mkBehavior (src b) (dracoDecoder b) (centerGeometry b) (model b) (S (version b))
    (hasLoaders b) (requests b) (attached b) (disposed b) (emitted b) (logged b)
    (updates b).

(** [#loadObj()]: nothing without a [src]; otherwise the loader gets the
    three callbacks, all closed over the version read here. *)
Definition loadObj (b : behavior) : behavior :=
  match src b with
  | Some s =>
      if falsy (src b) then b else
      mkBehavior (src b) (dracoDecoder b) (centerGeometry b) (model b) (version b)
        (hasLoaders b) (requests b ++ [mkRequest (version b) s]) (attached b)
        (disposed b) (emitted b) (logged b) (updates b)
  | None => b
  end.

(** The body of the second autorun of [loadGL]; it runs once when the
    autorun is made and again after [src], [dracoDecoder] or
    [centerGeometry] changed. *)
Definition reload (b : behavior) : behavior :=
  loadObj (bump (cleanupModel b)).

(** [loadGL()]; [super_ok] is what [super.loadGL()] of RenderableBehavior
    returns.  The loaders are made and both autoruns run once; the first
    one only hands [dracoDecoder] to the DRACO loader. *)
Definition loadGL (super_ok : bool) (b : behavior) : behavior :=
  if super_ok then
    reload (mkBehavior (src b) (dracoDecoder b) (centerGeometry b) (model b)
              (version b) true (requests b) (attached b) (disposed b) (emitted b)
              (logged b) (updates b))
  else b.

(** [unloadGL()]; [super_ok] is what [super.unloadGL()] returns. *)
Definition unloadGL (super_ok : bool) (b : behavior) : behavior :=
  if super_ok then
    bump (cleanupModel
            (mkBehavior (src b) (dracoDecoder b) (centerGeometry b) (model b)
               (version b) false (requests b) (attached b) (disposed b)
               (emitted b) (logged b) (updates b)))
  else b.

(** [#setModel(model)]; the last component of an [attached] entry tells
    whether the scene was centred. *)
Definition setModel (m : GLTF) (b : behavior) : behavior :=
  let sc := match gltf_scene m with
            | Some id => FileScene id
            | None => NewScene (gltf_scenes m)
            end in
  mkBehavior (src b) (dracoDecoder b) (centerGeometry b) (Some m) (version b)
    (hasLoaders b) (requests b) (attached b ++ [(sc, centerGeometry b)])
    (disposed b) (emitted b ++ [MODEL_LOAD m]) (logged b) (S (updates b)).

(** [#onError(error)] *)
Definition onError (e : ErrorEvent) (b : behavior) : behavior :=
  mkBehavior (src b) (dracoDecoder b) (centerGeometry b) (model b) (version b)
    (hasLoaders b) (requests b) (attached b) (disposed b)
    (emitted b ++ [MODEL_ERROR (error e)])
    (logged b ++ [warn (message e)]
       ++ match error e with Some x => [console_error x] | None => [] end)
    (updates b).

Definition emit (ev : event) (b : behavior) : behavior :=
  mkBehavior (src b) (dracoDecoder b) (centerGeometry b) (model b) (version b)
    (hasLoaders b) (requests b) (attached b) (disposed b) (emitted b ++ [ev])
    (logged b) (updates b).

(** The loader calling back. *)
Inductive completion :=
  | Loaded (m : GLTF)
  | Progress (p : nat)
  | Failed (e : ErrorEvent).

(** What a callback does when its guard passes. *)
Definition deliver (c : completion) (b : behavior) : behavior :=
  match c with
  | Loaded m => setModel m b
  | Progress p => emit (PROGRESS p) b
  | Failed e => onError e b
  end.

(** One of the three callbacks handed to [gltfLoader.load] by the call of
    [#loadObj] that read [captured]:
    [version == this.#version && ...]. *)
Definition complete (captured : nat) (c : completion) (b : behavior) : behavior :=
  if decide (captured = version b) then deliver c b else b.

(** What can happen to a behaviour, in any order. *)
Inductive step :=
  | SetSrc (v : option string)
  | SetDracoDecoder (v : option string)
  | SetCenterGeometry (v : bool)
  | Rerun
  | LoadGL (super_ok : bool)
  | UnloadGL (super_ok : bool)
  | Complete (captured : nat) (c : completion).

Definition set_src (v : option string) (b : behavior) : behavior :=
  mkBehavior v (dracoDecoder b) (centerGeometry b) (model b) (version b)
    (hasLoaders b) (requests b) (attached b) (disposed b) (emitted b) (logged b)
    (updates b).

Definition set_dracoDecoder (v : option string) (b : behavior) : behavior :=
  mkBehavior (src b) v (centerGeometry b) (model b) (version b)
    (hasLoaders b) (requests b) (attached b) (disposed b) (emitted b) (logged b)
    (updates b).

Definition set_centerGeometry (v : bool) (b : behavior) : behavior :=
  mkBehavior (src b) (dracoDecoder b) v (model b) (version b)
    (hasLoaders b) (requests b) (attached b) (disposed b) (emitted b) (logged b)
    (updates b).

Definition exec (st : step) (b : behavior) : behavior :=
  match st with
  | SetSrc v => set_src v b
  | SetDracoDecoder v => set_dracoDecoder v b
  | SetCenterGeometry v => set_centerGeometry v b
  | Rerun => reload b
  | LoadGL ok => loadGL ok b
  | UnloadGL ok => unloadGL ok b
  | Complete captured c => complete captured c b
  end.

Definition run (steps : list step) (b : behavior) : behavior :=
  foldl (λ b st, exec st b) b steps.

(** The step increments [#version]. *)
Definition increments (st : step) : bool :=
  match st with
  | Rerun | LoadGL true | UnloadGL true => true
  | _ => false
  end.

(** The token of a started load is a version the behaviour has had. *)
Definition tokens_bounded (b : behavior) : Prop :=
  ∀ r, r ∈ requests b → token r ≤ version b.

End Gltf.

(** ** Number triples *)
Module Values.

(** [{x, y, z}] objects, as [XYZValues] and [calculatedSize] are. *)
Record XYZ (A : Type) := mkXYZ { x : A; y : A; z : A }.
Arguments mkXYZ {A} _ _ _.
Arguments x {A} _.
Arguments y {A} _.
Arguments z {A} _.

Inductive axis := axis_x | axis_y | axis_z.

Definition get {A} (v : XYZ A) (a : axis) : A :=
  match a with
  | axis_x => x v
  | axis_y => y v
  | axis_z => z v
  end.

End Values.

(** ** ImperativeBase: [_calculateMatrix]

    JavaScript numbers are IEEE 754 binary64 values, which is what the
    primitive type [float] is; [+], [-], [*], [/] and unary minus are the
    same operations. *)
Module Transform.
Import Values.
#[local] Open Scope float_scope.

(** The four module-level arrays of length 3; the code only ever uses the
    literal indices 0, 1 and 2. *)
Record array3 := mkArray3 { at0 : float; at1 : float; at2 : float }.

Record scratch := mkScratch {
  threeJsPostAdjustment : array3;
  alignAdjustment : array3;
  mountPointAdjustment : array3;
  appliedPosition : array3;
}.

(** What the method reads from the node. *)
Record inputs := mkInputs {
  alignPoint : XYZ float;
  mountPoint : XYZ float;
  position : XYZ float;
  origin : XYZ float;
  calculatedSize : XYZ float;
  parentSize : XYZ float;
  (** [this.threeCSS.parent && this.threeCSS.parent.type === 'Scene'] *)
  childOfScene : bool;
}.

(** What it sets on the two Three.js objects. *)
Record outputs := mkOutputs {
  three_position : XYZ float;
  threeCSS_position : XYZ float;
  three_pivot : XYZ float;
  threeCSS_pivot : XYZ float;
}.

(** [_calculateMatrix()], statement by statement; the final
    [updateMatrix()] calls are Three.js's. *)
Definition _calculateMatrix (n : inputs) (g : scratch) : scratch * outputs :=
  let align := alignPoint n in
  let mountPoint := mountPoint n in
  let position := position n in
  let origin := origin n in
  let size := calculatedSize n in
  let post := mkArray3 (x size / 2) (y size / 2) (z size / 2) in
  let parentSize := parentSize n in
  let post := mkArray3 (at0 post + (- x parentSize) / 2)
                       (at1 post + (- y parentSize) / 2)
                       (at2 post + (- z parentSize) / 2) in
  let alignAdj := mkArray3 (x parentSize * x align)
                           (y parentSize * y align)
                           (z parentSize * z align) in
  let mountAdj := mkArray3 (x size * x mountPoint)
                           (y size * y mountPoint)
                           (z size * z mountPoint) in
  let applied := mkArray3 (x position + at0 alignAdj - at0 mountAdj)
                          (y position + at1 alignAdj - at1 mountAdj)
                          (z position + at2 alignAdj - at2 mountAdj) in
  let three_position :=
    mkXYZ (at0 applied + at0 post) (- (at1 applied + at1 post)) (at2 applied + at2 post) in
  let threeCSS_position :=
    if childOfScene n
    then mkXYZ (at0 applied + at0 post) (- (at1 applied + at1 post))
               (at2 applied + at2 post)
    else mkXYZ (at0 applied) (- at1 applied) (at2 applied + at2 post) in
  let pivot :=
    if negb (x origin =? 0.5) || negb (y origin =? 0.5) || negb (z origin =? 0.5)
    then mkXYZ (x origin * x size - x size / 2)
               (- (y origin * y size - y size / 2))
               (z origin * z size - z size / 2)
    else mkXYZ 0 0 0 in
  (mkScratch post alignAdj mountAdj applied,
   mkOutputs three_position threeCSS_position pivot pivot).

(** The scratch arrays as the module creates them. *)
Definition scratch0 : scratch :=
  let zero := mkArray3 0 0 0 in mkScratch zero zero zero zero.

End Transform.

(** ** ImperativeBase: the parent-size autorun *)
Module Size.
Import Values.
#[local] Open Scope float_scope.

(** The two size modes of an axis. *)
Inductive SizeMode := literal | proportional.

#[global] Instance SizeMode_eq_dec : EqDecision SizeMode.
Proof. solve_decision. Defined.

(** The sizing state of one element. *)
Record node := mkNode {
  sizeMode : XYZ SizeMode;
  size : XYZ float;
  alignPoint : XYZ float;
  calculatedSize : XYZ float;
  _willBeRendered : bool;
}.

(** An element with the elements composed under it, in child order. *)
#[warnings="-register-all"]
Inductive tree := Tree (n : node) (subtrees : list tree).

Definition root (t : tree) : node := match t with Tree n _ => n end.
Definition subtrees (t : tree) : list tree := match t with Tree _ ts => ts end.

(** Modelled from the spec: [_calcSize] is defined in Sizeable.ts, which is
    not among the sources.  Section 4.2: on a [literal] axis the resolved
    size is the stored size; on a [proportional] axis it is the parent's
    resolved size for that axis times the stored size. *)
Definition resolve_axis (m : SizeMode) (parent own : float) : float :=
  match m with
  | literal => own
  | proportional => parent * own
  end.

Definition _calcSize (parentSize : XYZ float) (n : node) : node :=
  mkNode (sizeMode n) (size n) (alignPoint n)
    (mkXYZ (resolve_axis (x (sizeMode n)) (x parentSize) (x (size n)))
           (resolve_axis (y (sizeMode n)) (y parentSize) (y (size n)))
           (resolve_axis (z (sizeMode n)) (z parentSize) (z (size n))))
    (_willBeRendered n).

(** [needsUpdate()]: the flag is set and the Motor is told. *)
Definition needsUpdate (n : node) : node :=
  mkNode (sizeMode n) (size n) (alignPoint n) (calculatedSize n) true.

(** The condition inside [untrack] of the fourth autorun of
    [connectedCallback]. *)
Definition depends_on_parent (n : node) : bool :=
  bool_decide (x (sizeMode n) = proportional)
  || bool_decide (y (sizeMode n) = proportional)
  || bool_decide (z (sizeMode n) = proportional)
  || negb (x (alignPoint n) =? 0)
  || negb (y (alignPoint n) =? 0)
  || negb (z (alignPoint n) =? 0).

(** The fourth autorun of [connectedCallback]; [parent] is
    [this.parent.calculatedSize], or [None] without a parent. *)
Definition parent_size_autorun (parent : option (XYZ float)) (n : node) : node :=
  match parent with
  | None => n
  | Some parentSize =>
      if depends_on_parent n then needsUpdate (_calcSize parentSize n) else n
  end.

(** Modelled from the spec: the reactive layer ([autorun] of @lume/element)
    is not among the sources.  Section 4.5: a write to an input that a
    computation read schedules the computation to run again.  The autorun
    of each child read [this.parent.calculatedSize], so when [_calcSize]
    assigns it the children's autoruns run, against the new value. *)
Fixpoint rerun (parentSize : XYZ float) (t : tree) : tree :=
  match t with
  | Tree n ts =>
      if depends_on_parent n
      then let n' := parent_size_autorun (Some parentSize) n in
           Tree n' (map (rerun (calculatedSize n')) ts)
      else Tree n ts
  end.

(** Scene.ts, [#onElementParentSizeChange]: the root takes the observed
    size of its host element as parent size, whatever its modes. *)
Definition onElementParentSizeChange (newSize : XYZ float) (t : tree) : tree :=
  match t with
  | Tree n ts =>
      let n' := needsUpdate (_calcSize newSize n) in
      Tree n' (map (rerun (calculatedSize n')) ts)
  end.

(** On each proportional axis the resolved size is the parent's times the
    stored size. *)
Definition resolved (parentSize : XYZ float) (n : node) : Prop :=
  ∀ a, get (sizeMode n) a = proportional →
       get (calculatedSize n) a = get parentSize a * get (size n) a.

(** [resolved] holds at [t] against [parentSize], and at every element
    below against the resolved size of its parent. *)
#[warnings="-register-all"]
Inductive settled (parentSize : XYZ float) : tree → Prop :=
  | settled_tree n ts :
      resolved parentSize n →
      Forall (settled (calculatedSize n)) ts →
      settled parentSize (Tree n ts).

(** Everything below the top element of [t] is settled. *)
Definition settled_below (t : tree) : Prop :=
  Forall (settled (calculatedSize (root t))) (subtrees t).

(** The scenario of section 8: a root of proportional size [1 × 1] of the
    host, a child [A] of proportional size [0.5 × 0.5], a grandchild [B]
    of literal size [100 × 50]; nothing resolved yet for [A] and the
    root. *)
Definition scenario : tree :=
  Tree (mkNode (mkXYZ proportional proportional literal) (mkXYZ 1 1 0)
          (mkXYZ 0 0 0) (mkXYZ 0 0 0) false)
    [Tree (mkNode (mkXYZ proportional proportional literal) (mkXYZ 0.5 0.5 0)
             (mkXYZ 0 0 0) (mkXYZ 0 0 0) false)
       [Tree (mkNode (mkXYZ literal literal literal) (mkXYZ 100 50 0)
                (mkXYZ 0 0 0) (mkXYZ 100 50 0) false) []]].

End Size.

(** ** ImperativeBase: the Three.js objects of an element *)
Module Backend.
Import Values.

Abbreviation ref := nat (only parsing).

Inductive object_kind := WebGL | CSS.

(** A Three.js object, as far as this class touches it.  [Object3D] is
    Three.js's; [add] links a child under a parent, after taking it from
    the parent it had. *)
Record Object3D := mkObject3D {
  kind : object_kind;
  owner : ref;
  matrixAutoUpdate : bool;
  obj_scale : XYZ float;
  obj_parent : option ref;
  obj_children : list ref;
}.

(** The fields of an element that the methods below read or write.
    [webgl] and [enableCss] are the attributes of a Scene. *)
Record Element := mkElement {
  parent : option ref;
  isScene : bool;
  webgl : bool;
  enableCss : bool;
  scale : XYZ float;
  _isPossiblyDistributedToShadowRoot : bool;
  _distributedParent : option ref;
  _shadowRootParent : option ref;
  _scene : option ref;
  __three : option ref;
  __threeCSS : option ref;
  _glLoaded : bool;
  _cssLoaded : bool;
  _willBeRendered : bool;
}.

Record state := mkState {
  elements : gmap nat Element;
  objects : gmap nat Object3D;
  (** the calls of [Motor.setNodeToBeRendered] *)
  to_render : list ref;
}.

(** A call either returns a value and the next store, or does not return:
    the receiver is no element, or the recursion of [scene] did not end
    within the allowed depth. *)
Definition M (A : Type) : Type := state → option (A * state).

#[global] Instance M_ret : MRet M := λ A a s, Some (a, s).
#[global] Instance M_bind : MBind M := λ A B f m s,
  match m s with
  | Some (a, s') => f a s'
  | None => None
  end.

Definition read (o : ref) : M Element := λ s,
  match elements s !! o with
  | Some e => Some (e, s)
  | None => None
  end.

Definition update_element (o : ref) (f : Element → Element) : M unit := λ s,
  Some (tt, mkState (alter f o (elements s)) (objects s) (to_render s)).

Definition set__scene (v : option ref) (e : Element) : Element :=
  mkElement (parent e) (isScene e) (webgl e) (enableCss e) (scale e)
    (_isPossiblyDistributedToShadowRoot e) (_distributedParent e)
    (_shadowRootParent e) v (__three e) (__threeCSS e) (_glLoaded e)
    (_cssLoaded e) (_willBeRendered e).

Definition set__three (v : option ref) (e : Element) : Element :=
  mkElement (parent e) (isScene e) (webgl e) (enableCss e) (scale e)
    (_isPossiblyDistributedToShadowRoot e) (_distributedParent e)
    (_shadowRootParent e) (_scene e) v (__threeCSS e) (_glLoaded e)
    (_cssLoaded e) (_willBeRendered e).

Definition set__threeCSS (v : option ref) (e : Element) : Element :=
  mkElement (parent e) (isScene e) (webgl e) (enableCss e) (scale e)
    (_isPossiblyDistributedToShadowRoot e) (_distributedParent e)
    (_shadowRootParent e) (_scene e) (__three e) v (_glLoaded e)
    (_cssLoaded e) (_willBeRendered e).

Definition set_glLoaded (v : bool) (e : Element) : Element :=
  mkElement (parent e) (isScene e) (webgl e) (enableCss e) (scale e)
    (_isPossiblyDistributedToShadowRoot e) (_distributedParent e)
    (_shadowRootParent e) (_scene e) (__three e) (__threeCSS e) v
    (_cssLoaded e) (_willBeRendered e).

Definition set_cssLoaded (v : bool) (e : Element) : Element :=
  mkElement (parent e) (isScene e) (webgl e) (enableCss e) (scale e)
    (_isPossiblyDistributedToShadowRoot e) (_distributedParent e)
    (_shadowRootParent e) (_scene e) (__three e) (__threeCSS e) (_glLoaded e)
    v (_willBeRendered e).

Definition set_willBeRendered (v : bool) (e : Element) : Element :=
  mkElement (parent e) (isScene e) (webgl e) (enableCss e) (scale e)
    (_isPossiblyDistributedToShadowRoot e) (_distributedParent e)
    (_shadowRootParent e) (_scene e) (__three e) (__threeCSS e) (_glLoaded e)
    (_cssLoaded e) v.

(** [new Object3D()] / [new CSS3DObjectNested(this)] *)
Definition new_object (k : object_kind) (this : ref) : M ref := λ s,
  let o := fresh (dom (objects s)) in
  Some (o, mkState (elements s)
             (<[o := mkObject3D k this true (mkXYZ 1 1 1)%float None []]> (objects s))
             (to_render s)).

Definition update_object (o : ref) (f : Object3D → Object3D) : M unit := λ s,
  Some (tt, mkState (elements s) (alter f o (objects s)) (to_render s)).

(** [get three()]: the guard on [this.scene.webgl] is commented out in the
    source. *)
Definition three (this : ref) : M ref :=
  e ← read this;
  match __three e with
  | Some o => mret o
  | None => o ← new_object WebGL this;
            update_element this (set__three (Some o));;
            mret o
  end.

(** [get threeCSS()]: likewise without its guard.  [makeThreeCSSObject]
    throws outside the DOM; elements are DOM elements here. *)
Definition threeCSS (this : ref) : M ref :=
  e ← read this;
  match __threeCSS e with
  | Some o => mret o
  | None => o ← new_object CSS this;
            update_element this (set__threeCSS (Some o));;
            mret o
  end.

(** Three.js, [p.add(c)]. *)
Definition object_add (p c : ref) : M unit := λ s,
  let unlinked :=
    match objects s !! c ≫= obj_parent with
    | Some q => alter (λ o, mkObject3D (kind o) (owner o) (matrixAutoUpdate o)
                              (obj_scale o) (obj_parent o)
                              (filter (λ x, x ≠ c) (obj_children o))) q (objects s)
    | None => objects s
    end in
  let linked :=
    alter (λ o, mkObject3D (kind o) (owner o) (matrixAutoUpdate o) (obj_scale o)
                  (obj_parent o) (obj_children o ++ [c])) p
      (alter (λ o, mkObject3D (kind o) (owner o) (matrixAutoUpdate o) (obj_scale o)
                     (Some p) (obj_children o)) c unlinked) in
  Some (tt, mkState (elements s) linked (to_render s)).

(** [needsUpdate()] *)
Definition needsUpdate (this : ref) : M unit := λ s,
  Some (tt, mkState (alter (set_willBeRendered true) this (elements s)) (objects s)
              (to_render s ++ [this])).

(** [get scene()].  The recursion follows the parent links; [depth] bounds
    it. *)
Fixpoint scene (depth : nat) (this : ref) : M (option ref) :=
  match depth with
  | 0 => λ _, None
  | S depth =>
      e ← read this;
      match _scene e, parent e with
      | Some sc, _ => mret (Some sc)
      | None, None => mret None
      | None, Some p =>
          pe ← read p;
          r ← match _scene pe with
              | Some sc => mret (Some sc)
              | None => if isScene pe then mret (Some p) else scene depth p
              end;
          update_element this (set__scene r);;
          mret r
      end
  end.

(** [this.scene && this.scene.webgl] and
    [this.scene && this.scene.enableCss]: the getter is read a second time
    when the first read was not null. *)
Definition scene_flag (flag : Element → bool) (depth : nat) (this : ref) : M bool :=
  sc ← scene depth this;
  match sc with
  | None => mret false
  | Some _ =>
      sc' ← scene depth this;
      match sc' with
      | None => λ _, None
      | Some sc' => se ← read sc'; mret (flag se)
      end
  end.

(** [_connectThree()] and [_connectThreeCSS()], which differ only in the
    getter they use. *)
Definition connect (getter : ref → M ref) (depth : nat) (this : ref) : M unit :=
  e ← read this;
  sc ← (if _isPossiblyDistributedToShadowRoot e then scene depth this else mret None);
  (if _isPossiblyDistributedToShadowRoot e && negb (bool_decide (parent e = sc))
   then match _distributedParent e with
        | Some d => po ← getter d; o ← getter this; object_add po o
        | None => mret tt
        end
   else match _shadowRootParent e with
        | Some r => po ← getter r; o ← getter this; object_add po o
        | None =>
            match parent e with
            | Some p => po ← getter p; o ← getter this; object_add po o
            | None => mret tt
            end
        end);;
  needsUpdate this.

Definition _connectThree := connect three.
Definition _connectThreeCSS := connect threeCSS.

(** [_loadGL()] *)
Definition _loadGL (depth : nat) (this : ref) : M bool :=
  active ← scene_flag webgl depth this;
  if negb active then mret false else
  e ← read this;
  if _glLoaded e then mret false else
  update_element this (set_glLoaded true);;
  o ← three this;
  update_object o (λ ob, mkObject3D (kind ob) (owner ob) false (obj_scale ob)
                           (obj_parent ob) (obj_children ob));;
  _connectThree depth this;;
  needsUpdate this;;
  mret true.

(** [_loadCSS()] *)
Definition _loadCSS (depth : nat) (this : ref) : M bool :=
  cssIsEnabled ← scene_flag enableCss depth this;
  if negb cssIsEnabled then mret false else
  e ← read this;
  if _cssLoaded e then mret false else
  update_element this (set_cssLoaded true);;
  o ← threeCSS this;
  update_object o (λ ob, mkObject3D (kind ob) (owner ob) false (obj_scale ob)
                           (obj_parent ob) (obj_children ob));;
  _connectThreeCSS depth this;;
  needsUpdate this;;
  mret true.

(** [_updateScale()], the body of the second autorun of
    [connectedCallback]. *)
Definition _updateScale (this : ref) : M unit :=
  e ← read this;
  o ← three this;
  update_object o (λ ob, mkObject3D (kind ob) (owner ob) (matrixAutoUpdate ob)
                           (scale e) (obj_parent ob) (obj_children ob));;
  oc ← threeCSS this;
  update_object oc (λ ob, mkObject3D (kind ob) (owner ob) (matrixAutoUpdate ob)
                            (scale e) (obj_parent ob) (obj_children ob)).

(** An element with nothing loaded. *)
Definition plain (parent : option ref) (is_scene webgl css : bool) (sc : option ref) : Element :=
  mkElement parent is_scene webgl css (mkXYZ 1 1 1)%float false None None sc None None
    false false false.

(** A scene [0] with both backends switched off, and an element [1] in
    it. *)
Definition dark_scene : state :=
  mkState (<[1 := plain (Some 0) false false false None]>
             (<[0 := plain None true false false (Some 0)]> ∅)) ∅ [].

(** The same with WebGL switched on. *)
Definition gl_scene : state :=
  mkState (<[1 := plain (Some 0) false false false None]>
             (<[0 := plain None true true false (Some 0)]> ∅)) ∅ [].

(** The elements of two stores agree except for the cached [_scene]. *)
Definition same_elements (s s' : state) : Prop :=
  ∀ m, set__scene None <$> elements s' !! m = set__scene None <$> elements s !! m.

End Backend.

(** ** TreeNode.ts: the methods over several children, and [traverse] *)
Module TreeOps.
Import Tree.

(** [a[i]]: [undefined] past the end. *)
Definition array_read (a : ref) (i : nat) : M (option ref) :=
  l ← array_get a;
  mret (l !! i).

(** [this.removeNode(x)] for an [x] read from an array: [undefined] is not
    an instance of TreeNode. *)
Definition removeNode_of (this : ref) (x : option ref) : M ref :=
  match x with
  | Some c => removeNode this c
  | None => _ ← instance_of TypeError this; throw Error
  end.

(** The loop of [removeChildren]: [i] runs from [n - 1] down to 0, and
    [nodes[i]] is read from the array as it is at that moment. *)
Fixpoint removeChildren_loop (this nodes : ref) (n : nat) : M unit :=
  match n with
  | 0 => mret tt
  | S i =>
      x ← array_read nodes i;
      removeNode_of this x;;
      removeChildren_loop this nodes i
  end.

(** [removeChildren(nodes)]; [nodes] is the reference of the array
    passed. *)
Definition removeChildren (this nodes : ref) : M ref :=
  _ ← instance_of TypeError this;
  l ← array_get nodes;
  removeChildren_loop this nodes (length l);;
  mret this.

(** [removeAllChildren()]: the array handed to [removeChildren] is the
    node's own. *)
Definition removeAllChildren (this : ref) : M ref :=
  t ← instance_of TypeError this;
  l ← array_get (__children t);
  if decide (length l = 0) then throw ReferenceError else
  removeChildren this (__children t);;
  mret this.

(** [nodes.forEach(node => this.add(node))]: the length is read once, the
    elements as the loop reaches them; an index that is no longer in the
    array is skipped. *)
Fixpoint forEach_add (this nodes : ref) (count i : nat) : M unit :=
  match count with
  | 0 => mret tt
  | S count =>
      x ← array_read nodes i;
      match x with
      | Some c => add this c;; mret tt
      | None => mret tt
      end;;
      forEach_add this nodes count (S i)
  end.

(** [addChildren(nodes)] *)
Definition addChildren (this nodes : ref) : M ref :=
  _ ← instance_of TypeError this;
  l ← array_get nodes;
  forEach_add this nodes (length l) 0;;
  mret this.

(** The outcome of a traversal: the arguments of the calls of [fn] made,
    in order, and the exception that ended it, if one did. *)
Definition visits : Type := list ref * option exn.

(** The [for] loop of [traverse] over the children [cs], with [go] the
    traversal of one child; [None] when a traversal does not return. *)
Fixpoint traverse_children (go : ref → option visits) (cs : list ref) : option visits :=
  match cs with
  | [] => Some ([], None)
  | c :: cs' =>
      match go c with
      | None => None
      | Some (v, Some e) => Some (v, Some e)
      | Some (v, None) =>
          match traverse_children go cs' with
          | None => None
          | Some (v', r) => Some (v ++ v', r)
          end
      end
  end.

(** [traverse(fn)] for an [fn] that only records its argument, so that the
    store stays as it is.  [depth] is the number of nested calls the call
    stack has room for; the result is [None] when that is exceeded. *)
Fixpoint traverse (depth : nat) (s : state) (this : ref) : option visits :=
  match depth with
  | 0 => None
  | S depth =>
      match nodes s !! this with
      | None => Some ([], Some TypeError)
      | Some t =>
          match arrays s !! __children t with
          | None => Some ([this], Some TypeError)
          | Some l =>
              match traverse_children (traverse depth s) l with
              | None => None
              | Some (v, r) => Some (this :: v, r)
              end
          end
      end
  end.

(** No node holds the array [a]: it is an array of the caller's. *)
Definition unowned (s : state) (a : ref) : Prop :=
  ∀ n t, nodes s !! n = Some t → __children t ≠ a.

(** What a store keeps when only parent pointers, flags, node-held arrays
    and the task queue change. *)
Record same_frame (s s' : state) : Prop := mk_same_frame {
  frame_nodes : ∀ x, is_Some (nodes s' !! x) ↔ is_Some (nodes s !! x);
  frame_refs : ∀ x t', nodes s' !! x = Some t' →
                       ∃ t, nodes s !! x = Some t ∧ __children t' = __children t;
  frame_arrays : ∀ a, unowned s a → arrays s' !! a = arrays s !! a;
  frame_unowned : ∀ a, unowned s a → unowned s' a;
  frame_delivered : delivered s' = delivered s;
}.

(** The closure that [removeNode] defers. *)
Definition disconnect_task (this c : ref) : list callback :=
  [disconnected c; childDisconnected this c].

(** [rank] goes down along every parent link, from parent to child. *)
Definition ranked (s : state) (rank : ref → nat) : Prop :=
  ∀ a b, parent s a = Some b → rank a < rank b.

(** [x] is [c] or below [c]. *)
Definition in_subtree (s : state) (c x : ref) : Prop := x = c ∨ ancestor s c x.

(** *** Stores used as examples *)

(** The family of the examples, with the caller's array [[1; 2]] at
    reference [3]. *)
Definition family_with_array : state := (array_alloc [1; 2] family_store).2.

(** The same with the array [[1; 0; 2]], whose middle element is not a
    child of [0]. *)
Definition family_with_stranger : state := (array_alloc [1; 0; 2] family_store).2.

(** Three nodes without links, and the caller's array [[1; 2]]. *)
Definition orphans_with_array : state :=
  (array_alloc [1; 2] (exec_all [New; New; New] empty_state)).2.

(** Two nodes, each the parent of the other. *)
Definition loop_store : state := exec_all [New; New; Add 0 1; Add 1 0] empty_state.

(** A rank for [family_store]: the root above its two children. *)
Definition family_rank (n : ref) : nat := if decide (n = 0) then 1 else 0.

End TreeOps.

(** ** The glTF model behaviour: what a run keeps *)
Module GltfOps.
Import Gltf.

(** The models announced by [MODEL_LOAD] events, in order. *)
Fixpoint loaded_models (evs : list event) : list GLTF :=
  match evs with
  | [] => []
  | MODEL_LOAD m :: evs' => m :: loaded_models evs'
  | _ :: evs' => loaded_models evs'
  end.

(** The loader calls the success callback of a load at most once: no
    [Loaded] completion of the run carries a token that one before it, or
    one of [served], carried. *)
Fixpoint loads_once (served : list nat) (steps : list step) : Prop :=
  match steps with
  | [] => True
  | Complete captured (Loaded _) :: steps' =>
      (captured ∉ served) ∧ loads_once (captured :: served) steps'
  | _ :: steps' => loads_once served steps'
  end.


(** The models loaded so far are the disposed ones and the current one,
    which is there only if the load of the current version was served. *)
Definition models_accounted (served : list nat) (b : behavior) : Prop :=
  loaded_models (emitted b) = disposed b ++ option_list (model b)
  ∧ (is_Some (model b) → version b ∈ served).

End GltfOps.

(** ** The element class: walking up the parent links *)
Module BackendOps.
Import Values Backend.

(** The loop of [_getNearestAncestorThatShouldBeRendered()], entered with
    [parent]; [fuel] bounds its rounds. *)
Fixpoint nearest_loop (fuel : nat) (parent : option ref) : M (option ref) :=
  match parent with
  | None => mret None
  | Some p =>
      match fuel with
      | 0 => λ _, None
      | S fuel =>
          pe ← read p;
          if _willBeRendered pe then mret (Some p)
          else nearest_loop fuel (Backend.parent pe)
      end
  end.

(** [_getNearestAncestorThatShouldBeRendered()]; [None] is its [false]. *)
Definition _getNearestAncestorThatShouldBeRendered (fuel : nat) (this : ref)
  : M (option ref) :=
  e ← read this;
  nearest_loop fuel (parent e).

(** The element [k] parent links above [n]. *)
Fixpoint nth_parent (s : state) (k : nat) (n : ref) : option ref :=
  match k with
  | 0 => Some n
  | S k => p ← elements s !! n ≫= parent; nth_parent s k p
  end.

(** What can be done to an element, through the getters and the loading
    methods. *)
Inductive op :=
  | Three (this : ref)
  | ThreeCSS (this : ref)
  | UpdateScale (this : ref)
  | LoadGL (depth : nat) (this : ref)
  | LoadCSS (depth : nat) (this : ref)
  | NeedsUpdate (this : ref).

Definition exec (o : op) : M unit :=
  match o with
  | Three this => three this;; mret tt
  | ThreeCSS this => threeCSS this;; mret tt
  | UpdateScale this => _updateScale this
  | LoadGL depth this => _loadGL depth this;; mret tt
  | LoadCSS depth this => _loadCSS depth this;; mret tt
  | NeedsUpdate this => needsUpdate this
  end.

Fixpoint exec_all (ops : list op) : M unit :=
  match ops with
  | [] => mret tt
  | o :: ops => exec o;; exec_all ops
  end.

(** The object an element holds for a backend is one made for that element
    and that backend. *)
Record mirrored (s : state) : Prop := mk_mirrored {
  held_three : ∀ n e o, elements s !! n = Some e → __three e = Some o →
      ∃ ob, objects s !! o = Some ob ∧ owner ob = n ∧ kind ob = WebGL;
  held_threeCSS : ∀ n e o, elements s !! n = Some e → __threeCSS e = Some o →
      ∃ ob, objects s !! o = Some ob ∧ owner ob = n ∧ kind ob = CSS;
}.

(** Every run of [m] that returns takes a store to one related to it
    by [R]. *)
Definition respects {A} (R : state → state → Prop) (m : M A) : Prop :=
  ∀ s a s', m s = Some (a, s') → R s s'.

Definition keeps_mirrored (s s' : state) : Prop :=
  mirrored s → mirrored s'.

(** What the getters and the loading methods leave alone in an element:
    its links, the switches of a scene, a loaded flag that is set, and a
    scene or a Three.js object that it holds. *)
Record steady_element (e e' : Element) : Prop := mk_steady_element {
  kept_parent : parent e' = parent e;
  kept_webgl : webgl e' = webgl e;
  kept_enableCss : enableCss e' = enableCss e;
  kept_distributed :
    _isPossiblyDistributedToShadowRoot e' = _isPossiblyDistributedToShadowRoot e;
  kept_distributedParent : _distributedParent e' = _distributedParent e;
  kept_shadowRootParent : _shadowRootParent e' = _shadowRootParent e;
  kept_glLoaded : _glLoaded e = true → _glLoaded e' = true;
  kept_cssLoaded : _cssLoaded e = true → _cssLoaded e' = true;
  kept_scene : ∀ sc, _scene e = Some sc → _scene e' = Some sc;
  kept_three : ∀ o, __three e = Some o → __three e' = Some o;
  kept_threeCSS : ∀ o, __threeCSS e = Some o → __threeCSS e' = Some o;
}.

Definition steady (s s' : state) : Prop :=
  ∀ m e, elements s !! m = Some e →
         ∃ e', elements s' !! m = Some e' ∧ steady_element e e'.

(** A scene [0] with both backends on, an element [1] in it, and [2] in
    [1]; only the scene knows its scene. *)
Definition nested_scene : state :=
  mkState (<[2 := plain (Some 1) false false false None]>
             (<[1 := plain (Some 0) false false false None]>
                (<[0 := plain None true true true (Some 0)]> ∅))) ∅ [].

(** Three elements outside any scene, [2] in [1] in [0]. *)
Definition no_scene : state :=
  mkState (<[2 := plain (Some 1) false false false None]>
             (<[1 := plain (Some 0) false false false None]>
                (<[0 := plain None false false false None]> ∅))) ∅ [].

(** Two elements, each the parent of the other, as [add] lets them be. *)
Definition ring : state :=
  mkState (<[1 := plain (Some 0) false false false None]>
             (<[0 := plain (Some 1) false false false None]> ∅)) ∅ [].

(** The store a call leaves, [s] when it does not return. *)
Definition after {A} (m : M A) (s : state) : state :=
  match m s with
  | Some (_, s') => s'
  | None => s
  end.

(** [nested_scene] after its scene asked for an update. *)
Definition marked_scene : state := after (needsUpdate 0) nested_scene.

(** What was done to [nested_scene] in the examples. *)
Definition some_ops : list op := [LoadGL 3 2; UpdateScale 1; ThreeCSS 2; LoadCSS 3 1].

End BackendOps.

(** ** Scene.ts: the cameras of a scene, and the size of its host *)
Module Camera.
Import Values.
#[local] Open Scope float_scope.

(** A Three.js [PerspectiveCamera], as far as the scene writes to it;
    [projections] counts the scene's calls of [updateProjectionMatrix]. *)
Record ThreePerspectiveCamera := mkCamera {
  fov : float;
  aspect : float;
  near : float;
  far : float;
  position_z : float;
  projections : nat;
}.

(** What [#threeCamera] refers to: the default camera made last, or the
    [three] object of a camera element. *)
Inductive camera_ref :=
  | DefaultCamera
  | ElementCamera (camera : nat).

#[global] Instance camera_ref_eq_dec : EqDecision camera_ref.
Proof. solve_decision. Defined.

(** [activeCameras] is the [Set] in insertion order; [element_camera] gives
    [camera.three] of each camera element. *)
Record camera_state := mkScene {
  activeCameras : list nat;
  threeCamera : camera_ref;
  default_camera : ThreePerspectiveCamera;
  defaults_made : nat;
  element_camera : nat → ThreePerspectiveCamera;
  perspective : float;
  calculatedSize : XYZ float;
  updates : nat;
}.

(** [v || 1] on numbers: [0], [-0] and [NaN] are the falsy ones. *)
Definition or_one (v : float) : float :=
  if (v =? 0) || is_nan v then 1 else v.

Definition PI : float := 0x1.921fb54442d18p+1.

(** The object behind [#threeCamera]. *)
Definition active_camera (s : camera_state) : ThreePerspectiveCamera :=
  match threeCamera s with
  | DefaultCamera => default_camera s
  | ElementCamera c => element_camera s c
  end.

(** A write to the object behind [#threeCamera]. *)
Definition update_active (f : ThreePerspectiveCamera → ThreePerspectiveCamera)
    (s : camera_state) : camera_state :=
  match threeCamera s with
  | DefaultCamera =>
      mkScene (activeCameras s) (threeCamera s) (f (default_camera s)) (defaults_made s)
        (element_camera s) (perspective s) (calculatedSize s) (updates s)
  | ElementCamera c =>
      mkScene (activeCameras s) (threeCamera s) (default_camera s) (defaults_made s)
        (λ c', if decide (c' = c) then f (element_camera s c) else element_camera s c')
        (perspective s) (calculatedSize s) (updates s)
  end.

Definition needsUpdate (s : camera_state) : camera_state :=
  mkScene (activeCameras s) (threeCamera s) (default_camera s) (defaults_made s)
    (element_camera s) (perspective s) (calculatedSize s) (S (updates s)).

Section atan.
(** [Math.atan] *)
Variable atan : float → float.

(** [_updateCameraPerspective()] *)
Definition _updateCameraPerspective (s : camera_state) : camera_state :=
  update_active
    (λ c, mkCamera (180 * (2 * atan (y (calculatedSize s) / 2 / perspective s)) / PI)
            (aspect c) (near c) (far c) (perspective s) (projections c)) s.

(** [_updateCameraAspect()] *)
Definition _updateCameraAspect (s : camera_state) : camera_state :=
  update_active
    (λ c, mkCamera (fov c) (or_one (x (calculatedSize s) / y (calculatedSize s)))
            (near c) (far c) (position_z c) (projections c)) s.

(** [_updateCameraProjection()] *)
Definition _updateCameraProjection (s : camera_state) : camera_state :=
  update_active
    (λ c, mkCamera (fov c) (aspect c) (near c) (far c) (position_z c)
            (S (projections c))) s.

(** [set perspective(value)] *)
Definition set_perspective (value : float) (s : camera_state) : camera_state :=
  needsUpdate
    (_updateCameraProjection
       (_updateCameraPerspective
          (mkScene (activeCameras s) (threeCamera s) (default_camera s)
             (defaults_made s) (element_camera s) value (calculatedSize s)
             (updates s)))).

(** [_createDefaultCamera()]; a new camera stands at the origin. *)
Definition _createDefaultCamera (s : camera_state) : camera_state :=
  set_perspective (perspective s)
    (mkScene (activeCameras s) DefaultCamera
       (mkCamera 45 (or_one (x (calculatedSize s) / y (calculatedSize s)))
          0x1.999999999999ap-4 10000 0 0)
       (S (defaults_made s)) (element_camera s) (perspective s) (calculatedSize s)
       (updates s)).

(** [#setCamera(camera?)] *)
Definition setCamera (camera : option nat) (s : camera_state) : camera_state :=
  match camera with
  | None => _createDefaultCamera s
  | Some c =>
      needsUpdate
        (_updateCameraProjection
           (_updateCameraAspect
              (mkScene (activeCameras s) (ElementCamera c) (default_camera s)
                 (defaults_made s) (element_camera s) (perspective s)
                 (calculatedSize s) (updates s))))
  end.

(** [Set.prototype.add] and [delete] *)
Definition set_add (c : nat) (l : list nat) : list nat :=
  if decide (c ∈ l) then l else l ++ [c].
Definition set_delete (c : nat) (l : list nat) : list nat :=
  filter (λ c', c' ≠ c) l.

Definition with_activeCameras (l : list nat) (s : camera_state) : camera_state :=
  mkScene l (threeCamera s) (default_camera s) (defaults_made s) (element_camera s)
    (perspective s) (calculatedSize s) (updates s).

(** [_addCamera(camera)] *)
Definition _addCamera (camera : nat) (s : camera_state) : camera_state :=
  setCamera (Some camera) (with_activeCameras (set_add camera (activeCameras s)) s).

(** [_removeCamera(camera)]: with cameras left, the [forEach] leaves the
    last one of the set in [camera]. *)
Definition _removeCamera (camera : nat) (s : camera_state) : camera_state :=
  let s1 := with_activeCameras (set_delete camera (activeCameras s)) s in
  setCamera (last (activeCameras s1)) s1.

(** What happens to a scene's cameras; [Resize] is an assignment of
    [calculatedSize]. *)
Inductive op :=
  | AddCamera (camera : nat)
  | RemoveCamera (camera : nat)
  | SetPerspective (value : float)
  | Resize (size : XYZ float)
  | UpdateCameraAspect.

Definition exec (o : op) (s : camera_state) : camera_state :=
  match o with
  | AddCamera c => _addCamera c s
  | RemoveCamera c => _removeCamera c s
  | SetPerspective v => set_perspective v s
  | Resize v =>
      mkScene (activeCameras s) (threeCamera s) (default_camera s) (defaults_made s)
        (element_camera s) (perspective s) v (updates s)
  | UpdateCameraAspect => _updateCameraAspect s
  end.

Definition run (ops : list op) (s : camera_state) : camera_state :=
  foldl (λ s o, exec o s) s ops.

(** The cameras of a scene out of its constructor: [#perspective = 400],
    no camera element registered, and the default camera made. *)
Definition constructed (size : XYZ float) (cams : nat → ThreePerspectiveCamera) : camera_state :=
  _createDefaultCamera
    (mkScene [] DefaultCamera (mkCamera 0 0 0 0 0 0) 0 cams 400 size 0).
End atan.

(** The camera in use is a registered one, and the default one exactly
    when none is registered. *)
Definition camera_registered (s : camera_state) : Prop :=
  NoDup (activeCameras s)
  ∧ match threeCamera s with
    | DefaultCamera => activeCameras s = []
    | ElementCamera c => c ∈ activeCameras s
    end.

(** The aspect ratio is a number other than zero. *)
Definition aspect_usable (c : ThreePerspectiveCamera) : Prop :=
  is_nan (aspect c) = false ∧ (aspect c =? 0) = false.

End Camera.

Module HostSize.
Import Values Size.
#[local] Open Scope float_scope.






End HostSize.

(** * Facts about TreeNode.ts *)
Module TreeFacts.
Import Tree.

Lemma indexOf_ge l x : ((-1) ≤ indexOf l x)%Z.
Proof. induction l as [|y l IH]; simpl; repeat case_decide; lia. Qed.

Lemma indexOf_notin l x : x ∉ l → indexOf l x = (-1)%Z.
Proof.
  induction l as [|y l IH]; simpl; [done|].
  intros [Hne Hnin]%not_elem_of_cons. rewrite decide_False by done.
  rewrite IH by done. by rewrite decide_True.
Qed.

Lemma indexOf_in l x : x ∈ l → (0 ≤ indexOf l x)%Z.
Proof.
  induction l as [|y l IH]; [by intros ?%elem_of_nil|].
  simpl. destruct (decide (y = x)) as [->|Hne]; [lia|].
  intros [?|Hin]%elem_of_cons; [congruence|].
  specialize (IH Hin). rewrite decide_False by lia. lia.
Qed.

(** At the index [indexOf] returns for a member, [splice1] removes its
    first occurrence. *)
Lemma splice1_indexOf l x :
  x ∈ l → ∃ l1 l2, l = l1 ++ x :: l2 ∧ (x ∉ l1) ∧ splice1 (indexOf l x) l = l1 ++ l2.
Proof.
  induction l as [|y l IH]; [by intros ?%elem_of_nil|].
  intros Hin. simpl. destruct (decide (y = x)) as [->|Hne].
  - exists [], l. split_and!; [done|apply not_elem_of_nil|done].
  - apply elem_of_cons in Hin as [?|Hin]; [congruence|].
    destruct (IH Hin) as (l1 & l2 & Hl & Hnin & Hsp).
    exists (y :: l1), l2. split_and!; [by rewrite Hl|by apply not_elem_of_cons|].
    pose proof (indexOf_in l x Hin) as Hge.
    revert Hsp. unfold splice1.
    destruct (decide (indexOf l x = -1)%Z) as [?|_]; [lia|].
    rewrite !decide_False by lia. intros Hsp.
    replace (Z.to_nat (indexOf l x + 1)) with (S (Z.to_nat (indexOf l x))) by lia.
    simpl. by rewrite Hsp.
Qed.

Lemma alter_Some {A} (f : A → A) (k : nat) (m : gmap nat A) x :
  m !! k = Some x → alter f k m = <[k := f x]> m.
Proof.
  intros Hk. apply map_eq. intros i. rewrite lookup_alter, lookup_insert.
  destruct (decide (k = i)) as [->|]; [by rewrite Hk|done].
Qed.

Lemma removeNode_ok s this c t cn l :
  nodes s !! this = Some t → nodes s !! c = Some cn →
  __parent cn = Some this → arrays s !! __children t = Some l →
  removeNode this c s = (inr this, removed this c t cn l s).
Proof.
  intros Ht Hc Hp Hl. unfold removeNode, mbind, M_bind, bind, instance_of.
  rewrite Ht, Hc. rewrite decide_False by (intros ?; congruence).
  unfold set_parent, set_isConnected, array_get, array_splice1, defer, modify,
    with_nodes, with_arrays, removed, mret, M_ret, ret; simpl.
  rewrite Hl. simpl. f_equal. f_equal.
  - rewrite (alter_Some _ _ _ _ Hc).
    erewrite alter_Some by apply lookup_insert_eq. simpl.
    by rewrite insert_insert_eq.
  - by rewrite (alter_Some _ _ _ _ Hl).
Qed.

Lemma removeNode_not_child s this c t cn :
  nodes s !! this = Some t → nodes s !! c = Some cn →
  __parent cn ≠ Some this →
  removeNode this c s = (inl ReferenceError, s).
Proof.
  intros Ht Hc Hp. unfold removeNode, mbind, M_bind, bind, instance_of.
  rewrite Ht, Hc. by rewrite decide_True.
Qed.

Lemma add_unfold this c :
  add this c =
    (t ← instance_of TypeError this;
     cn ← instance_of TypeError c;
     if decide (__parent cn = Some this) then mret this else
     match __parent cn with
     | Some p => removeNode p c;; mret tt
     | None => mret tt
     end;;
     attach this c t).
Proof. reflexivity. Qed.

Lemma attach_ok s this c t cn :
  nodes s !! c = Some cn →
  attach this c t s = (inr this, added this c t cn s).
Proof.
  intros Hc. unfold attach, mbind, M_bind, bind.
  unfold set_parent, set_isConnected, array_push, defer, modify,
    with_nodes, with_arrays, added, mret, M_ret, ret; simpl.
  f_equal. f_equal.
  rewrite (alter_Some _ _ _ _ Hc).
  erewrite alter_Some by apply lookup_insert_eq. simpl.
  by rewrite insert_insert_eq.
Qed.

Lemma add_orphan s this c t cn :
  nodes s !! this = Some t → nodes s !! c = Some cn →
  __parent cn = None →
  add this c s = (inr this, added this c t cn s).
Proof.
  intros Ht Hc Hp. rewrite add_unfold. unfold mbind, M_bind, bind, instance_of.
  rewrite Ht, Hc, Hp. rewrite decide_False by done. simpl.
  by apply attach_ok.
Qed.

Lemma add_same_parent s this c t cn :
  nodes s !! this = Some t → nodes s !! c = Some cn →
  __parent cn = Some this → add this c s = (inr this, s).
Proof.
  intros Ht Hc Hp. unfold add, mbind, M_bind, bind, instance_of.
  rewrite Ht, Hc. by rewrite decide_True.
Qed.

Lemma add_not_node_this s this c :
  nodes s !! this = None → add this c s = (inl TypeError, s).
Proof.
  intros Ht. unfold add, mbind, M_bind, bind, instance_of. by rewrite Ht.
Qed.

Lemma add_not_node_child s this c t :
  nodes s !! this = Some t → nodes s !! c = None →
  add this c s = (inl TypeError, s).
Proof.
  intros Ht Hc. unfold add, mbind, M_bind, bind, instance_of. by rewrite Ht, Hc.
Qed.

(** Moving a child: [add] first calls [removeNode] on the old parent and
    then proceeds as for a child without a parent. *)
Lemma add_reparent s this c t cn q tq l :
  nodes s !! this = Some t → nodes s !! c = Some cn →
  __parent cn = Some q → q ≠ this →
  nodes s !! q = Some tq → arrays s !! __children tq = Some l →
  add this c s = add this c (removed q c tq cn l s).
Proof.
  intros Ht Hc Hp Hq Htq Hl.
  set (cn' := mkTreeNode None (__children cn) false).
  assert (nodes (removed q c tq cn l s) !! c = Some cn') as Hc'
    by apply lookup_insert_eq.
  assert (∃ t', nodes (removed q c tq cn l s) !! this = Some t'
                ∧ __children t' = __children t) as (t' & Ht' & Hch).
  { destruct (decide (this = c)) as [->|Hne].
    - exists cn'. split; [done|]. simpl. congruence.
    - exists t. split; [|done]. simpl. by rewrite lookup_insert_ne. }
  rewrite (add_orphan (removed q c tq cn l s) this c t' cn'); [|done|done|reflexivity].
  rewrite add_unfold. unfold mbind, M_bind, bind, instance_of.
  rewrite Ht, Hc. rewrite decide_False by (intros ?; congruence). rewrite Hp.
  rewrite (removeNode_ok s q c tq cn l) by done. simpl.
  rewrite (attach_ok _ this c t cn') by done.
  unfold added. by rewrite Hch.
Qed.

Lemma parent_update s c cn' ar tk dl x :
  parent (mkState (<[c := cn']> (nodes s)) ar tk dl) x
  = if decide (x = c) then __parent cn' else parent s x.
Proof.
  unfold parent. simpl. destruct (decide (x = c)) as [->|Hne].
  - by rewrite lookup_insert_eq.
  - by rewrite lookup_insert_ne.
Qed.

Lemma isConnected_update s c cn' ar tk dl x :
  isConnected (mkState (<[c := cn']> (nodes s)) ar tk dl) x
  = if decide (x = c) then __isConnected cn' else isConnected s x.
Proof.
  unfold isConnected. simpl. destruct (decide (x = c)) as [->|Hne].
  - by rewrite lookup_insert_eq.
  - by rewrite lookup_insert_ne.
Qed.

Lemma children_update s c cn cn' q tq l' tk dl b :
  (∀ n m t u, nodes s !! n = Some t → nodes s !! m = Some u →
              __children t = __children u → n = m) →
  nodes s !! c = Some cn → __children cn' = __children cn →
  nodes s !! q = Some tq →
  children (mkState (<[c := cn']> (nodes s)) (<[__children tq := l']> (arrays s)) tk dl) b
  = if decide (b = q) then l' else children s b.
Proof.
  intros Hown Hc Hch Hq. unfold children. simpl.
  assert (∀ n, nodes s !! b = Some n →
               (<[__children tq := l']> (arrays s)) !! __children n
               = if decide (b = q) then Some l' else arrays s !! __children n) as Harr.
  { intros n Hn. destruct (decide (b = q)) as [->|Hne].
    - assert (n = tq) as -> by congruence. by rewrite lookup_insert_eq.
    - rewrite lookup_insert_ne; [done|]. intros Heq. apply Hne.
      symmetry. by eapply Hown. }
  destruct (decide (b = c)) as [->|Hne].
  - rewrite lookup_insert_eq, Hc. simpl. rewrite Hch, (Harr cn Hc).
    by destruct (decide (c = q)).
  - rewrite lookup_insert_ne by done.
    destruct (nodes s !! b) as [n|] eqn:Hn; simpl.
    + rewrite (Harr n eq_refl). by destruct (decide (b = q)).
    + destruct (decide (b = q)) as [->|]; [congruence|done].
Qed.

Lemma children_lookup s b t l :
  nodes s !! b = Some t → arrays s !! __children t = Some l → children s b = l.
Proof. intros Hb Hl. unfold children. rewrite Hb. simpl. by rewrite Hl. Qed.

Lemma parent_lookup s a n : nodes s !! a = Some n → parent s a = __parent n.
Proof. intros Ha. unfold parent. by rewrite Ha. Qed.

Lemma wf_empty : wf empty_state.
Proof.
  split; unfold consistent, children, parent, isConnected; simpl.
  - intros n t. by rewrite lookup_empty.
  - intros n m t u. by rewrite lookup_empty.
  - intros a. rewrite lookup_empty. simpl. split; [done|by intros [? ?]].
  - intros b. rewrite lookup_empty. simpl. constructor.
  - intros a b. rewrite !lookup_empty. simpl. split; [by intros ?%elem_of_nil|done].
Qed.

(** Updating the fields of [c] other than [__children], and the array of
    [q], keeps the ownership part of [wf]. *)
Lemma wf_heap_update s c cn cn' q tq l' tk dl :
  wf s → nodes s !! c = Some cn → __children cn' = __children cn →
  nodes s !! q = Some tq →
  let s' := mkState (<[c := cn']> (nodes s)) (<[__children tq := l']> (arrays s)) tk dl in
  (∀ n t, nodes s' !! n = Some t → is_Some (arrays s' !! __children t)) ∧
  (∀ n m t u, nodes s' !! n = Some t → nodes s' !! m = Some u →
              __children t = __children u → n = m).
Proof.
  intros Hwf Hc Hch Hq s'.
  assert (∀ n t, nodes s' !! n = Some t →
                 ∃ t0, nodes s !! n = Some t0 ∧ __children t = __children t0) as Hback.
  { intros n t. unfold s'. simpl. destruct (decide (n = c)) as [->|Hne].
    - rewrite lookup_insert_eq. intros [= <-]. eauto.
    - rewrite lookup_insert_ne by done. eauto. }
  split.
  - intros n t (t0 & Hn & ->)%Hback. unfold s'. simpl.
    destruct (decide (__children tq = __children t0)) as [->|Hne].
    + rewrite lookup_insert_eq. eauto.
    + rewrite lookup_insert_ne by done. by eapply wf_array.
  - intros n m t u (t0 & Hn & ->)%Hback (u0 & Hm & ->)%Hback.
    by eapply wf_own.
Qed.

Lemma removed_wf s q c tq cn l :
  wf s → nodes s !! q = Some tq → nodes s !! c = Some cn →
  __parent cn = Some q → arrays s !! __children tq = Some l →
  wf (removed q c tq cn l s).
Proof.
  intros Hwf Hq Hc Hp Hl.
  destruct (wf_heap_update s c cn (mkTreeNode None (__children cn) false) q tq
              (splice1 (indexOf l c) l)
              (tasks s ++ [[disconnected c; childDisconnected q c]]) (delivered s))
    as [Harr Hown]; [done..|].
  assert (children s q = l) as Hlq by by eapply children_lookup.
  assert (c ∈ l) as Hin.
  { rewrite <-Hlq. apply (wf_consistent s Hwf). by rewrite (parent_lookup s c cn). }
  destruct (splice1_indexOf l c Hin) as (l1 & l2 & El & Hnin & Esp).
  assert (NoDup l) as Hnd by (rewrite <-Hlq; by apply wf_nodup).
  rewrite El in Hnd. apply NoDup_app in Hnd as (Hnd1 & Hdisj & Hnd2).
  apply NoDup_cons in Hnd2 as [Hnin2 Hnd2].
  split; [exact Harr|exact Hown|..]; unfold removed.
  - intros a. rewrite isConnected_update, parent_update. simpl.
    destruct (decide (a = c)); [|by apply wf_flag].
    split; [done|by intros [? ?]].
  - intros b. erewrite children_update; [|by apply wf_own|done..].
    destruct (decide (b = q)); [|by apply wf_nodup].
    rewrite Esp. apply NoDup_app. split_and!; [done| |done].
    intros x Hx1 Hx2. apply (Hdisj x Hx1). by right.
  - intros a b. erewrite children_update; [|by apply wf_own|done..].
    rewrite parent_update. simpl.
    destruct (decide (b = q)) as [->|Hbq].
    + rewrite Esp. destruct (decide (a = c)) as [->|Hac].
      * split; [|done]. rewrite elem_of_app. intros [?|?]; done.
      * rewrite <-(wf_consistent s Hwf a q), Hlq, El.
        rewrite !elem_of_app, elem_of_cons. intuition congruence.
    + destruct (decide (a = c)) as [->|Hac]; [|by apply wf_consistent].
      split; [|done]. intros Hcb%(wf_consistent s Hwf).
      rewrite (parent_lookup s c cn) in Hcb by done. congruence.
Qed.

Lemma added_wf s this c t cn :
  wf s → nodes s !! this = Some t → nodes s !! c = Some cn →
  __parent cn = None →
  wf (added this c t cn s).
Proof.
  intros Hwf Ht Hc Hp.
  destruct (wf_array s Hwf this t Ht) as [l Hl].
  unfold added. rewrite (alter_Some _ _ _ _ Hl).
  destruct (wf_heap_update s c cn (mkTreeNode (Some this) (__children cn) true) this t
              (l ++ [c])
              (tasks s ++ [[connected c; childConnected this c]]) (delivered s))
    as [Harr Hown]; [done..|].
  assert (children s this = l) as Hlq by by eapply children_lookup.
  assert (∀ b, c ∉ children s b) as Hnin.
  { intros b Hcb%(wf_consistent s Hwf).
    rewrite (parent_lookup s c cn) in Hcb by done. congruence. }
  split; [exact Harr|exact Hown|..].
  - intros a. rewrite isConnected_update, parent_update. simpl.
    destruct (decide (a = c)); [|by apply wf_flag]. split; [eauto|done].
  - intros b. erewrite children_update; [|by apply wf_own|done..].
    destruct (decide (b = this)) as [->|]; [|by apply wf_nodup].
    apply NoDup_app. split_and!.
    + rewrite <-Hlq. by apply wf_nodup.
    + intros x Hx ->%list_elem_of_singleton. apply (Hnin this). by rewrite Hlq.
    + apply NoDup_singleton.
  - intros a b. erewrite children_update; [|by apply wf_own|done..].
    rewrite parent_update. simpl.
    destruct (decide (b = this)) as [->|Hbq].
    + rewrite elem_of_app, list_elem_of_singleton, <-Hlq.
      destruct (decide (a = c)) as [->|Hac]; [by intuition|].
      rewrite (wf_consistent s Hwf a this). intuition congruence.
    + destruct (decide (a = c)) as [->|Hac]; [|by apply wf_consistent].
      split; [by intros ?%Hnin|congruence].
Qed.

(** *** Ancestors under a change of one parent link *)
Section ancestors.
Variable par : ref → option ref.

Lemma ancestor_of_ext par' a b :
  (∀ x, par x = par' x) → ancestor_of par a b → ancestor_of par' a b.
Proof.
  intros Hext. induction 1 as [b Hb|b c Hb _ IH].
  - apply anc_parent. by rewrite <-Hext.
  - eapply anc_step; [by rewrite <-Hext|done].
Qed.

Lemma ancestor_of_trans a b c :
  ancestor_of par a b → ancestor_of par b c → ancestor_of par a c.
Proof.
  intros Hab. induction 1 as [c Hc|c d Hc _ IH].
  - by eapply anc_step.
  - eapply anc_step; [done|by apply IH].
Qed.

(** Clearing the parent of [c] creates no new ancestor. *)
Lemma ancestor_of_cut c a b :
  ancestor_of (λ x, if decide (x = c) then None else par x) a b →
  ancestor_of par a b.
Proof.
  induction 1 as [b Hb|b d Hb _ IH]; destruct (decide (b = c)); try done.
  - by apply anc_parent.
  - by eapply anc_step.
Qed.

(** Every new ancestor relation that the link [c → p] creates passes
    through that link. *)
Lemma ancestor_of_link c p a b :
  ancestor_of (λ x, if decide (x = c) then Some p else par x) a b →
  ancestor_of par a b
  ∨ ((b = c ∨ ancestor_of par c b) ∧ (a = p ∨ ancestor_of par a p)).
Proof.
  induction 1 as [b Hb|b d Hb _ IH]; destruct (decide (b = c)) as [->|Hne].
  - injection Hb as <-. right. by split; left.
  - left. by apply anc_parent.
  - injection Hb as <-. right. split; [by left|].
    destruct IH as [?|[_ ?]]; [by right|done].
  - destruct IH as [?|[Hd ?]]; [left; by eapply anc_step|].
    right. split; [|done]. right.
    destruct Hd as [->|?]; [by apply anc_parent|by eapply anc_step].
Qed.

Lemma acyclic_cut c :
  (∀ n, ¬ ancestor_of par n n) →
  ∀ n, ¬ ancestor_of (λ x, if decide (x = c) then None else par x) n n.
Proof. intros Hac n Hn. by apply (Hac n), (ancestor_of_cut c). Qed.

(** A link to a node that is neither the child itself nor below it
    closes no cycle. *)
Lemma acyclic_link c p :
  (∀ n, ¬ ancestor_of par n n) → c ≠ p → ¬ ancestor_of par c p →
  ∀ n, ¬ ancestor_of (λ x, if decide (x = c) then Some p else par x) n n.
Proof.
  intros Hac Hne Hcp n Hn.
  destruct (ancestor_of_link c p n n Hn) as [?|[Hc Hp]]; [by eapply Hac|].
  apply Hcp. destruct Hc as [->|Hc], Hp as [->|Hp]; try done.
  by eapply ancestor_of_trans.
Qed.
End ancestors.

Lemma new_TreeNode_eq s :
  new_TreeNode s =
    (inr (fresh (dom (nodes s))),
     mkState (<[fresh (dom (nodes s)) := mkTreeNode None (fresh (dom (arrays s))) false]> (nodes s))
             (<[fresh (dom (arrays s)) := []]> (arrays s)) (tasks s) (delivered s)).
Proof. reflexivity. Qed.

Lemma fresh_lookup {A} (m : gmap nat A) : m !! fresh (dom m) = None.
Proof. apply not_elem_of_dom, is_fresh. Qed.

Lemma new_TreeNode_parent s x : parent (new_TreeNode s).2 x = parent s x.
Proof.
  rewrite new_TreeNode_eq. simpl. rewrite parent_update. simpl.
  destruct (decide (x = fresh (dom (nodes s)))) as [->|]; [|done].
  unfold parent. by rewrite fresh_lookup.
Qed.

Lemma new_TreeNode_children s b :
  wf s → children (new_TreeNode s).2 b = children s b.
Proof.
  intros Hwf. rewrite new_TreeNode_eq. unfold children. simpl.
  destruct (decide (b = fresh (dom (nodes s)))) as [->|Hne].
  - by rewrite lookup_insert_eq, fresh_lookup; simpl; rewrite lookup_insert_eq.
  - rewrite lookup_insert_ne by done.
    destruct (nodes s !! b) as [t|] eqn:Hb; [|done]. simpl.
    rewrite lookup_insert_ne; [done|]. intros Heq.
    destruct (wf_array s Hwf b t Hb) as [l Hl].
    rewrite <-Heq, fresh_lookup in Hl. done.
Qed.

Lemma new_TreeNode_wf s : wf s → wf (new_TreeNode s).2.
Proof.
  intros Hwf. split.
  - intros n t. rewrite new_TreeNode_eq. simpl.
    destruct (decide (n = fresh (dom (nodes s)))) as [->|Hne].
    + rewrite lookup_insert_eq. intros [= <-]. simpl. rewrite lookup_insert_eq. eauto.
    + rewrite lookup_insert_ne by done. intros Hn.
      destruct (wf_array s Hwf n t Hn) as [l Hl].
      destruct (decide (fresh (dom (arrays s)) = __children t)) as [<-|Hne'].
      * rewrite lookup_insert_eq. eauto.
      * rewrite lookup_insert_ne by done. eauto.
  - assert (∀ n t, nodes s !! n = Some t → __children t ≠ fresh (dom (arrays s))) as Hfr.
    { intros n t Hn Heq. destruct (wf_array s Hwf n t Hn) as [l Hl].
      by rewrite Heq, fresh_lookup in Hl. }
    intros n m t u. rewrite new_TreeNode_eq. simpl.
    destruct (decide (n = fresh (dom (nodes s)))) as [->|Hn];
      destruct (decide (m = fresh (dom (nodes s)))) as [->|Hm]; [done|..].
    + rewrite lookup_insert_eq, lookup_insert_ne by done.
      intros [= <-] Hu Heq. simpl in Heq. exfalso. by apply (Hfr m u Hu).
    + rewrite lookup_insert_eq, lookup_insert_ne by done.
      intros Ht [= <-] Heq. simpl in Heq. exfalso. by apply (Hfr n t Ht).
    + rewrite !lookup_insert_ne by done. by apply wf_own.
  - intros a. rewrite new_TreeNode_parent, <-(wf_flag s Hwf a).
    rewrite new_TreeNode_eq. simpl. rewrite isConnected_update. simpl.
    destruct (decide (a = fresh (dom (nodes s)))) as [->|]; [|done].
    unfold isConnected. by rewrite fresh_lookup.
  - intros b. rewrite new_TreeNode_children by done. by apply wf_nodup.
  - intros a b. rewrite new_TreeNode_children, new_TreeNode_parent by done.
    by apply wf_consistent.
Qed.

(** *** What [removeNode] and [add] do to a well-formed store *)

Lemma node_of_parent s a b : wf s → parent s a = Some b → is_Some (nodes s !! b).
Proof.
  intros Hwf Hp%(wf_consistent s Hwf). unfold children in Hp.
  destruct (nodes s !! b); [eauto|]. by apply elem_of_nil in Hp.
Qed.

Lemma removeNode_child s this c :
  wf s → parent s c = Some this →
  ∃ t cn l, nodes s !! this = Some t ∧ nodes s !! c = Some cn ∧
            __parent cn = Some this ∧ arrays s !! __children t = Some l ∧
            removeNode this c s = (inr this, removed this c t cn l s).
Proof.
  intros Hwf Hp. destruct (node_of_parent s c this Hwf Hp) as [t Ht].
  destruct (wf_array s Hwf this t Ht) as [l Hl].
  unfold parent in Hp. destruct (nodes s !! c) as [cn|] eqn:Hc; [|done].
  simpl in Hp. exists t, cn, l. split_and!; [done..|]. by apply removeNode_ok.
Qed.

Lemma removeNode_rejects s this c :
  parent s c ≠ Some this → ∃ e, removeNode this c s = (inl e, s).
Proof.
  intros Hp. unfold removeNode, mbind, M_bind, bind, instance_of.
  destruct (nodes s !! this) as [t|] eqn:Ht; [|by exists TypeError].
  destruct (nodes s !! c) as [cn|] eqn:Hc; [|by exists Error].
  rewrite (parent_lookup s c cn Hc) in Hp.
  rewrite decide_True by done. by exists ReferenceError.
Qed.

Lemma removeNode_wf s this c : wf s → wf (removeNode this c s).2.
Proof.
  intros Hwf. destruct (decide (parent s c = Some this)) as [Hp|Hp].
  - destruct (removeNode_child s this c Hwf Hp) as (t & cn & l & ? & ? & ? & ? & ->).
    by apply removed_wf.
  - by destruct (removeNode_rejects s this c Hp) as [e ->].
Qed.

Lemma removeNode_parent s this c x :
  wf s → parent (removeNode this c s).2 x
         = if decide (x = c ∧ parent s c = Some this) then None else parent s x.
Proof.
  intros Hwf. destruct (decide (parent s c = Some this)) as [Hp|Hp].
  - destruct (removeNode_child s this c Hwf Hp) as (t & cn & l & ? & ? & ? & ? & ->).
    simpl. unfold removed. rewrite parent_update. simpl.
    destruct (decide (x = c)) as [->|]; [by rewrite decide_True|].
    rewrite decide_False; [done|]. by intros [? _].
  - destruct (removeNode_rejects s this c Hp) as [e ->]. simpl.
    rewrite decide_False; [done|]. by intros [_ ?].
Qed.

Lemma add_cases s this c : wf s → add_case s this c (add this c s).
Proof.
  intros Hwf.
  destruct (nodes s !! this) as [t|] eqn:Ht;
    [|rewrite add_not_node_this by done; apply add_no_node; by left].
  destruct (nodes s !! c) as [cn|] eqn:Hc;
    [|rewrite (add_not_node_child s this c t) by done; apply add_no_node; by right].
  destruct (__parent cn) as [q|] eqn:Hp.
  - destruct (decide (q = this)) as [->|Hq].
    + rewrite (add_same_parent s this c t cn) by done. by eapply add_already.
    + destruct (node_of_parent s c q Hwf) as [tq Htq];
        [by rewrite (parent_lookup s c cn)|].
      destruct (wf_array s Hwf q tq Htq) as [l Hl].
      rewrite (add_reparent s this c t cn q tq l) by done.
      assert (∃ t', nodes (removed q c tq cn l s) !! this = Some t') as [t' Ht'].
      { simpl. destruct (decide (this = c)) as [->|Hne].
        - rewrite lookup_insert_eq. eauto.
        - rewrite lookup_insert_ne by done. eauto. }
      rewrite (add_orphan _ this c t' (mkTreeNode None (__children cn) false));
        [|done|apply lookup_insert_eq|done].
      by eapply add_moved.
  - rewrite (add_orphan s this c t cn) by done. by eapply add_fresh.
Qed.

Lemma add_wf s this c : wf s → wf (add this c s).2.
Proof.
  intros Hwf. destruct (add_cases s this c Hwf); simpl; [done|done|..].
  - by apply added_wf.
  - apply added_wf; [by apply removed_wf|done|apply lookup_insert_eq|done].
Qed.

Lemma add_returns s this c :
  wf s → is_Some (nodes s !! this) → is_Some (nodes s !! c) →
  (add this c s).1 = inr this.
Proof.
  intros Hwf [t Ht] [cn Hc].
  destruct (add_cases s this c Hwf) as [[?|?]| | |]; congruence || done.
Qed.

Lemma add_parent s this c x :
  wf s → is_Some (nodes s !! this) → is_Some (nodes s !! c) →
  parent (add this c s).2 x = if decide (x = c) then Some this else parent s x.
Proof.
  intros Hwf [t Ht] [cn Hc].
  destruct (add_cases s this c Hwf) as [[?|?]|t0 cn0 ? Hc0 Hp| |]; simpl;
    [congruence|congruence|..].
  - destruct (decide (x = c)) as [->|]; [|done]. by rewrite (parent_lookup s c cn0).
  - unfold added. by rewrite parent_update.
  - unfold added, removed. rewrite !parent_update. simpl.
    by destruct (decide (x = c)).
Qed.

Lemma exec_wf o s : wf s → wf (exec o s).
Proof.
  destruct o; simpl; [apply new_TreeNode_wf|apply add_wf|apply removeNode_wf].
Qed.

Lemma exec_all_wf ops s : wf s → wf (exec_all ops s).
Proof.
  revert s. induction ops as [|o ops IH]; intros s Hwf; [done|].
  apply IH. by apply exec_wf.
Qed.

Lemma exec_acyclic o s :
  wf s → acyclic s →
  match o with Add p c => c ≠ p ∧ ¬ ancestor s c p | _ => True end →
  acyclic (exec o s).
Proof.
  intros Hwf Hac Hop. destruct o as [|p c|p c]; simpl.
  - intros n Hn. apply (Hac n).
    eapply ancestor_of_ext; [|exact Hn]. intros x. apply new_TreeNode_parent.
  - destruct Hop as [Hne Hanc].
    destruct (nodes s !! p) as [t|] eqn:Hp;
      [|by rewrite add_not_node_this].
    destruct (nodes s !! c) as [cn|] eqn:Hc;
      [|by rewrite (add_not_node_child s p c t)].
    intros n Hn. apply (acyclic_link (parent s) c p Hac Hne Hanc n).
    eapply ancestor_of_ext; [|exact Hn]. intros x. simpl.
    by rewrite add_parent.
  - intros n Hn.
    destruct (decide (parent s c = Some p)) as [Hcp|Hcp].
    + apply (acyclic_cut (parent s) c Hac n).
      eapply ancestor_of_ext; [|exact Hn]. intros x. simpl.
      rewrite removeNode_parent by done.
      destruct (decide (x = c)) as [->|Hx].
      * by rewrite decide_True.
      * rewrite decide_False; [done|]. by intros [? _].
    + destruct (removeNode_rejects s p c Hcp) as [e He].
      rewrite He in Hn. by apply (Hac n).
Qed.

Lemma exec_all_acyclic ops s :
  wf s → acyclic s → tree_like s ops → acyclic (exec_all ops s).
Proof.
  revert s. induction ops as [|o ops IH]; intros s Hwf Hac Hops; [done|].
  destruct Hops as [Ho Hops]. simpl. apply IH; [by apply exec_wf| |done].
  by apply exec_acyclic.
Qed.

(** C1 (as the code has it).  After every sequence of constructions,
    [add] and [removeNode] calls on a well-formed store, a node is in the
    child array of [b] exactly when its parent pointer is [b].  Parent
    links stay free of cycles when no [add] of the sequence names as child
    the receiver itself or one of its ancestors: [add] makes no such check
    of its own. *)
Theorem tree_invariant s0 ops :
  wf s0 →
  consistent (exec_all ops s0)
  ∧ (acyclic s0 → tree_like s0 ops → acyclic (exec_all ops s0)).
Proof.
  intros Hwf. split.
  - by apply wf_consistent, exec_all_wf.
  - by apply exec_all_acyclic.
Qed.

Lemma acyclic_empty : acyclic empty_state.
Proof. intros n Hn. inversion Hn; done. Qed.

(** Refuting [ancestor] in a store given in full: follow the parent
    links, which end after finitely many steps. *)
Ltac refute_ancestor H :=
  let Hp := fresh "Hp" in
  let H' := fresh "H'" in
  inversion H as [? Hp|? ? Hp H']; subst; vm_compute in Hp;
  first [discriminate Hp | injection Hp as <-; refute_ancestor H'].

Lemma tree_invariant_witness :
  wf empty_state
  ∧ consistent (exec_all [New; New; New; Add 0 1; Add 1 2; Remove 0 1; Add 2 0] empty_state)
  ∧ acyclic (exec_all [New; New; New; Add 0 1; Add 1 2; Remove 0 1; Add 2 0] empty_state).
Proof.
  split; [apply wf_empty|].
  destruct (tree_invariant empty_state
              [New; New; New; Add 0 1; Add 1 2; Remove 0 1; Add 2 0] wf_empty)
    as [Hcons Hacyc].
  split; [exact Hcons|]. apply Hacyc; [apply acyclic_empty|].
  simpl. split_and!; try done; intros H; refute_ancestor H.
Defined.

(** C1, as stated, fails: [b.add(a)] after [a.add(b)] is accepted and
    makes [a] its own ancestor. *)
Lemma add_closes_cycle :
  ¬ (consistent (exec_all [New; New; Add 0 1; Add 1 0] empty_state)
     ∧ acyclic (exec_all [New; New; Add 0 1; Add 1 0] empty_state)).
Proof.
  intros [_ Hac]. apply (Hac 0).
  eapply anc_step; [|apply anc_parent]; by vm_compute.
Qed.

Lemma add_children s this c b :
  wf s → is_Some (nodes s !! this) → is_Some (nodes s !! c) →
  children (add this c s).2 b =
    if decide (parent s c = Some this) then children s b
    else if decide (b = this) then children s this ++ [c]
    else if decide (parent s c = Some b)
         then splice1 (indexOf (children s b) c) (children s b)
         else children s b.
Proof.
  intros Hwf [t Ht] [cn Hc]. rewrite (parent_lookup s c cn Hc).
  destruct (add_cases s this c Hwf)
    as [[?|?]|t0 cn0 ? Hc0 Hp|t0 cn0 Ht0 Hc0 Hp|t0 cn0 q tq l t' Ht0 Hc0 Hp Hq Htq Hl Ht'];
    simpl; [congruence|congruence|..]; assert (cn0 = cn) as -> by congruence.
  - by rewrite decide_True.
  - rewrite Hp. rewrite decide_False by done.
    destruct (wf_array s Hwf this t0 Ht0) as [l Hl].
    unfold added. rewrite (alter_Some _ _ _ _ Hl).
    erewrite children_update; [|by apply wf_own|done..].
    destruct (decide (b = this)) as [->|]; [by rewrite (children_lookup s this t0 l)|].
    by rewrite decide_False.
  - rewrite Hp. rewrite decide_False by congruence.
    pose proof (removed_wf s q c tq cn l Hwf Htq Hc0 Hp Hl) as Hwf1.
    destruct (wf_array _ Hwf1 this t' Ht') as [l' Hl'].
    assert (∀ x, children (removed q c tq cn l s) x
                 = if decide (x = q) then splice1 (indexOf l c) l else children s x) as Hrem.
    { intros x. unfold removed. erewrite children_update; [done|by apply wf_own|done..]. }
    unfold added. rewrite (alter_Some _ _ _ _ Hl').
    erewrite children_update;
      [|by apply wf_own|apply lookup_insert_eq|done|done].
    destruct (decide (b = this)) as [->|Hb].
    + rewrite <-(children_lookup _ this t' l' Ht' Hl'), Hrem.
      by rewrite decide_False.
    + rewrite Hrem. destruct (decide (b = q)) as [->|Hbq].
      * rewrite decide_True by done. by rewrite (children_lookup s q tq l).
      * rewrite decide_False; [done|congruence].
Qed.

Lemma add_isConnected s this c :
  wf s → is_Some (nodes s !! this) → is_Some (nodes s !! c) →
  isConnected (add this c s).2 c = true.
Proof.
  intros Hwf [t Ht] [cn Hc].
  destruct (add_cases s this c Hwf) as [[?|?]|t0 cn0 ? Hc0 Hp| |]; simpl;
    [congruence|congruence|..].
  - apply (wf_flag s Hwf). rewrite (parent_lookup s c cn0) by done. eauto.
  - unfold added. rewrite isConnected_update. by rewrite decide_True.
  - unfold added. rewrite isConnected_update. by rewrite decide_True.
Qed.

Lemma add_queue s this c :
  wf s → is_Some (nodes s !! this) → is_Some (nodes s !! c) →
  delivered (add this c s).2 = delivered s ∧
  tasks (add this c s).2 =
    tasks s ++
    match parent s c with
    | Some q => if decide (q = this) then []
                else [[disconnected c; childDisconnected q c];
                      [connected c; childConnected this c]]
    | None => [[connected c; childConnected this c]]
    end.
Proof.
  intros Hwf [t Ht] [cn Hc]. rewrite (parent_lookup s c cn Hc).
  destruct (add_cases s this c Hwf)
    as [[?|?]|t0 cn0 ? Hc0 Hp|t0 cn0 Ht0 Hc0 Hp|t0 cn0 q tq l t' Ht0 Hc0 Hp Hq Htq Hl Ht'];
    simpl; [congruence|congruence|..]; assert (cn0 = cn) as -> by congruence;
    rewrite Hp.
  - rewrite decide_True by done. by rewrite app_nil_r.
  - done.
  - rewrite decide_False by done. by rewrite <-app_assoc.
Qed.

Lemma ancestor_is_parent s a b : ancestor s a b → ∃ y, parent s y = Some a.
Proof. induction 1; eauto. Qed.

(** Below an ancestor [c] that is not its own ancestor, no link leaves
    [c], so re-linking [c] keeps [c] above. *)
Lemma ancestor_of_keep par c p b :
  ¬ ancestor_of par c c → ancestor_of par c b →
  ancestor_of (λ x, if decide (x = c) then Some p else par x) c b.
Proof.
  intros Hcc. induction 1 as [b Hb|b d Hb Hd IH].
  - apply anc_parent. rewrite decide_False; [done|].
    intros ->. apply Hcc. by apply anc_parent.
  - eapply anc_step; [|exact IH]. rewrite decide_False; [done|].
    intros ->. apply Hcc. by eapply anc_step.
Qed.

(** C2 (as the code has it).  [add] has no cycle check and no error for
    one: when the child is the receiver itself or one of its ancestors, the
    call returns normally, the child's parent pointer is the receiver, the
    child is the last element of the receiver's child array, and the
    receiver has become its own ancestor. *)
Theorem add_accepts_ancestor s this c :
  wf s → acyclic s → is_Some (nodes s !! this) →
  c = this ∨ ancestor s c this →
  (add this c s).1 = inr this
  ∧ parent (add this c s).2 c = Some this
  ∧ last (children (add this c s).2 this) = Some c
  ∧ ancestor (add this c s).2 this this.
Proof.
  intros Hwf Hac Hthis Hanc.
  assert (is_Some (nodes s !! c)) as Hc.
  { destruct Hanc as [->|Hanc]; [done|].
    destruct (ancestor_is_parent s c this Hanc) as [y Hy].
    by eapply node_of_parent. }
  assert (parent s c ≠ Some this) as Hp.
  { intros Hp. apply (Hac this). destruct Hanc as [->|Hanc].
    - by apply anc_parent.
    - eapply ancestor_of_trans; [|exact Hanc]. by apply anc_parent. }
  split_and!.
  - by apply add_returns.
  - rewrite add_parent by done. by rewrite decide_True.
  - rewrite add_children by done. rewrite decide_False by done.
    rewrite decide_True by done. apply last_snoc.
  - eapply ancestor_of_ext; [intros x; symmetry; by apply add_parent|].
    destruct Hanc as [->|Hanc].
    + apply anc_parent. by rewrite decide_True.
    + eapply ancestor_of_trans;
        [|apply ancestor_of_keep; [apply Hac|exact Hanc]].
      apply anc_parent. by rewrite decide_True.
Qed.

(** For a child that is a Node the overrides of ImperativeBase do what the
    methods of TreeNode do, exceptions included. *)
Lemma ImperativeBase_add_node this c s :
  ImperativeBase_add true false this c s
  = match add this c s with
    | (inl e, s') => (inl e, s')
    | (inr _, s') => (inr this, s')
    end.
Proof. reflexivity. Qed.

Lemma ImperativeBase_removeNode_node this c s :
  ImperativeBase_removeNode true this c s
  = match removeNode this c s with
    | (inl e, s') => (inl e, s')
    | (inr _, s') => (inr this, s')
    end.
Proof. reflexivity. Qed.

(** C6.  [removeNode] on a node whose parent pointer is not the receiver
    throws [ReferenceError] at once, and the store is the one before the
    call: every parent pointer, child array and connectivity flag, and the
    queue of deferred callbacks. *)
Theorem removeNode_not_a_child s this c :
  is_Some (nodes s !! this) → is_Some (nodes s !! c) →
  parent s c ≠ Some this →
  removeNode this c s = (inl ReferenceError, s).
Proof.
  intros [t Ht] [cn Hc] Hp. apply (removeNode_not_child s this c t cn); [done..|].
  by rewrite <-(parent_lookup s c cn).
Qed.

(** C7 (as the code has it).  A child whose parent is another node is
    taken out of that parent's child array (the siblings keep their order)
    and appended to the receiver's; its flag is set; no callback runs
    during the call, and the two deferred closures are queued in the order
    disconnect, connect.  A child whose parent is already the receiver is
    left where it is: the call changes nothing. *)
Theorem add_moves_child s this c q :
  wf s → is_Some (nodes s !! this) → parent s c = Some q →
  if decide (q = this) then add this c s = (inr this, s)
  else (add this c s).1 = inr this
     ∧ parent (add this c s).2 c = Some this
     ∧ isConnected (add this c s).2 c = true
     ∧ children (add this c s).2 this = children s this ++ [c]
     ∧ (∃ l1 l2, children s q = l1 ++ c :: l2
                 ∧ children (add this c s).2 q = l1 ++ l2
                 ∧ (c ∉ l1 ++ l2))
     ∧ delivered (add this c s).2 = delivered s
     ∧ tasks (add this c s).2
       = tasks s ++ [[disconnected c; childDisconnected q c];
                     [connected c; childConnected this c]].
Proof.
  intros Hwf Hthis Hp.
  assert (is_Some (nodes s !! c)) as Hc.
  { unfold parent in Hp. destruct (nodes s !! c); [eauto|done]. }
  destruct (decide (q = this)) as [->|Hq].
  - destruct Hthis as [t Ht], Hc as [cn Hc].
    apply (add_same_parent s this c t cn); [done..|].
    by rewrite <-(parent_lookup s c cn).
  - assert (parent s c ≠ Some this) as Hne by congruence.
    split_and!.
    + by apply add_returns.
    + rewrite add_parent by done. by rewrite decide_True.
    + by apply add_isConnected.
    + rewrite add_children by done.
      rewrite decide_False by done. by rewrite decide_True.
    + assert (c ∈ children s q) as Hin by by apply (wf_consistent s Hwf).
      destruct (splice1_indexOf _ c Hin) as (l1 & l2 & El & Hnin & Esp).
      exists l1, l2. split_and!; [done| |].
      * rewrite add_children by done. rewrite decide_False by done.
        rewrite decide_False by done. by rewrite decide_True.
      * pose proof (wf_nodup s Hwf q) as Hnd. rewrite El in Hnd.
        apply NoDup_app in Hnd as (_ & Hdisj & [Hnin2 _]%NoDup_cons).
        by intros [?|?]%elem_of_app.
    + by apply add_queue.
    + destruct (add_queue s this c Hwf Hthis Hc) as [_ ->].
      rewrite Hp. by rewrite decide_False.
Qed.

Lemma removeNode_effect s this c :
  wf s → parent s c = Some this →
  (removeNode this c s).1 = inr this
  ∧ parent (removeNode this c s).2 c = None
  ∧ (c ∉ children (removeNode this c s).2 this)
  ∧ isConnected (removeNode this c s).2 c = false
  ∧ delivered (removeNode this c s).2 = delivered s
  ∧ tasks (removeNode this c s).2
    = tasks s ++ [[disconnected c; childDisconnected this c]].
Proof.
  intros Hwf Hp.
  destruct (removeNode_child s this c Hwf Hp)
    as (t & cn & l & Ht & Hc & Hpc & Hl & Hrm).
  pose proof (removed_wf s this c t cn l Hwf Ht Hc Hpc Hl) as Hwf'.
  rewrite Hrm. simpl. split_and!; [done| | | |done|done].
  - unfold removed. rewrite parent_update. by rewrite decide_True.
  - intros Hin%(wf_consistent _ Hwf'). revert Hin.
    unfold removed. rewrite parent_update. by rewrite decide_True.
  - unfold removed. rewrite isConnected_update. by rewrite decide_True.
Qed.

(** C8.  When [add] (respectively [removeNode]) returns, the parent
    pointer, the child array and the connectivity flag show the new state,
    the trace of delivered callbacks is the one before the call, and the
    closure with the two callbacks is the last of the task queue; draining
    the queue delivers them last and changes neither nodes nor arrays. *)
Theorem callbacks_after_mutation s this c :
  wf s → is_Some (nodes s !! this) → is_Some (nodes s !! c) →
  (parent s c ≠ Some this →
     parent (add this c s).2 c = Some this
     ∧ last (children (add this c s).2 this) = Some c
     ∧ isConnected (add this c s).2 c = true
     ∧ delivered (add this c s).2 = delivered s
     ∧ last (tasks (add this c s).2) = Some [connected c; childConnected this c]
     ∧ nodes (drain (add this c s).2) = nodes (add this c s).2
     ∧ arrays (drain (add this c s).2) = arrays (add this c s).2
     ∧ ∃ earlier, delivered (drain (add this c s).2)
                  = earlier ++ [connected c; childConnected this c])
  ∧ (parent s c = Some this →
     parent (removeNode this c s).2 c = None
     ∧ (c ∉ children (removeNode this c s).2 this)
     ∧ isConnected (removeNode this c s).2 c = false
     ∧ delivered (removeNode this c s).2 = delivered s
     ∧ last (tasks (removeNode this c s).2)
       = Some [disconnected c; childDisconnected this c]
     ∧ nodes (drain (removeNode this c s).2) = nodes (removeNode this c s).2
     ∧ arrays (drain (removeNode this c s).2) = arrays (removeNode this c s).2
     ∧ ∃ earlier, delivered (drain (removeNode this c s).2)
                  = earlier ++ [disconnected c; childDisconnected this c]).
Proof.
  intros Hwf Hthis Hc. split; intros Hp.
  - destruct (add_queue s this c Hwf Hthis Hc) as [Hdl Htk].
    assert (∃ pre, tasks (add this c s).2 = pre ++ [[connected c; childConnected this c]])
      as [pre Hpre].
    { rewrite Htk. destruct (parent s c) as [q|].
      - destruct (decide (q = this)) as [->|]; [done|].
        exists (tasks s ++ [[disconnected c; childDisconnected q c]]).
        by rewrite <-app_assoc.
      - by exists (tasks s). }
    split_and!; [| | |done| |done|done|].
    + rewrite add_parent by done. by rewrite decide_True.
    + rewrite add_children by done. rewrite decide_False by done.
      rewrite decide_True by done. apply last_snoc.
    + by apply add_isConnected.
    + rewrite Hpre. apply last_snoc.
    + exists (delivered s ++ concat pre). unfold drain. simpl.
      rewrite Hdl, Hpre, concat_app. simpl. by rewrite app_assoc.
  - destruct (removeNode_effect s this c Hwf Hp) as (_ & ? & ? & ? & Hdl & Htk).
    split_and!; [done|done|done|done| |done|done|].
    + rewrite Htk. apply last_snoc.
    + exists (delivered s ++ concat (tasks s)). unfold drain. simpl.
      rewrite Hdl, Htk, concat_app. simpl. by rewrite app_assoc.
Qed.

Lemma subnodes_eq s this t l :
  nodes s !! this = Some t → arrays s !! __children t = Some l →
  subnodes this s = (inr (fresh (dom (arrays s))),
                     with_arrays <[fresh (dom (arrays s)) := l]> s).
Proof.
  intros Ht Hl. unfold subnodes, mbind, M_bind, bind, instance_of, array_get.
  by rewrite Ht, Hl.
Qed.

Lemma subnodes_inv s this r s1 :
  subnodes this s = (inr r, s1) →
  ∃ t l, nodes s !! this = Some t ∧ arrays s !! __children t = Some l
         ∧ r = fresh (dom (arrays s)) ∧ s1 = with_arrays <[r := l]> s.
Proof.
  unfold subnodes, mbind, M_bind, bind, instance_of, array_get.
  destruct (nodes s !! this) as [t|] eqn:Ht; [|done].
  destruct (arrays s !! __children t) as [l|] eqn:Hl; [|done].
  unfold array_alloc. intros [= <- <-]. by exists t, l.
Qed.

(** C10.  [subnodes] returns a new array holding the children; whatever
    is done to that array ([f] is any change of its contents: a push, a
    splice, a reordering), the node's children, its [childCount] and what
    a later [subnodes] returns are those of before. *)
Theorem subnodes_is_a_copy s this r s1 (f : list nat → list nat) :
  subnodes this s = (inr r, s1) →
  arrays s1 !! r = Some (children s this)
  ∧ nodes s1 = nodes s
  ∧ children (with_arrays (alter f r) s1) this = children s this
  ∧ (childCount this (with_arrays (alter f r) s1)).1
    = inr (length (children s this))
  ∧ ∃ r', (subnodes this (with_arrays (alter f r) s1)).1 = inr r'
          ∧ arrays (subnodes this (with_arrays (alter f r) s1)).2 !! r'
            = Some (children s this).
Proof.
  intros (t & l & Ht & Hl & -> & ->)%subnodes_inv.
  set (r := fresh (dom (arrays s))).
  assert (__children t ≠ r) as Hr.
  { intros Heq. rewrite Heq in Hl. unfold r in Hl. by rewrite fresh_lookup in Hl. }
  rewrite (children_lookup s this t l Ht Hl).
  set (s2 := with_arrays (alter f r) (with_arrays <[r := l]> s)).
  assert (nodes s2 !! this = Some t) as Ht2 by done.
  assert (arrays s2 !! __children t = Some l) as Hl2.
  { unfold s2. simpl. rewrite lookup_alter_ne by done.
    by rewrite lookup_insert_ne. }
  split_and!.
  - simpl. apply lookup_insert_eq.
  - done.
  - by apply (children_lookup s2 this t l).
  - unfold childCount, mbind, M_bind, bind, instance_of, array_get.
    by rewrite Ht2, Hl2.
  - rewrite (subnodes_eq s2 this t l Ht2 Hl2). eexists. split; [done|].
    simpl. apply lookup_insert_eq.
Qed.

(** *** The example stores *)

Lemma pair_store_wf : wf pair_store.
Proof. apply exec_all_wf, wf_empty. Qed.

Lemma chain_store_wf : wf chain_store.
Proof. apply exec_all_wf, wf_empty. Qed.

Lemma family_store_wf : wf family_store.
Proof. apply exec_all_wf, wf_empty. Qed.

Lemma chain_store_acyclic : acyclic chain_store.
Proof.
  apply exec_all_acyclic; [apply wf_empty|apply acyclic_empty|].
  simpl. split_and!; try done; intros H; refute_ancestor H.
Qed.

Lemma chain_store_ancestor : ancestor chain_store 0 2.
Proof. eapply anc_step; [|apply anc_parent]; by vm_compute. Qed.

Lemma add_accepts_ancestor_witness :
  wf chain_store ∧ acyclic chain_store ∧ is_Some (nodes chain_store !! 2)
  ∧ (0 = 2 ∨ ancestor chain_store 0 2)
  ∧ (add 2 0 chain_store).1 = inr 2
  ∧ parent (add 2 0 chain_store).2 0 = Some 2
  ∧ last (children (add 2 0 chain_store).2 2) = Some 0
  ∧ ancestor (add 2 0 chain_store).2 2 2.
Proof.
  assert (is_Some (nodes chain_store !! 2)) as Hn by (vm_compute; eauto).
  split_and!; [apply chain_store_wf|apply chain_store_acyclic|exact Hn
              |right; apply chain_store_ancestor|..];
    apply (add_accepts_ancestor chain_store 2 0 chain_store_wf chain_store_acyclic Hn
             (or_intror chain_store_ancestor)).
Defined.

(** C2, as stated, fails: with [0] the parent of [1], [add(1, 0)] returns
    normally and changes the store. *)
Lemma add_ancestor_not_rejected :
  ancestor pair_store 0 1
  ∧ (add 1 0 pair_store).1 = inr 1
  ∧ (add 1 0 pair_store).2 ≠ pair_store
  ∧ parent (add 1 0 pair_store).2 0 = Some 1.
Proof.
  split_and!; [by apply anc_parent|done| |done].
  intros Heq. apply (f_equal (λ s, parent s 0)) in Heq. by vm_compute in Heq.
Qed.

Lemma removeNode_not_a_child_witness :
  is_Some (nodes family_store !! 1) ∧ is_Some (nodes family_store !! 2)
  ∧ parent family_store 2 ≠ Some 1
  ∧ removeNode 1 2 family_store = (inl ReferenceError, family_store).
Proof.
  assert (is_Some (nodes family_store !! 1)) as H1 by (vm_compute; eauto).
  assert (is_Some (nodes family_store !! 2)) as H2 by (vm_compute; eauto).
  assert (parent family_store 2 ≠ Some 1) as Hp by (vm_compute; congruence).
  split_and!; [done..|].
  apply (removeNode_not_a_child family_store 1 2 H1 H2 Hp).
Defined.

Lemma add_moves_child_witness :
  wf chain_store ∧ is_Some (nodes chain_store !! 0) ∧ parent chain_store 2 = Some 1
  ∧ (add 0 2 chain_store).1 = inr 0
  ∧ children (add 0 2 chain_store).2 0 = children chain_store 0 ++ [2]
  ∧ tasks (add 0 2 chain_store).2
    = tasks chain_store ++ [[disconnected 2; childDisconnected 1 2];
                            [connected 2; childConnected 0 2]].
Proof.
  assert (is_Some (nodes chain_store !! 0)) as Hn by (vm_compute; eauto).
  assert (parent chain_store 2 = Some 1) as Hp by reflexivity.
  pose proof (add_moves_child chain_store 0 2 1 chain_store_wf Hn Hp) as Hmv.
  rewrite decide_False in Hmv by done.
  destruct Hmv as (Hret & _ & _ & Hch & _ & _ & Htk).
  split_and!; [apply chain_store_wf|done..].
Defined.

(** C7, as stated, fails for a child of the receiver itself: [1] is the
    first child of [0], and [add(0, 1)] neither detaches it nor moves it
    to the end. *)
Lemma add_same_parent_keeps_position :
  parent family_store 1 = Some 0
  ∧ add 0 1 family_store = (inr 0, family_store)
  ∧ children (add 0 1 family_store).2 0 = [1; 2]
  ∧ last (children (add 0 1 family_store).2 0) ≠ Some 1.
Proof. by split_and!. Qed.

Lemma callbacks_after_mutation_witness :
  wf family_store ∧ is_Some (nodes family_store !! 1)
  ∧ is_Some (nodes family_store !! 2)
  ∧ parent family_store 2 ≠ Some 1
  ∧ delivered (add 1 2 family_store).2 = delivered family_store
  ∧ last (tasks (add 1 2 family_store).2) = Some [connected 2; childConnected 1 2].
Proof.
  assert (is_Some (nodes family_store !! 1)) as H1 by (vm_compute; eauto).
  assert (is_Some (nodes family_store !! 2)) as H2 by (vm_compute; eauto).
  assert (parent family_store 2 ≠ Some 1) as Hp by (vm_compute; congruence).
  destruct (callbacks_after_mutation family_store 1 2 family_store_wf H1 H2)
    as [Hadd _].
  destruct (Hadd Hp) as (_ & _ & _ & Hdl & Htk & _).
  split_and!; [apply family_store_wf|done..].
Defined.

Lemma subnodes_is_a_copy_witness :
  subnodes 0 family_store = (inr 3, with_arrays <[3 := [1; 2]]> family_store)
  ∧ children (with_arrays (alter (λ l, l ++ [7]) 3)
                (with_arrays <[3 := [1; 2]]> family_store)) 0
    = children family_store 0.
Proof.
  assert (subnodes 0 family_store
          = (inr 3, with_arrays <[3 := [1; 2]]> family_store)) as Hsub
    by (by vm_compute).
  split; [exact Hsub|].
  apply (subnodes_is_a_copy family_store 0 3 _ (λ l, l ++ [7]) Hsub).
Defined.

End TreeFacts.

(** * Facts about the glTF behaviour *)
Module GltfFacts.
Import Gltf.

Lemma exec_version st b :
  version (exec st b) = if increments st then S (version b) else version b.
Proof.
  destruct st as [v|v|v| |[]|[]|captured c]; simpl; try done.
  - unfold reload, loadObj. simpl. destruct (src b); [|done]. by case_match.
  - unfold reload, loadObj. simpl. destruct (src b); [|done]. by case_match.
  - unfold complete. case_decide; [|done]. by destruct c.
Qed.

Lemma run_version_le steps b : version b ≤ version (run steps b).
Proof.
  revert b. induction steps as [|st steps IH]; intros b; simpl; [done|].
  etrans; [|apply IH]. rewrite exec_version. case_match; lia.
Qed.

Lemma run_version_lt steps b :
  existsb increments steps = true → version b < version (run steps b).
Proof.
  revert b. induction steps as [|st steps IH]; intros b; simpl; [done|].
  pose proof (run_version_le steps (exec st b)) as Hle.
  pose proof (exec_version st b) as Hst.
  destruct (increments st); simpl; [lia|].
  intros Hex%(IH (exec st b)). lia.
Qed.

Lemma exec_tokens_bounded st b : tokens_bounded b → tokens_bounded (exec st b).
Proof.
  intros Hb.
  assert (∀ b, tokens_bounded b → tokens_bounded (reload b)) as Hreload.
  { clear. intros b Hb r. unfold reload, loadObj. simpl.
    destruct (src b) as [s|]; [destruct (falsy (Some s))|]; simpl.
    - intros Hr%Hb. lia.
    - intros [Hr%Hb| ->%list_elem_of_singleton]%elem_of_app; simpl; lia.
    - intros Hr%Hb. lia. }
  destruct st as [v|v|v| |[]|[]|captured c]; simpl; try done.
  - by apply Hreload.
  - by apply (Hreload (mkBehavior _ _ _ _ _ _ _ _ _ _ _ _)).
  - intros r Hr%Hb. simpl. lia.
  - unfold complete. case_decide; [|done]. by destruct c.
Qed.

Lemma run_tokens_bounded steps b : tokens_bounded b → tokens_bounded (run steps b).
Proof.
  revert b. induction steps as [|st steps IH]; intros b Hb; [done|].
  by apply IH, exec_tokens_bounded.
Qed.

(** C5.  A load that was started ([r] is among the requests handed to the
    loader) and whose version token has since been incremented, by a
    re-run of the loading autorun or by [loadGL] / [unloadGL], completes
    without effect: the behaviour is the same value afterwards, so no model
    is set and no event emitted.  In general a callback whose captured
    token differs from [#version] changes nothing, and one whose token is
    the current one does what [#setModel], the progress [emit] or
    [#onError] do. *)
Theorem stale_completion_discarded steps0 steps r c :
  r ∈ requests (run steps0 initial) →
  existsb increments steps = true →
  complete (token r) c (run steps (run steps0 initial)) = run steps (run steps0 initial)
  ∧ (∀ b captured, captured ≠ version b → complete captured c b = b)
  ∧ (∀ b, complete (version b) c b = deliver c b)
  ∧ (∀ b m, model (complete (version b) (Loaded m) b) = Some m
            ∧ emitted (complete (version b) (Loaded m) b) = emitted b ++ [MODEL_LOAD m]).
Proof.
  intros Hr Hinc.
  assert (∀ b captured, captured ≠ version b → complete captured c b = b) as Hstale.
  { intros b captured Hne. unfold complete. by rewrite decide_False. }
  assert (∀ c b, complete (version b) c b = deliver c b) as Hfresh.
  { intros c' b. unfold complete. by rewrite decide_True. }
  split_and!; [|done|done|].
  - apply Hstale.
    assert (tokens_bounded (run steps0 initial)) as Hb.
    { apply run_tokens_bounded. by intros r' ?%elem_of_nil. }
    pose proof (Hb r Hr).
    pose proof (run_version_lt steps (run steps0 initial) Hinc). lia.
  - intros b m. by rewrite Hfresh.
Qed.
Lemma stale_completion_discarded_witness :
  mkRequest 1 "a.gltf" ∈ requests (run [SetSrc (Some "a.gltf"); LoadGL true] initial)
  ∧ existsb increments [SetSrc (Some "b.gltf"); Rerun] = true
  ∧ complete 1 (Loaded (mkGLTF 7 (Some 8) []))
      (run [SetSrc (Some "b.gltf"); Rerun]
         (run [SetSrc (Some "a.gltf"); LoadGL true] initial))
    = run [SetSrc (Some "b.gltf"); Rerun]
        (run [SetSrc (Some "a.gltf"); LoadGL true] initial).
Proof.
  assert (mkRequest 1 "a.gltf"
          ∈ requests (run [SetSrc (Some "a.gltf"); LoadGL true] initial)) as Hr
    by (vm_compute; apply list_elem_of_here).
  assert (existsb increments [SetSrc (Some "b.gltf"); Rerun] = true) as Hinc
    by reflexivity.
  split_and!; [done..|].
  apply (proj1 (stale_completion_discarded
                  [SetSrc (Some "a.gltf"); LoadGL true]
                  [SetSrc (Some "b.gltf"); Rerun]
                  (mkRequest 1 "a.gltf") (Loaded (mkGLTF 7 (Some 8) [])) Hr Hinc)).
Defined.

(** The load that replaced it is not stale: its completion sets the
    model. *)
Example restarted_load_completes :
  model (complete 2 (Loaded (mkGLTF 7 (Some 8) []))
           (run [SetSrc (Some "a.gltf"); LoadGL true; SetSrc (Some "b.gltf"); Rerun]
              initial))
  = Some (mkGLTF 7 (Some 8) []).
Proof. reflexivity. Qed.
End GltfFacts.

(** * Facts about [_calculateMatrix] *)
Module TransformFacts.
Import Values Transform.
#[local] Open Scope float_scope.

Lemma SFmul_comm prec emax a b :
  SpecFloat.SFmul prec emax a b = SpecFloat.SFmul prec emax b a.
Proof.
  destruct a as [sa|sa| |sa ma ea], b as [sb|sb| |sb mb eb]; simpl;
    rewrite ?(xorb_comm sa sb); try reflexivity.
  by rewrite (Pos.mul_comm ma mb), (Z.add_comm ea eb).
Qed.

(** IEEE multiplication is commutative. *)
Lemma float_mul_comm (a b : float) : a * b = b * a.
Proof. apply Prim2SF_inj. rewrite !mul_spec. apply SFmul_comm. Qed.

(** C4.  Whatever the scratch arrays held before, after
    [_calculateMatrix] the applied position is, on each axis,
    [position + align × parentSize − mountPoint × size]. *)
Theorem applied_position_formula (n : inputs) (g : scratch) :
  let applied := appliedPosition (_calculateMatrix n g).1 in
  at0 applied
  = x (position n) + x (alignPoint n) * x (parentSize n)
    - x (mountPoint n) * x (calculatedSize n)
  ∧ at1 applied
  = y (position n) + y (alignPoint n) * y (parentSize n)
    - y (mountPoint n) * y (calculatedSize n)
  ∧ at2 applied
  = z (position n) + z (alignPoint n) * z (parentSize n)
    - z (mountPoint n) * z (calculatedSize n).
Proof.
  simpl. split_and!.
  - by rewrite (float_mul_comm (x (alignPoint n))), (float_mul_comm (x (mountPoint n))).
  - by rewrite (float_mul_comm (y (alignPoint n))), (float_mul_comm (y (mountPoint n))).
  - by rewrite (float_mul_comm (z (alignPoint n))), (float_mul_comm (z (mountPoint n))).
Qed.

(** The position handed to the WebGL object is the applied position moved
    by half the own size minus half the parent's size, with Y negated. *)
Lemma three_position_formula (n : inputs) (g : scratch) :
  let r := _calculateMatrix n g in
  let post := threeJsPostAdjustment r.1 in
  let applied := appliedPosition r.1 in
  at0 post = x (calculatedSize n) / 2 + (- x (parentSize n)) / 2
  ∧ three_position r.2
    = mkXYZ (at0 applied + at0 post) (- (at1 applied + at1 post))
            (at2 applied + at2 post).
Proof. done. Qed.

(** An element of size [100 × 50] at position [(10, 0, 0)], aligned and
    mounted at its centre in a parent of size [800 × 600]. *)
Example centred_element :
  let r := _calculateMatrix
             (mkInputs (mkXYZ 0.5 0.5 0) (mkXYZ 0.5 0.5 0) (mkXYZ 10 0 0)
                (mkXYZ 0.5 0.5 0.5) (mkXYZ 100 50 0) (mkXYZ 800 600 0) true)
             scratch0 in
  appliedPosition r.1 = mkArray3 360 275 0
  ∧ three_position r.2 = mkXYZ 10 (-0) 0
  ∧ three_pivot r.2 = mkXYZ 0 0 0.
Proof. vm_compute. done. Qed.
End TransformFacts.

(** * Facts about the parent-size autorun *)
Module SizeFacts.
Import Values Size.
#[local] Open Scope float_scope.

(** Induction on an element and, for each, on all elements under it. *)
Lemma tree_ind' (P : tree → Prop) :
  (∀ n ts, Forall P ts → P (Tree n ts)) → ∀ t, P t.
Proof.
  intros Hstep. fix IH 1. intros [n ts]. apply Hstep.
  induction ts as [|t ts IHts]; constructor; [apply IH|apply IHts].
Qed.

Lemma _calcSize_resolved parentSize n : resolved parentSize (_calcSize parentSize n).
Proof. intros [] Ha; simpl in *; by rewrite Ha. Qed.

Lemma independent_resolved parentSize n :
  depends_on_parent n = false → resolved parentSize n.
Proof.
  unfold depends_on_parent. intros Hd a Ha. exfalso.
  destruct a; simpl in Ha; rewrite Ha in Hd; simpl in Hd;
    rewrite ?orb_true_r in Hd; done.
Qed.

Lemma settled_settled_below parentSize t : settled parentSize t → settled_below t.
Proof. by destruct 1. Qed.

Lemma rerun_settled t :
  ∀ parentSize, settled_below t → settled parentSize (rerun parentSize t).
Proof.
  induction t as [n ts IH] using tree_ind'. intros parentSize Hbelow.
  unfold settled_below in Hbelow. simpl in *.
  destruct (depends_on_parent n) eqn:Hd.
  - constructor; [apply _calcSize_resolved|]. simpl.
    apply Forall_fmap, Forall_forall. intros t Ht. simpl.
    rewrite Forall_forall in IH. apply IH; [done|].
    rewrite Forall_forall in Hbelow. by eapply settled_settled_below, Hbelow.
  - constructor; [by apply independent_resolved|done].
Qed.

(** C3.  When the resolved size of the parent becomes [parentSize] and
    the autoruns reading it have run, every element of the subtree [t]
    with a proportional axis has, on that axis, the resolved size of its
    parent times its stored size: the change reaches every dependent
    descendant.  The same after the host element of the root was
    resized. *)
Theorem proportional_size_propagates parentSize t :
  settled_below t →
  settled parentSize (rerun parentSize t)
  ∧ settled parentSize (onElementParentSizeChange parentSize t).
Proof.
  intros Hbelow. split; [by apply rerun_settled|].
  destruct t as [n ts]. unfold settled_below in Hbelow. simpl in *.
  constructor; [apply _calcSize_resolved|]. simpl.
  apply Forall_fmap, Forall_forall. intros t Ht. simpl.
  apply rerun_settled. rewrite Forall_forall in Hbelow.
  by eapply settled_settled_below, Hbelow.
Qed.

Example scenario_sizes :
  onElementParentSizeChange (mkXYZ 800 600 0) scenario
  = Tree (mkNode (mkXYZ proportional proportional literal) (mkXYZ 1 1 0)
            (mkXYZ 0 0 0) (mkXYZ 800 600 0) true)
      [Tree (mkNode (mkXYZ proportional proportional literal) (mkXYZ 0.5 0.5 0)
               (mkXYZ 0 0 0) (mkXYZ 400 300 0) true)
         [Tree (mkNode (mkXYZ literal literal literal) (mkXYZ 100 50 0)
                  (mkXYZ 0 0 0) (mkXYZ 100 50 0) false) []]].
Proof. vm_compute. reflexivity. Qed.

Lemma scenario_settled_below : settled_below scenario.
Proof.
  repeat constructor; intros []; simpl; try done; intros _; by vm_compute.
Qed.

Lemma proportional_size_propagates_witness :
  settled_below scenario
  ∧ settled (mkXYZ 800 600 0) (onElementParentSizeChange (mkXYZ 800 600 0) scenario).
Proof.
  split; [apply scenario_settled_below|].
  apply (proportional_size_propagates (mkXYZ 800 600 0) scenario),
    scenario_settled_below.
Defined.
End SizeFacts.

(** * Facts about the Three.js objects *)
Module BackendFacts.
Import Values Backend.

Lemma bind_Some {A B} (m : M A) (f : A → M B) s r :
  (m ≫= f) s = Some r ↔ ∃ a s1, m s = Some (a, s1) ∧ f a s1 = Some r.
Proof.
  unfold mbind, M_bind. destruct (m s) as [[a s1]|]; split.
  - intros Hf. by exists a, s1.
  - by intros (? & ? & [= <- <-] & Hf).
  - done.
  - by intros (? & ? & ? & _).
Qed.

Lemma read_Some o s e s1 :
  read o s = Some (e, s1) ↔ elements s !! o = Some e ∧ s1 = s.
Proof.
  unfold read. destruct (elements s !! o); split; try done.
  - by intros [= <- <-].
  - by intros [[= <-] ->].
  - by intros [? _].
Qed.

Lemma same_elements_refl s : same_elements s s.
Proof. done. Qed.

Lemma same_elements_trans s1 s2 s3 :
  same_elements s1 s2 → same_elements s2 s3 → same_elements s1 s3.
Proof. intros H12 H23 m. by rewrite H23, H12. Qed.

Lemma same_elements_write s o v :
  same_elements s (mkState (alter (set__scene v) o (elements s)) (objects s) (to_render s)).
Proof.
  intros m. simpl. rewrite lookup_alter. case_decide; [|done]. subst.
  by destruct (elements s !! m).
Qed.

Lemma same_elements_flag (flag : Element → bool) s s' o e' :
  (∀ v e, flag (set__scene v e) = flag e) →
  same_elements s s' → elements s' !! o = Some e' →
  flag <$> elements s !! o = Some (flag e').
Proof.
  intros Hflag Hsame He'. specialize (Hsame o). rewrite He' in Hsame.
  destruct (elements s !! o) as [e|]; [|done].
  cbn [fmap option_fmap option_map] in *.
  apply (inj Some) in Hsame. f_equal.
  by rewrite <-(Hflag None e), <-Hsame, Hflag.
Qed.

(** The [scene] getter writes nothing but [_scene] caches. *)
Lemma scene_frame depth this s r s' :
  scene depth this s = Some (r, s') →
  objects s' = objects s ∧ to_render s' = to_render s ∧ same_elements s s'.
Proof.
  revert this s r s'. induction depth as [|depth IH]; intros this s r s'; [done|].
  simpl. intros (e & s1 & [He ->]%read_Some & Hrest)%bind_Some.
  destruct (_scene e) as [sc|]; [by injection Hrest as <- <-|].
  destruct (parent e) as [p|]; [|by injection Hrest as <- <-].
  apply bind_Some in Hrest as (pe & s1 & [Hpe ->]%read_Some & Hrest).
  apply bind_Some in Hrest as (r1 & s1 & Hr1 & Hrest).
  assert (objects s1 = objects s ∧ to_render s1 = to_render s ∧ same_elements s s1)
    as (Ho & Ht & Hs).
  { destruct (_scene pe); [by injection Hr1 as <- <-|].
    destruct (isScene pe); [by injection Hr1 as <- <-|]. by eapply IH. }
  apply bind_Some in Hrest as ([] & s2 & Hw & Hrest).
  injection Hw as <-. injection Hrest as <- <-. simpl. split_and!; [done..|].
  eapply same_elements_trans; [exact Hs|apply same_elements_write].
Qed.

(** After [scene] has found a scene it is cached in [_scene], and a second
    read returns it without writing. *)
Lemma scene_again depth this s sc s1 :
  scene depth this s = Some (Some sc, s1) →
  scene depth this s1 = Some (Some sc, s1).
Proof.
  destruct depth as [|depth]; [done|]. simpl.
  intros (e & s0 & [He ->]%read_Some & Hrest)%bind_Some.
  assert (∃ e1, elements s1 !! this = Some e1 ∧ _scene e1 = Some sc) as (e1 & He1 & Hsc).
  { destruct (_scene e) as [sc0|] eqn:Hsc0.
    - injection Hrest as -> <-. eauto.
    - destruct (parent e) as [p|]; [|done].
      apply bind_Some in Hrest as (pe & s0 & [_ ->]%read_Some & Hrest).
      apply bind_Some in Hrest as (r1 & s2 & Hr1 & Hrest).
      apply bind_Some in Hrest as ([] & s3 & Hw & Hrest).
      injection Hw as <-. injection Hrest as -> <-. simpl.
      assert (is_Some (elements s2 !! this)) as [e2 He2].
      { assert (same_elements s s2) as Hsame.
        { destruct (_scene pe);
            [injection Hr1 as <- <-; apply same_elements_refl|].
          destruct (isScene pe);
            [injection Hr1 as <- <-; apply same_elements_refl|].
          by apply scene_frame in Hr1 as (_ & _ & ?). }
        specialize (Hsame this). rewrite He in Hsame.
        destruct (elements s2 !! this); [eauto|done]. }
      exists (set__scene (Some sc) e2). split; [|done].
      by rewrite lookup_alter_eq, He2. }
  unfold mbind, M_bind, read. by rewrite He1, Hsc.
Qed.

Lemma scene_flag_frame flag depth this s b s' :
  scene_flag flag depth this s = Some (b, s') →
  objects s' = objects s ∧ to_render s' = to_render s ∧ same_elements s s'.
Proof.
  unfold scene_flag. intros (sc & s1 & Hsc & Hrest)%bind_Some.
  destruct sc as [sc|]; [|apply scene_frame in Hsc; by injection Hrest as <- <-].
  rewrite (bind_Some _ _ s1), (scene_again depth this s sc s1 Hsc) in Hrest.
  destruct Hrest as (sc' & s2 & [= <- <-] & Hrest).
  apply bind_Some in Hrest as (se & s2 & [_ ->]%read_Some & [= <- <-]).
  by apply scene_frame in Hsc.
Qed.

(** The flag is read from the element that [scene] returns. *)
Lemma scene_flag_true flag depth this s s' :
  (∀ v e, flag (set__scene v e) = flag e) →
  scene_flag flag depth this s = Some (true, s') →
  ∃ sc, fst <$> scene depth this s = Some (Some sc)
        ∧ flag <$> elements s !! sc = Some true.
Proof.
  intros Hflag. unfold scene_flag.
  intros (sc & s1 & Hsc & Hrest)%bind_Some.
  destruct sc as [sc|]; [|by injection Hrest].
  rewrite (bind_Some _ _ s1), (scene_again depth this s sc s1 Hsc) in Hrest.
  destruct Hrest as (sc' & s2 & [= <- <-] & Hrest).
  apply bind_Some in Hrest as (se & s2 & [Hse ->]%read_Some & [= Hf <-]).
  exists sc. split; [by rewrite Hsc|].
  apply scene_frame in Hsc as (_ & _ & Hsame).
  rewrite <-Hf. by eapply same_elements_flag.
Qed.

Lemma three_cached this s e o :
  elements s !! this = Some e → __three e = Some o → three this s = Some (o, s).
Proof.
  intros He Ho. unfold three, mbind, M_bind, read. by rewrite He, Ho.
Qed.

Lemma three_created this s e :
  elements s !! this = Some e → __three e = None →
  three this s
  = Some (fresh (dom (objects s)),
          mkState (<[this := set__three (Some (fresh (dom (objects s)))) e]> (elements s))
            (<[fresh (dom (objects s))
               := mkObject3D WebGL this true (mkXYZ 1 1 1)%float None []]> (objects s))
            (to_render s)).
Proof.
  intros He Ho. unfold three, mbind, M_bind, read. rewrite He, Ho. simpl.
  by rewrite (TreeFacts.alter_Some _ _ _ _ He).
Qed.

Lemma threeCSS_cached this s e o :
  elements s !! this = Some e → __threeCSS e = Some o → threeCSS this s = Some (o, s).
Proof.
  intros He Ho. unfold threeCSS, mbind, M_bind, read. by rewrite He, Ho.
Qed.

Lemma threeCSS_created this s e :
  elements s !! this = Some e → __threeCSS e = None →
  threeCSS this s
  = Some (fresh (dom (objects s)),
          mkState (<[this := set__threeCSS (Some (fresh (dom (objects s)))) e]> (elements s))
            (<[fresh (dom (objects s))
               := mkObject3D CSS this true (mkXYZ 1 1 1)%float None []]> (objects s))
            (to_render s)).
Proof.
  intros He Ho. unfold threeCSS, mbind, M_bind, read. rewrite He, Ho. simpl.
  by rewrite (TreeFacts.alter_Some _ _ _ _ He).
Qed.

(** [_loadGL] answers [true] only behind its guard, and [false] without
    having made an object. *)
Lemma _loadGL_gate depth this s b s' :
  _loadGL depth this s = Some (b, s') →
  if b then ∃ sc, fst <$> scene depth this s = Some (Some sc)
                  ∧ webgl <$> elements s !! sc = Some true
  else objects s' = objects s.
Proof.
  unfold _loadGL. intros (active & s1 & Hflag & Hrest)%bind_Some.
  destruct active; simpl in Hrest.
  - apply bind_Some in Hrest as (e & s2 & [He ->]%read_Some & Hrest).
    destruct (_glLoaded e).
    + injection Hrest as <- <-. by apply scene_flag_frame in Hflag as (? & _).
    + assert (b = true) as ->.
      { repeat (apply bind_Some in Hrest as (? & ? & _ & Hrest)).
        by injection Hrest. }
      by eapply scene_flag_true.
  - injection Hrest as <- <-. by apply scene_flag_frame in Hflag as (? & _).
Qed.

Lemma _loadCSS_gate depth this s b s' :
  _loadCSS depth this s = Some (b, s') →
  if b then ∃ sc, fst <$> scene depth this s = Some (Some sc)
                  ∧ enableCss <$> elements s !! sc = Some true
  else objects s' = objects s.
Proof.
  unfold _loadCSS. intros (active & s1 & Hflag & Hrest)%bind_Some.
  destruct active; simpl in Hrest.
  - apply bind_Some in Hrest as (e & s2 & [He ->]%read_Some & Hrest).
    destruct (_cssLoaded e).
    + injection Hrest as <- <-. by apply scene_flag_frame in Hflag as (? & _).
    + assert (b = true) as ->.
      { repeat (apply bind_Some in Hrest as (? & ? & _ & Hrest)).
        by injection Hrest. }
      by eapply scene_flag_true.
  - injection Hrest as <- <-. by apply scene_flag_frame in Hflag as (? & _).
Qed.

(** C9 (as the code has it).  The getters [three] and [threeCSS] create
    the object at the first access, whatever the flags of the scene, and
    return that same object afterwards without writing anything.  What the
    flags of the owning scene decide is loading: [_loadGL] (respectively
    [_loadCSS]) answers [true] only when [scene] is found with [webgl]
    (respectively [enableCss]) set, and when it answers [false] it has
    created no object. *)
Theorem backend_objects_lazy depth this s e :
  elements s !! this = Some e →
  (∃ o s', three this s = Some (o, s')
           ∧ (elements s' !! this ≫= __three) = Some o
           ∧ three this s' = Some (o, s')
           ∧ match __three e with
             | Some o' => o = o' ∧ s' = s
             | None => (o ∉ dom (objects s))
                       ∧ (kind <$> objects s' !! o) = Some WebGL
             end)
  ∧ (∃ o s', threeCSS this s = Some (o, s')
             ∧ (elements s' !! this ≫= __threeCSS) = Some o
             ∧ threeCSS this s' = Some (o, s')
             ∧ match __threeCSS e with
               | Some o' => o = o' ∧ s' = s
               | None => (o ∉ dom (objects s))
                         ∧ (kind <$> objects s' !! o) = Some CSS
               end)
  ∧ (∀ b s', _loadGL depth this s = Some (b, s') →
       if b then ∃ sc, fst <$> scene depth this s = Some (Some sc)
                       ∧ webgl <$> elements s !! sc = Some true
       else objects s' = objects s)
  ∧ (∀ b s', _loadCSS depth this s = Some (b, s') →
       if b then ∃ sc, fst <$> scene depth this s = Some (Some sc)
                       ∧ enableCss <$> elements s !! sc = Some true
       else objects s' = objects s).
Proof.
  intros He. split_and!.
  - destruct (__three e) as [o|] eqn:Ho.
    + exists o, s. rewrite (three_cached this s e o He Ho).
      split_and!; [done| |done..]. by rewrite He.
    + rewrite (three_created this s e He Ho). eexists _, _.
      split_and!; [done|..].
      * simpl. by rewrite lookup_insert_eq.
      * eapply three_cached; [apply lookup_insert_eq|done].
      * apply is_fresh.
      * simpl. by rewrite lookup_insert_eq.
  - destruct (__threeCSS e) as [o|] eqn:Ho.
    + exists o, s. rewrite (threeCSS_cached this s e o He Ho).
      split_and!; [done| |done..]. by rewrite He.
    + rewrite (threeCSS_created this s e He Ho). eexists _, _.
      split_and!; [done|..].
      * simpl. by rewrite lookup_insert_eq.
      * eapply threeCSS_cached; [apply lookup_insert_eq|done].
      * apply is_fresh.
      * simpl. by rewrite lookup_insert_eq.
  - intros b s'. apply _loadGL_gate.
  - intros b s'. apply _loadCSS_gate.
Qed.

Lemma backend_objects_lazy_witness :
  elements gl_scene !! 1 = Some (plain (Some 0) false false false None)
  ∧ (∃ s', _loadGL 2 1 gl_scene = Some (true, s'))
  ∧ ∃ sc, fst <$> scene 2 1 gl_scene = Some (Some sc)
          ∧ webgl <$> elements gl_scene !! sc = Some true.
Proof.
  assert (elements gl_scene !! 1 = Some (plain (Some 0) false false false None))
    as He by reflexivity.
  destruct (_loadGL 2 1 gl_scene) as [[b s']|] eqn:Hload; [|by vm_compute in Hload].
  assert (b = true) as -> by (vm_compute in Hload; congruence).
  split_and!; [done|by exists s'|].
  destruct (backend_objects_lazy 2 1 gl_scene _ He) as (_ & _ & Hgl & _).
  apply (Hgl true s' Hload).
Defined.

(** C9, as stated, fails: in a scene with both backends switched off,
    [_updateScale] (run when the element connects) creates the WebGL
    object and the CSS object of the element. *)
Lemma objects_created_with_backends_off :
  fst <$> scene_flag webgl 2 1 dark_scene = Some false
  ∧ fst <$> scene_flag enableCss 2 1 dark_scene = Some false
  ∧ ∃ s', _updateScale 1 dark_scene = Some (tt, s')
          ∧ (elements s' !! 1 ≫= __three) = Some 0
          ∧ (elements s' !! 1 ≫= __threeCSS) = Some 1
          ∧ kind <$> objects s' !! 0 = Some WebGL
          ∧ kind <$> objects s' !! 1 = Some CSS.
Proof.
  split_and!; [done..|].
  destruct (_updateScale 1 dark_scene) as [[[] s']|] eqn:Hrun; [|by vm_compute in Hrun].
  exists s'. split; [done|].
  vm_compute in Hrun. injection Hrun as <-. by vm_compute.
Qed.
End BackendFacts.

(** * Facts about the other methods of TreeNode.ts *)
Module TreeOpsFacts.
Import Tree TreeOps TreeFacts.

Lemma filter_all {A} (P : A → Prop) `{∀ x, Decision (P x)} (l : list A) :
  (∀ x, x ∈ l → P x) → filter P l = l.
Proof.
  induction l as [|y l IH]; intros Hall; [done|].
  rewrite filter_cons_True by (apply Hall; left).
  f_equal. apply IH. intros x Hx. apply Hall. by right.
Qed.

Lemma filter_remove_unique (c : nat) (l1 l2 : list nat) :
  c ∉ l1 → c ∉ l2 → filter (λ y, y ≠ c) (l1 ++ c :: l2) = l1 ++ l2.
Proof.
  intros H1 H2. rewrite filter_app, filter_cons_False by (intros ?; done).
  rewrite !filter_all; [done|..]; intros x Hx ->; done.
Qed.

Lemma same_frame_refl s : same_frame s s.
Proof. split; eauto. Qed.

Lemma same_frame_trans s1 s2 s3 :
  same_frame s1 s2 → same_frame s2 s3 → same_frame s1 s3.
Proof.
  intros [N1 R1 A1 U1 D1] [N2 R2 A2 U2 D2]. split.
  - intros x. by rewrite N2, N1.
  - intros x t3 (t2 & (t1 & ? & Heq1)%R1 & Heq2)%R2. exists t1. split; congruence.
  - intros a Ha. rewrite A2 by by apply U1. by apply A1.
  - intros a Ha. by apply U2, U1.
  - by rewrite D2, D1.
Qed.

(** Replacing the fields of [c] other than [__children], and the array
    that [q] holds. *)
Lemma same_frame_update s c cn cn' q tq l' tk :
  nodes s !! c = Some cn → __children cn' = __children cn →
  nodes s !! q = Some tq →
  same_frame s (mkState (<[c := cn']> (nodes s))
                        (<[__children tq := l']> (arrays s)) tk (delivered s)).
Proof.
  intros Hc Hch Hq. split; simpl; [| | | |done].
  - intros x. destruct (decide (x = c)) as [->|Hne].
    + rewrite lookup_insert_eq, Hc. split; eauto.
    + by rewrite lookup_insert_ne.
  - intros x t'. destruct (decide (x = c)) as [->|Hne].
    + rewrite lookup_insert_eq. intros [= <-]. eauto.
    + rewrite lookup_insert_ne by done. eauto.
  - intros a Ha. rewrite lookup_insert_ne; [done|]. by apply (Ha q tq).
  - intros a Ha n t. simpl. destruct (decide (n = c)) as [->|Hne].
    + rewrite lookup_insert_eq. intros [= <-]. rewrite Hch. by apply (Ha c cn).
    + rewrite lookup_insert_ne by done. apply Ha.
Qed.

Lemma removed_frame s q c tq cn l :
  nodes s !! q = Some tq → nodes s !! c = Some cn →
  same_frame s (removed q c tq cn l s).
Proof. intros Hq Hc. by apply (same_frame_update s c cn _ q tq). Qed.

Lemma added_frame s this c t cn :
  wf s → nodes s !! this = Some t → nodes s !! c = Some cn →
  same_frame s (added this c t cn s).
Proof.
  intros Hwf Ht Hc. destruct (wf_array s Hwf this t Ht) as [l Hl].
  unfold added. rewrite (alter_Some _ _ _ _ Hl).
  by apply (same_frame_update s c cn _ this t).
Qed.

Lemma removeNode_frame s this c : wf s → same_frame s (removeNode this c s).2.
Proof.
  intros Hwf. destruct (decide (parent s c = Some this)) as [Hp|Hp].
  - destruct (removeNode_child s this c Hwf Hp) as (t & cn & l & ? & ? & ? & ? & ->).
    by apply removed_frame.
  - destruct (removeNode_rejects s this c Hp) as [e ->]. apply same_frame_refl.
Qed.

Lemma add_frame s this c : wf s → same_frame s (add this c s).2.
Proof.
  intros Hwf.
  destruct (add_cases s this c Hwf)
    as [?|? ? ? ? ?|t cn Ht Hc Hp|t cn q tq l t' Ht Hc Hp Hq Htq Hl Ht']; simpl.
  - apply same_frame_refl.
  - apply same_frame_refl.
  - by apply added_frame.
  - eapply same_frame_trans; [by apply (removed_frame s q c tq cn l)|].
    apply added_frame;
      [by apply removed_wf|done|apply lookup_insert_eq].
Qed.

(** [removeNode] of a child, in terms of what can be observed. *)
Lemma removeNode_observed s this c :
  wf s → parent s c = Some this →
  (removeNode this c s).1 = inr this
  ∧ (∀ x, parent (removeNode this c s).2 x
          = if decide (x = c) then None else parent s x)
  ∧ (∀ b, children (removeNode this c s).2 b
          = if decide (b = this) then filter (λ y, y ≠ c) (children s this)
            else children s b)
  ∧ (∀ x, isConnected (removeNode this c s).2 x
          = if decide (x = c) then false else isConnected s x)
  ∧ tasks (removeNode this c s).2
    = tasks s ++ [[disconnected c; childDisconnected this c]].
Proof.
  intros Hwf Hp.
  destruct (removeNode_child s this c Hwf Hp)
    as (t & cn & l & Ht & Hc & Hpc & Hl & ->).
  simpl. unfold removed. split_and!; [done| | | |done].
  - intros x. by rewrite parent_update.
  - intros b. erewrite children_update; [|by apply wf_own|done..].
    destruct (decide (b = this)) as [->|]; [|done].
    rewrite (children_lookup s this t l Ht Hl).
    assert (c ∈ l) as Hin.
    { rewrite <-(children_lookup s this t l Ht Hl). by apply (wf_consistent s Hwf). }
    destruct (splice1_indexOf l c Hin) as (l1 & l2 & -> & Hnin & ->).
    pose proof (wf_nodup s Hwf this) as Hnd.
    rewrite (children_lookup s this t _ Ht Hl) in Hnd.
    apply NoDup_app in Hnd as (_ & _ & [Hnin2 _]%NoDup_cons).
    by rewrite filter_remove_unique.
  - intros x. by rewrite isConnected_update.
Qed.


(** One round of either loop. *)
Lemma forEach_add_step this a count i s l c :
  arrays s !! a = Some l → l !! i = Some c →
  forEach_add this a (S count) i s
  = match add this c s with
    | (inl e, s1) => (inl e, s1)
    | (inr _, s1) => forEach_add this a count (S i) s1
    end.
Proof.
  intros Hl Hi. cbn [forEach_add].
  unfold array_read, array_get. unfold mbind, M_bind, bind, mret, M_ret, ret.
  cbv beta. rewrite Hl. cbv beta iota. rewrite Hi.
  by destruct (add this c s) as [[e|r] s1].
Qed.

Lemma removeChildren_loop_step this a i s l c :
  arrays s !! a = Some l → l !! i = Some c →
  removeChildren_loop this a (S i) s
  = match removeNode this c s with
    | (inl e, s1) => (inl e, s1)
    | (inr _, s1) => removeChildren_loop this a i s1
    end.
Proof.
  intros Hl Hi. cbn [removeChildren_loop].
  unfold array_read, array_get. unfold mbind, M_bind, bind, mret, M_ret, ret.
  cbv beta. rewrite Hl. cbv beta iota. rewrite Hi. cbn [removeNode_of].
  by destruct (removeNode this c s) as [[e|r] s1].
Qed.

Lemma lookup_middle (pre rest : list nat) c : (pre ++ c :: rest) !! length pre = Some c.
Proof. by rewrite lookup_app_r, Nat.sub_diag by lia. Qed.

(** The loop of [addChildren] over the part [rest] of a caller's array. *)
Lemma forEach_add_spec this a rest :
  ∀ pre s,
    wf s → is_Some (nodes s !! this) → unowned s a →
    arrays s !! a = Some (pre ++ rest) →
    (∀ x, x ∈ rest → is_Some (nodes s !! x)) →
    ∃ s', forEach_add this a (length rest) (length pre) s = (inr tt, s')
          ∧ wf s' ∧ same_frame s s'
          ∧ (∀ x, parent s' x = if decide (x ∈ rest) then Some this else parent s x)
          ∧ (NoDup rest → (∀ x, x ∈ rest → parent s x ≠ Some this) →
             children s' this = children s this ++ rest).
Proof.
  induction rest as [|c rest IH]; intros pre s Hwf Hthis Ha Hl Hall.
  - exists s. split_and!; [done|done|apply same_frame_refl| |].
    + intros x. rewrite decide_False; [done|apply not_elem_of_nil].
    + intros _ _. by rewrite app_nil_r.
  - assert (is_Some (nodes s !! c)) as Hc by (apply Hall; left).
    pose proof (add_wf s this c Hwf) as Hwf1.
    pose proof (add_frame s this c Hwf) as Hfr1.
    pose proof (add_returns s this c Hwf Hthis Hc) as Hret.
    pose proof (forEach_add_step this a (length rest) _ s _ c Hl
                  (lookup_middle pre rest c)) as Hstep.
    destruct (add this c s) as [r s1] eqn:Hadd. simpl in *. subst r.
    destruct (IH (pre ++ [c]) s1) as (s' & Hrun & Hwf' & Hfr' & Hpar & Hch);
      [done|by apply (frame_nodes _ _ Hfr1)|by apply (frame_unowned _ _ Hfr1)| |..].
    { rewrite (frame_arrays _ _ Hfr1) by done. by rewrite <-app_assoc. }
    { intros x Hx. apply (frame_nodes _ _ Hfr1), Hall. by right. }
    rewrite length_app in Hrun. simpl in Hrun.
    rewrite Nat.add_1_r in Hrun.
    assert (∀ x, parent s1 x = if decide (x = c) then Some this else parent s x) as Hpar1.
    { intros x. rewrite <-(add_parent s this c x Hwf Hthis Hc). by rewrite Hadd. }
    exists s'. split_and!; [by rewrite Hstep|done|by eapply same_frame_trans| |].
    + intros x. rewrite Hpar, Hpar1.
      destruct (decide (x = c)) as [->|Hne].
      * rewrite (decide_True (P := c ∈ c :: rest)) by left. by case_decide.
      * destruct (decide (x ∈ rest)) as [Hin|Hnin].
        -- rewrite decide_True; [done|by right].
        -- rewrite decide_False; [done|]. by intros [?|?]%elem_of_cons.
    + intros [Hnin Hnd]%NoDup_cons Horph. rewrite Hch.
      * assert (children s1 this = children s this ++ [c]) as ->.
        { replace s1 with (add this c s).2 by by rewrite Hadd.
          rewrite add_children by done.
          rewrite decide_False by (apply Horph; left). by rewrite decide_True. }
        by rewrite <-app_assoc.
      * done.
      * intros x Hx. rewrite Hpar1. rewrite decide_False by (intros ->; done).
        apply Horph. by right.
Qed.

(** X1.  [addChildren] on a well-formed store, given an array of nodes that
    is no node's child array: it returns the receiver, leaves the given
    array as it was, and afterwards every listed node has the receiver as
    parent while every other node keeps its parent.  When the listed nodes
    are distinct and none was a child of the receiver, they are appended
    to its children in the order of the array. *)
Theorem addChildren_adopts_all s this a l :
  wf s → is_Some (nodes s !! this) → unowned s a → arrays s !! a = Some l →
  (∀ x, x ∈ l → is_Some (nodes s !! x)) →
  (addChildren this a s).1 = inr this
  ∧ wf (addChildren this a s).2
  ∧ arrays (addChildren this a s).2 !! a = Some l
  ∧ (∀ x, parent (addChildren this a s).2 x
          = if decide (x ∈ l) then Some this else parent s x)
  ∧ (NoDup l → (∀ x, x ∈ l → parent s x ≠ Some this) →
     children (addChildren this a s).2 this = children s this ++ l).
Proof.
  intros Hwf Hthis Ha Hl Hall.
  destruct (forEach_add_spec this a l [] s Hwf Hthis Ha Hl Hall)
    as (s' & Hrun & Hwf' & Hfr & Hpar & Hch).
  destruct Hthis as [t Ht].
  unfold addChildren, mbind, M_bind, bind, instance_of, array_get.
  rewrite Ht, Hl. simpl in Hrun. rewrite Hrun. simpl.
  split_and!; [done|done| |done|done].
  by rewrite (frame_arrays _ _ Hfr).
Qed.


Lemma filter_not_in_snoc (post : list nat) (c : nat) (l : list nat) :
  filter (λ y, y ∉ post) (filter (λ y, y ≠ c) l) = filter (λ y, y ∉ post ++ [c]) l.
Proof.
  rewrite list_filter_filter. apply list_filter_iff. intros y.
  rewrite elem_of_app, list_elem_of_singleton. tauto.
Qed.

(** The loop of [removeChildren] over a part [post] of a caller's array
    whose elements are distinct children of the receiver: they are
    detached last to first, and the loop goes on with what precedes. *)
Lemma removeChildren_loop_spec this a :
  ∀ post front tail s,
    wf s → unowned s a → arrays s !! a = Some (front ++ post ++ tail) →
    NoDup post → (∀ x, x ∈ post → parent s x = Some this) →
    ∃ s', removeChildren_loop this a (length (front ++ post)) s
          = removeChildren_loop this a (length front) s'
          ∧ wf s' ∧ same_frame s s'
          ∧ (∀ x, parent s' x = if decide (x ∈ post) then None else parent s x)
          ∧ (∀ x, isConnected s' x
                  = if decide (x ∈ post) then false else isConnected s x)
          ∧ (∀ b, children s' b
                  = if decide (b = this)
                    then filter (λ y, y ∉ post) (children s this)
                    else children s b)
          ∧ tasks s' = tasks s ++ (disconnect_task this <$> reverse post).
Proof.
  induction post as [|c post IH] using rev_ind; intros front tail s Hwf Ha Hl Hnd Hpost.
  - exists s. rewrite app_nil_r.
    split_and!; [done|done|apply same_frame_refl|..].
    + intros x. rewrite decide_False; [done|apply not_elem_of_nil].
    + intros x. rewrite decide_False; [done|apply not_elem_of_nil].
    + intros b. case_decide; [|done]. subst.
      rewrite filter_all; [done|]. intros x _. apply not_elem_of_nil.
    + simpl. by rewrite app_nil_r.
  - apply NoDup_app in Hnd as (Hnd & Hdisj & _).
    assert (c ∉ post) as Hcpost.
    { intros Hin. apply (Hdisj c Hin). by left. }
    assert (parent s c = Some this) as Hpc.
    { apply Hpost, elem_of_app. right. by left. }
    destruct (removeNode_observed s this c Hwf Hpc)
      as (Hret & Hpar1 & Hch1 & Hflag1 & Htk1).
    pose proof (removeNode_wf s this c Hwf) as Hwf1.
    pose proof (removeNode_frame s this c Hwf) as Hfr1.
    assert ((front ++ (post ++ [c]) ++ tail) !! length (front ++ post) = Some c) as Hidx.
    { replace (front ++ (post ++ [c]) ++ tail) with ((front ++ post) ++ c :: tail)
        by (by rewrite <-!app_assoc). apply lookup_middle. }
    pose proof (removeChildren_loop_step this a _ s _ c Hl Hidx) as Hstep.
    destruct (removeNode this c s) as [r s1] eqn:Hrm.
    simpl in Hret, Hpar1, Hch1, Hflag1, Htk1, Hwf1, Hfr1. subst r.
    destruct (IH front ([c] ++ tail) s1) as (s' & Hrun & Hwf' & Hfr' & Hpar & Hflag & Hch & Htk);
      [done|by apply (frame_unowned _ _ Hfr1)| |done|..].
    { rewrite (frame_arrays _ _ Hfr1) by done. by rewrite Hl, <-!app_assoc. }
    { intros x Hx. rewrite Hpar1. rewrite decide_False by (intros ->; done).
      apply Hpost, elem_of_app. by left. }
    exists s'. split_and!; [|done|by eapply same_frame_trans|..].
    + replace (length (front ++ post ++ [c])) with (S (length (front ++ post)))
        by (rewrite !length_app; simpl; lia).
      by rewrite Hstep.
    + intros x. rewrite Hpar, Hpar1. destruct (decide (x ∈ post)) as [Hin|Hnin].
      * rewrite decide_True; [done|apply elem_of_app; by left].
      * destruct (decide (x = c)) as [->|Hne].
        -- rewrite decide_True; [done|apply elem_of_app; right; left].
        -- rewrite decide_False; [done|].
           by intros [?|?%list_elem_of_singleton]%elem_of_app.
    + intros x. rewrite Hflag, Hflag1. destruct (decide (x ∈ post)) as [Hin|Hnin].
      * rewrite decide_True; [done|apply elem_of_app; by left].
      * destruct (decide (x = c)) as [->|Hne].
        -- rewrite decide_True; [done|apply elem_of_app; right; left].
        -- rewrite decide_False; [done|].
           by intros [?|?%list_elem_of_singleton]%elem_of_app.
    + intros b. rewrite Hch. destruct (decide (b = this)) as [->|Hb].
      * rewrite Hch1, decide_True by done. apply filter_not_in_snoc.
      * rewrite Hch1. by rewrite decide_False.
    + rewrite Htk, Htk1, reverse_snoc. simpl. by rewrite <-app_assoc.
Qed.


Lemma removeChildren_unfold this a s t l :
  nodes s !! this = Some t → arrays s !! a = Some l →
  removeChildren this a s
  = match removeChildren_loop this a (length l) s with
    | (inl e, s') => (inl e, s')
    | (inr _, s') => (inr this, s')
    end.
Proof.
  intros Ht Hl. unfold removeChildren, array_get.
  unfold mbind, M_bind, bind, instance_of, mret, M_ret, ret.
  rewrite Ht, Hl. by destruct (removeChildren_loop this a (length l) s) as [[e|[]] s'].
Qed.

(** X2.  [removeChildren] given distinct children of the receiver: it
    returns the receiver; each listed node loses its parent and its
    connected flag, and every other node keeps both; the receiver's
    children are the old ones without the listed nodes; the disconnect
    callbacks are queued from the last listed node to the first, and none
    has run yet. *)
Theorem removeChildren_detaches_all s this a l :
  wf s → is_Some (nodes s !! this) → unowned s a → arrays s !! a = Some l →
  NoDup l → (∀ x, x ∈ l → parent s x = Some this) →
  (removeChildren this a s).1 = inr this
  ∧ wf (removeChildren this a s).2
  ∧ (∀ x, parent (removeChildren this a s).2 x
          = if decide (x ∈ l) then None else parent s x)
  ∧ (∀ x, isConnected (removeChildren this a s).2 x
          = if decide (x ∈ l) then false else isConnected s x)
  ∧ children (removeChildren this a s).2 this
    = filter (λ y, y ∉ l) (children s this)
  ∧ tasks (removeChildren this a s).2
    = tasks s ++ (disconnect_task this <$> reverse l)
  ∧ delivered (removeChildren this a s).2 = delivered s.
Proof.
  intros Hwf [t Ht] Ha Hl Hnd Hall.
  destruct (removeChildren_loop_spec this a l [] [] s Hwf Ha)
    as (s' & Hrun & Hwf' & Hfr & Hpar & Hflag & Hch & Htk);
    [by rewrite app_nil_r|done..|].
  rewrite (removeChildren_unfold this a s t l Ht Hl).
  simpl in Hrun. rewrite Hrun. simpl.
  split_and!; [done..| |done|apply (frame_delivered _ _ Hfr)].
  rewrite Hch. by rewrite decide_True.
Qed.

(** X3.  [removeChildren] takes the array from its end.  When it meets a
    node that is not a child of the receiver it throws the ReferenceError
    of [removeNode], and nothing is rolled back: the nodes after it in the
    array stay removed, with their callbacks queued, and those before it
    are untouched. *)
Theorem removeChildren_stops_at_stranger s this a pre x post :
  wf s → is_Some (nodes s !! this) → unowned s a →
  arrays s !! a = Some (pre ++ x :: post) →
  NoDup post → (∀ y, y ∈ post → parent s y = Some this) →
  is_Some (nodes s !! x) → parent s x ≠ Some this →
  (removeChildren this a s).1 = inl ReferenceError
  ∧ wf (removeChildren this a s).2
  ∧ (∀ y, parent (removeChildren this a s).2 y
          = if decide (y ∈ post) then None else parent s y)
  ∧ children (removeChildren this a s).2 this
    = filter (λ y, y ∉ post) (children s this)
  ∧ tasks (removeChildren this a s).2
    = tasks s ++ (disconnect_task this <$> reverse post).
Proof.
  intros Hwf [t Ht] Ha Hl Hnd Hall Hx Hpx.
  destruct (removeChildren_loop_spec this a post (pre ++ [x]) [] s Hwf Ha)
    as (s' & Hrun & Hwf' & Hfr & Hpar & Hflag & Hch & Htk);
    [by rewrite app_nil_r, <-app_assoc|done..|].
  rewrite (removeChildren_unfold this a s t _ Ht Hl).
  replace (length (pre ++ x :: post)) with (length ((pre ++ [x]) ++ post))
    by (by rewrite <-app_assoc).
  rewrite Hrun.
  assert (arrays s' !! a = Some (pre ++ x :: post)) as Hl'
    by by rewrite (frame_arrays _ _ Hfr).
  replace (length (pre ++ [x])) with (S (length pre))
    by (rewrite length_app; simpl; lia).
  rewrite (removeChildren_loop_step this a _ s' _ x Hl' (lookup_middle pre post x)).
  assert (is_Some (nodes s' !! this)) as [t' Ht']
    by (apply (frame_nodes _ _ Hfr); eauto).
  assert (is_Some (nodes s' !! x)) as [xn Hxn] by by apply (frame_nodes _ _ Hfr).
  rewrite (removeNode_not_child s' this x t' xn Ht' Hxn).
  - simpl. split_and!; [done..| |done]. rewrite Hch. by rewrite decide_True.
  - rewrite <-(parent_lookup s' x xn Hxn), Hpar. by case_decide.
Qed.

(** The loop of [removeChildren] over the receiver's own array, which
    shrinks from its end as the loop steps down. *)
Lemma removeChildren_loop_own this :
  ∀ l s t,
    wf s → nodes s !! this = Some t → arrays s !! __children t = Some l →
    ∃ s', removeChildren_loop this (__children t) (length l) s = (inr tt, s')
          ∧ wf s' ∧ same_frame s s'
          ∧ children s' this = []
          ∧ (∀ x, parent s' x = if decide (x ∈ l) then None else parent s x)
          ∧ (∀ x, isConnected s' x
                  = if decide (x ∈ l) then false else isConnected s x)
          ∧ (∀ b, b ≠ this → children s' b = children s b)
          ∧ tasks s' = tasks s ++ (disconnect_task this <$> reverse l).
Proof.
  induction l as [|c l IH] using rev_ind; intros s t Hwf Ht Hl.
  - exists s. split_and!; [done|done|apply same_frame_refl|..].
    + by apply (children_lookup s this t).
    + intros x. rewrite decide_False; [done|apply not_elem_of_nil].
    + intros x. rewrite decide_False; [done|apply not_elem_of_nil].
    + done.
    + simpl. by rewrite app_nil_r.
  - pose proof (children_lookup s this t _ Ht Hl) as Hchs.
    pose proof (wf_nodup s Hwf this) as Hnd. rewrite Hchs in Hnd.
    apply NoDup_app in Hnd as (Hnd & Hdisj & _).
    assert (c ∉ l) as Hcl.
    { intros Hin. apply (Hdisj c Hin). by left. }
    assert (parent s c = Some this) as Hpc.
    { apply (wf_consistent s Hwf). rewrite Hchs. apply elem_of_app. right. by left. }
    destruct (removeNode_observed s this c Hwf Hpc)
      as (Hret & Hpar1 & Hch1 & Hflag1 & Htk1).
    pose proof (removeNode_wf s this c Hwf) as Hwf1.
    pose proof (removeNode_frame s this c Hwf) as Hfr1.
    assert ((l ++ [c]) !! length l = Some c) as Hidx by apply lookup_middle.
    pose proof (removeChildren_loop_step this (__children t) _ s _ c Hl Hidx) as Hstep.
    destruct (removeNode this c s) as [r s1] eqn:Hrm.
    simpl in Hret, Hpar1, Hch1, Hflag1, Htk1, Hwf1, Hfr1. subst r.
    assert (is_Some (nodes s1 !! this)) as [t1 Ht1]
      by (apply (frame_nodes _ _ Hfr1); eauto).
    destruct (frame_refs _ _ Hfr1 this t1 Ht1) as (t0 & Ht0 & Hrefs).
    assert (t0 = t) as -> by congruence.
    destruct (wf_array s1 Hwf1 this t1 Ht1) as [l1 Hl1].
    assert (l1 = l) as ->.
    { rewrite <-(children_lookup s1 this t1 l1 Ht1 Hl1), Hch1.
      rewrite decide_True by done. rewrite Hchs.
      rewrite filter_app, filter_cons_False, filter_nil, app_nil_r by (by intros ?).
      apply filter_all. by intros x Hx ->. }
    destruct (IH s1 t1 Hwf1 Ht1 Hl1)
      as (s' & Hrun & Hwf' & Hfr' & Hch & Hpar & Hflag & Hoth & Htk).
    rewrite Hrefs in Hrun.
    exists s'. split_and!; [|done|by eapply same_frame_trans|done|..].
    + rewrite length_app. simpl. rewrite Nat.add_1_r. by rewrite Hstep.
    + intros x. rewrite Hpar, Hpar1. destruct (decide (x ∈ l)) as [Hin|Hnin].
      * rewrite decide_True; [done|apply elem_of_app; by left].
      * destruct (decide (x = c)) as [->|Hne].
        -- rewrite decide_True; [done|apply elem_of_app; right; left].
        -- rewrite decide_False; [done|].
           by intros [?|?%list_elem_of_singleton]%elem_of_app.
    + intros x. rewrite Hflag, Hflag1. destruct (decide (x ∈ l)) as [Hin|Hnin].
      * rewrite decide_True; [done|apply elem_of_app; by left].
      * destruct (decide (x = c)) as [->|Hne].
        -- rewrite decide_True; [done|apply elem_of_app; right; left].
        -- rewrite decide_False; [done|].
           by intros [?|?%list_elem_of_singleton]%elem_of_app.
    + intros b Hb. rewrite Hoth, Hch1 by done. by rewrite decide_False.
    + rewrite Htk, Htk1, reverse_snoc. simpl. by rewrite <-app_assoc.
Qed.

(** X4.  [removeAllChildren]: without children it throws ReferenceError
    and changes nothing.  Otherwise it hands the node's own child array to
    [removeChildren], which shrinks while it is walked from the end, and
    still every child is removed: the node ends with no children, each
    former child without parent and flag, every other node as before, and
    the disconnect callbacks queued from the last child to the first. *)
Theorem removeAllChildren_empties s this :
  wf s → is_Some (nodes s !! this) →
  if decide (children s this = [])
  then removeAllChildren this s = (inl ReferenceError, s)
  else (removeAllChildren this s).1 = inr this
       ∧ wf (removeAllChildren this s).2
       ∧ children (removeAllChildren this s).2 this = []
       ∧ (∀ x, parent (removeAllChildren this s).2 x
               = if decide (x ∈ children s this) then None else parent s x)
       ∧ (∀ x, isConnected (removeAllChildren this s).2 x
               = if decide (x ∈ children s this) then false else isConnected s x)
       ∧ (∀ b, b ≠ this → children (removeAllChildren this s).2 b = children s b)
       ∧ tasks (removeAllChildren this s).2
         = tasks s ++ (disconnect_task this <$> reverse (children s this)).
Proof.
  intros Hwf [t Ht]. destruct (wf_array s Hwf this t Ht) as [l Hl].
  rewrite (children_lookup s this t l Ht Hl).
  unfold removeAllChildren, array_get.
  unfold mbind, M_bind, bind, instance_of, mret, M_ret, ret.
  rewrite Ht, Hl. destruct (decide (l = [])) as [->|Hne].
  - by rewrite decide_True.
  - rewrite decide_False by (by destruct l).
    rewrite (removeChildren_unfold this _ s t l Ht Hl).
    destruct (removeChildren_loop_own this l s t Hwf Ht Hl)
      as (s' & -> & Hwf' & Hfr & Hch & Hpar & Hflag & Hoth & Htk).
    simpl. by split_and!.
Qed.


(** *** [traverse] *)

Lemma traverse_children_no_exn (go : ref → option visits) cs :
  (∀ c v e, c ∈ cs → go c ≠ Some (v, Some e)) →
  ∀ v e, traverse_children go cs ≠ Some (v, Some e).
Proof.
  induction cs as [|c cs IH]; intros Hgo v e; [done|]. simpl.
  destruct (go c) as [[vc [ec|]]|] eqn:Hc; [|..|done].
  - exfalso. eapply Hgo; [left|done].
  - destruct (traverse_children go cs) as [[v' r]|] eqn:Hcs; [|done].
    intros [= <- ->]. eapply IH; [|done]. intros c' v'' e' Hc'. apply Hgo. by right.
Qed.

Lemma children_are_nodes s b c : wf s → c ∈ children s b → is_Some (nodes s !! c).
Proof.
  intros Hwf Hc%(wf_consistent s Hwf). unfold parent in Hc.
  destruct (nodes s !! c); [eauto|done].
Qed.

Lemma traverse_no_exn s depth :
  wf s → ∀ this v e, is_Some (nodes s !! this) →
                     traverse depth s this ≠ Some (v, Some e).
Proof.
  intros Hwf. induction depth as [|depth IH]; intros this v e [t Ht]; [done|].
  simpl. rewrite Ht. destruct (wf_array s Hwf this t Ht) as [l Hl]. rewrite Hl.
  destruct (traverse_children (traverse depth s) l) as [[v' r]|] eqn:Hcs; [|done].
  intros [= <- ->]. eapply traverse_children_no_exn; [|done].
  intros c v'' e' Hc. apply IH. apply (children_are_nodes s this); [done|].
  by rewrite (children_lookup s this t l).
Qed.

Lemma traverse_children_overflow (go : ref → option visits) cs m :
  m ∈ cs → go m = None →
  (∀ c v e, c ∈ cs → go c ≠ Some (v, Some e)) →
  traverse_children go cs = None.
Proof.
  induction cs as [|c cs IH]; intros Hm Hgo Hno; [by apply elem_of_nil in Hm|].
  simpl. destruct (go c) as [[vc [ec|]]|] eqn:Hc; [|..|done].
  - exfalso. eapply Hno; [left|done].
  - apply elem_of_cons in Hm as [->|Hm]; [congruence|].
    rewrite IH; [done..|]. intros c' v e Hc'. apply Hno. by right.
Qed.

(** The last link of a chain of parent links. *)
Lemma ancestor_last_link par a b :
  ancestor_of par a b → ∃ m, par m = Some a ∧ (m = b ∨ ancestor_of par m b).
Proof.
  induction 1 as [b Hb|b d Hb _ (m & Hm & IH)].
  - exists b. eauto.
  - exists m. split; [done|]. right.
    destruct IH as [->|IH]; [by apply anc_parent|by eapply anc_step].
Qed.

(** X5.  [traverse] started at a node that is its own ancestor never
    returns: whatever the depth allowed to the call stack, it is
    exceeded. *)
Theorem traverse_cycle_overflows s n depth :
  wf s → ancestor s n n → traverse depth s n = None.
Proof.
  intros Hwf. revert n. induction depth as [|depth IH]; intros n Hn; [done|].
  destruct (ancestor_last_link _ _ _ Hn) as (m & Hm & Hmn).
  assert (ancestor s m m) as Hmm.
  { destruct Hmn as [->|Hmn]; [done|].
    eapply ancestor_of_trans; [exact Hmn|]. by apply anc_parent. }
  destruct (node_of_parent s m n Hwf Hm) as [t Ht].
  destruct (wf_array s Hwf n t Ht) as [l Hl].
  simpl. rewrite Ht, Hl.
  rewrite (traverse_children_overflow _ l m); [done| |by apply IH|].
  - rewrite <-(children_lookup s n t l Ht Hl). by apply (wf_consistent s Hwf).
  - intros c v e Hc. apply traverse_no_exn; [done|].
    apply (children_are_nodes s n); [done|]. by rewrite (children_lookup s n t l).
Qed.

Lemma ancestor_linear par a b x :
  ancestor_of par a x → ancestor_of par b x →
  a = b ∨ ancestor_of par a b ∨ ancestor_of par b a.
Proof.
  intros Ha. revert b. induction Ha as [x Hx|x d Hx Hd IH]; intros b Hb.
  - inversion Hb as [? Hx'|? d' Hx' Hd']; subst.
    + left. congruence.
    + right. right. congruence.
  - inversion Hb as [? Hx'|? d' Hx' Hd']; subst.
    + right. left. congruence.
    + apply IH. congruence.
Qed.

Lemma ancestor_above_parent par a c p :
  par c = Some p → ancestor_of par a c → a = p ∨ ancestor_of par a p.
Proof.
  intros Hc Ha. inversion Ha as [? Hc'|? d Hc' Hd]; subst.
  - left. congruence.
  - right. congruence.
Qed.

Lemma ranked_ancestor s rank a b : ranked s rank → ancestor s a b → rank b < rank a.
Proof.
  intros Hr. induction 1 as [b Hb|b d Hb _ IH].
  - by apply Hr.
  - etrans; [by apply Hr|done].
Qed.

(** The subtrees of two children of one node share no node. *)
Lemma subtrees_disjoint s rank p c1 c2 x :
  ranked s rank → parent s c1 = Some p → parent s c2 = Some p →
  in_subtree s c1 x → in_subtree s c2 x → c1 = c2.
Proof.
  intros Hr H1 H2 Hx1 Hx2.
  assert (∀ a c, parent s c = Some p → parent s a = Some p → ancestor s a c → False)
    as Habove.
  { intros a c Hc Ha Hac.
    destruct (ancestor_above_parent _ a c p Hc Hac) as [->|Hap].
    - pose proof (Hr p p Ha). lia.
    - pose proof (ranked_ancestor s rank a p Hr Hap). pose proof (Hr a p Ha). lia. }
  destruct Hx1 as [->|Hx1], Hx2 as [Heq|Hx2].
  - done.
  - exfalso. by eapply (Habove c2 c1).
  - subst. exfalso. by eapply (Habove c1 c2).
  - destruct (ancestor_linear _ c1 c2 x Hx1 Hx2) as [?|[?|?]]; [done|..].
    + exfalso. by eapply (Habove c1 c2).
    + exfalso. by eapply (Habove c2 c1).
Qed.

Lemma traverse_children_spec s rank p (go : ref → option visits) cs :
  ranked s rank → NoDup cs → (∀ c, c ∈ cs → parent s c = Some p) →
  (∀ c, c ∈ cs → ∃ v, go c = Some (c :: v, None) ∧ NoDup (c :: v)
                      ∧ ∀ x, x ∈ c :: v ↔ in_subtree s c x) →
  ∃ vs, traverse_children go cs = Some (vs, None) ∧ NoDup vs
        ∧ ∀ x, x ∈ vs ↔ ∃ c, c ∈ cs ∧ in_subtree s c x.
Proof.
  intros Hr. induction cs as [|c cs IH]; intros Hnd Hpar Hgo.
  - exists []. split_and!; [done|constructor|].
    intros x. split; [by intros ?%elem_of_nil|]. by intros (c & ?%elem_of_nil & _).
  - apply NoDup_cons in Hnd as [Hc Hnd].
    destruct (Hgo c) as (v & Hv & Hndv & Hmem); [left|].
    destruct IH as (vs & Hvs & Hndvs & Hmems); [done|..].
    { intros c' Hc'. apply Hpar. by right. }
    { intros c' Hc'. apply Hgo. by right. }
    exists ((c :: v) ++ vs). simpl. rewrite Hv, Hvs. split_and!; [done| |].
    + change (NoDup ((c :: v) ++ vs)). apply NoDup_app. split_and!; [done| |done].
      intros x Hx1%Hmem (c' & Hc' & Hx2)%Hmems.
      assert (c = c') as <-; [|done].
      eapply (subtrees_disjoint s rank p); [done| | |done..].
      * apply Hpar. left.
      * apply Hpar. by right.
    + intros x. change (x ∈ (c :: v) ++ vs ↔ ∃ c0, c0 ∈ c :: cs ∧ in_subtree s c0 x).
      rewrite elem_of_app, Hmem, Hmems. split.
      * intros [?|(c' & ? & ?)]; [exists c; split; [left|done]|].
        exists c'. split; [by right|done].
      * intros (c' & [->|?]%elem_of_cons & ?); [by left|]. right. by exists c'.
Qed.

Lemma traverse_ranked s rank :
  wf s → ranked s rank →
  ∀ depth this, rank this < depth → is_Some (nodes s !! this) →
    ∃ v, traverse depth s this = Some (this :: v, None)
         ∧ NoDup (this :: v)
         ∧ ∀ x, x ∈ this :: v ↔ in_subtree s this x.
Proof.
  intros Hwf Hr. induction depth as [|depth IH]; intros this Hlt [t Ht]; [lia|].
  destruct (wf_array s Hwf this t Ht) as [l Hl].
  pose proof (children_lookup s this t l Ht Hl) as Hch.
  assert (∀ c, c ∈ l → parent s c = Some this) as Hpar.
  { intros c Hc. apply (wf_consistent s Hwf). by rewrite Hch. }
  destruct (traverse_children_spec s rank this (traverse depth s) l Hr)
    as (vs & Hvs & Hnd & Hmem); [rewrite <-Hch; by apply wf_nodup|done| |].
  { intros c Hc. apply IH.
    - pose proof (Hr c this (Hpar c Hc)). lia.
    - apply (children_are_nodes s this); [done|]. by rewrite Hch. }
  assert (∀ x, x ∈ vs ↔ ancestor s this x) as Hdesc.
  { intros x. rewrite Hmem. split.
    - intros (c & Hc%Hpar & [->|Hx]); [by apply anc_parent|].
      eapply ancestor_of_trans; [|exact Hx]. by apply anc_parent.
    - intros (m & Hm & Hmx)%ancestor_last_link. exists m. split.
      + rewrite <-Hch. by apply (wf_consistent s Hwf).
      + destruct Hmx as [->|?]; [by left|by right]. }
  exists vs. simpl. rewrite Ht, Hl, Hvs. split_and!; [done| |].
  - apply NoDup_cons. split; [|done]. intros Hin%Hdesc.
    pose proof (ranked_ancestor s rank this this Hr Hin). lia.
  - intros x. rewrite elem_of_cons, Hdesc. unfold in_subtree. done.
Qed.

(** X6.  [traverse] in a store whose parent links rise along a rank, so
    that no node is its own ancestor: it returns without an exception; the
    callback gets the start node first, gets no node twice, and after the
    start node gets exactly the nodes that have it as an ancestor. *)
Theorem traverse_visits_subtree_once s rank this :
  wf s → ranked s rank → is_Some (nodes s !! this) →
  ∃ v, traverse (S (rank this)) s this = Some (this :: v, None)
       ∧ NoDup (this :: v)
       ∧ ∀ x, x ∈ v ↔ ancestor s this x.
Proof.
  intros Hwf Hr Hthis.
  destruct (traverse_ranked s rank Hwf Hr (S (rank this)) this) as (v & Hv & Hnd & Hmem);
    [lia|done|].
  exists v. split_and!; [done..|].
  intros x. split.
  - intros Hx. destruct (Hmem x) as [[->|?] _]; [by right| |done].
    apply NoDup_cons in Hnd as [? _]. done.
  - intros Hx. destruct (Hmem x) as [_ Hin]. 
    apply elem_of_cons in Hin as [->|?]; [|done|by right].
    exfalso. pose proof (ranked_ancestor s rank this this Hr Hx). lia.
Qed.


(** *** How calls compose *)

(** X7.  Adding a node that has no parent and removing it again gives
    back every parent, every list of children and every connected flag;
    what remains of the two calls is their two deferred callbacks. *)
Theorem add_then_removeNode_restores s this c :
  wf s → is_Some (nodes s !! this) → is_Some (nodes s !! c) → parent s c = None →
  (removeNode this c (add this c s).2).1 = inr this
  ∧ (∀ x, parent (removeNode this c (add this c s).2).2 x = parent s x)
  ∧ (∀ b, children (removeNode this c (add this c s).2).2 b = children s b)
  ∧ (∀ x, isConnected (removeNode this c (add this c s).2).2 x = isConnected s x)
  ∧ tasks (removeNode this c (add this c s).2).2
    = tasks s ++ [[connected c; childConnected this c]; disconnect_task this c].
Proof.
  intros Hwf Hthis Hc Hp.
  pose proof (add_wf s this c Hwf) as Hwf1.
  assert (parent s c ≠ Some this) as Hne by congruence.
  assert (parent (add this c s).2 c = Some this) as Hp1.
  { rewrite add_parent by done. by rewrite decide_True. }
  destruct (removeNode_observed _ this c Hwf1 Hp1) as (Hret & Hpar & Hch & Hflag & Htk).
  assert (c ∉ children s this) as Hnin.
  { intros Hin%(wf_consistent s Hwf). congruence. }
  split_and!; [done|..].
  - intros x. rewrite Hpar, add_parent by done.
    destruct (decide (x = c)) as [->|]; [by rewrite Hp|done].
  - intros b. rewrite Hch. destruct (decide (b = this)) as [->|Hb].
    + rewrite add_children by done.
      rewrite (decide_False (P := parent s c = Some this)) by done.
      rewrite decide_True by done.
      rewrite filter_app, filter_cons_False, filter_nil, app_nil_r by (by intros ?).
      apply filter_all. by intros x Hx ->.
    + rewrite add_children by done.
      rewrite (decide_False (P := parent s c = Some this)) by done.
      rewrite (decide_False (P := b = this)) by done.
      rewrite decide_False; [done|]. by rewrite Hp.
  - intros x. rewrite Hflag. destruct (decide (x = c)) as [->|Hx].
    + symmetry. apply not_true_is_false. rewrite (wf_flag s Hwf c), Hp.
      by intros [? ?].
    + destruct (add_cases s this c Hwf)
        as [?|? ? ? ? ?|t cn Ht Hcn Hpc|t cn q tq l t' Ht Hcn Hpc Hq Htq Hl Ht'];
        simpl; [done|done|..].
      * unfold added. rewrite isConnected_update. by rewrite decide_False.
      * unfold added, removed. rewrite !isConnected_update. by rewrite !decide_False.
  - rewrite Htk. destruct (add_queue s this c Hwf Hthis Hc) as [_ ->].
    rewrite Hp. by rewrite <-app_assoc.
Qed.

(** X8.  Whatever sequence of constructions, [add] and [removeNode] calls
    starts from the empty store: no child array lists a node twice,
    [__isConnected] is true exactly for the nodes that have a parent, a
    child array lists allocated nodes only, and no node is in the child
    arrays of two nodes. *)
Theorem stores_stay_well_formed ops :
  (∀ b, NoDup (children (exec_all ops empty_state) b))
  ∧ (∀ c, isConnected (exec_all ops empty_state) c = true
          ↔ is_Some (parent (exec_all ops empty_state) c))
  ∧ (∀ b c, c ∈ children (exec_all ops empty_state) b →
            is_Some (nodes (exec_all ops empty_state) !! c)
            ∧ is_Some (nodes (exec_all ops empty_state) !! b))
  ∧ (∀ a b c, c ∈ children (exec_all ops empty_state) a →
              c ∈ children (exec_all ops empty_state) b → a = b).
Proof.
  pose proof (exec_all_wf ops empty_state wf_empty) as Hwf.
  split_and!.
  - apply (wf_nodup _ Hwf).
  - apply (wf_flag _ Hwf).
  - intros b c Hc. split; [by eapply children_are_nodes|].
    eapply node_of_parent; [done|]. by apply (wf_consistent _ Hwf).
  - intros a b c Ha%(wf_consistent _ Hwf) Hb%(wf_consistent _ Hwf). congruence.
Qed.

Lemma childCount_length s this :
  wf s → is_Some (nodes s !! this) →
  childCount this s = (inr (length (children s this)), s).
Proof.
  intros Hwf [t Ht]. destruct (wf_array s Hwf this t Ht) as [l Hl].
  rewrite (children_lookup s this t l Ht Hl).
  unfold childCount, array_get. unfold mbind, M_bind, bind, instance_of.
  by rewrite Ht, Hl.
Qed.

(** X9.  [childCount] after [add]: one more than before, or the same when
    the node was a child already; and before a [removeNode] that succeeds
    it is one more than after. *)
Theorem childCount_counts s this c :
  wf s → is_Some (nodes s !! this) → is_Some (nodes s !! c) →
  (childCount this (add this c s).2).1
  = inr (if decide (parent s c = Some this)
         then length (children s this) else S (length (children s this)))
  ∧ (parent s c = Some this →
     (childCount this s).1 = inr (S (length (children (removeNode this c s).2 this)))).
Proof.
  intros Hwf Hthis Hc. split.
  - rewrite childCount_length;
      [|by apply add_wf|by apply (frame_nodes _ _ (add_frame s this c Hwf))].
    simpl. rewrite add_children by done. f_equal.
    case_decide; [done|]. rewrite decide_True by done.
    rewrite length_app. simpl. lia.
  - intros Hp. rewrite childCount_length by done. simpl. f_equal.
    destruct (removeNode_child s this c Hwf Hp) as (t & cn & l & Ht & Hcn & _ & Hl & ->).
    simpl. unfold removed.
    erewrite children_update; [|by apply wf_own|done..].
    rewrite decide_True by done. rewrite (children_lookup s this t l Ht Hl).
    assert (c ∈ l) as Hin.
    { rewrite <-(children_lookup s this t l Ht Hl). by apply (wf_consistent s Hwf). }
    destruct (splice1_indexOf l c Hin) as (l1 & l2 & -> & _ & ->).
    rewrite !length_app. simpl. lia.
Qed.

(** *** A caller's array *)

Lemma array_alloc_wf s l : wf s → wf (array_alloc l s).2.
Proof.
  intros Hwf. unfold array_alloc. simpl.
  assert (∀ n t, nodes s !! n = Some t → __children t ≠ fresh (dom (arrays s))) as Hfr.
  { intros n t Hn Heq. destruct (wf_array s Hwf n t Hn) as [l' Hl'].
    by rewrite Heq, fresh_lookup in Hl'. }
  assert (∀ b, children (with_arrays <[fresh (dom (arrays s)) := l]> s) b = children s b)
    as Hch.
  { intros b. unfold children. simpl. destruct (nodes s !! b) as [t|] eqn:Hb; [|done].
    simpl. rewrite lookup_insert_ne; [done|]. intros Heq. by apply (Hfr b t). }
  split.
  - intros n t Hn. simpl in *. rewrite lookup_insert_ne by (intros Heq; by apply (Hfr n t)).
    by eapply wf_array.
  - apply (wf_own s Hwf).
  - apply (wf_flag s Hwf).
  - intros b. rewrite Hch. by apply wf_nodup.
  - intros a b. rewrite Hch. apply (wf_consistent s Hwf).
Qed.

Lemma array_alloc_unowned s l :
  wf s → unowned (array_alloc l s).2 (fresh (dom (arrays s)))
         ∧ arrays (array_alloc l s).2 !! fresh (dom (arrays s)) = Some l.
Proof.
  intros Hwf. split; [|apply lookup_insert_eq].
  intros n t Hn Heq. simpl in Hn. destruct (wf_array s Hwf n t Hn) as [l' Hl'].
  by rewrite Heq, fresh_lookup in Hl'.
Qed.


(** *** The example stores *)

Lemma orphans_wf : wf (exec_all [New; New; New] empty_state).
Proof. apply exec_all_wf, wf_empty. Qed.

Lemma loop_store_wf : wf loop_store.
Proof. apply exec_all_wf, wf_empty. Qed.

Lemma family_with_array_ok :
  wf family_with_array ∧ unowned family_with_array 3
  ∧ arrays family_with_array !! 3 = Some [1; 2].
Proof.
  split; [apply array_alloc_wf, family_store_wf|].
  apply (array_alloc_unowned family_store [1; 2] family_store_wf).
Qed.

Lemma family_with_stranger_ok :
  wf family_with_stranger ∧ unowned family_with_stranger 3
  ∧ arrays family_with_stranger !! 3 = Some [1; 0; 2].
Proof.
  split; [apply array_alloc_wf, family_store_wf|].
  apply (array_alloc_unowned family_store [1; 0; 2] family_store_wf).
Qed.

Lemma orphans_with_array_ok :
  wf orphans_with_array ∧ unowned orphans_with_array 3
  ∧ arrays orphans_with_array !! 3 = Some [1; 2].
Proof.
  split; [apply array_alloc_wf, orphans_wf|].
  apply (array_alloc_unowned _ [1; 2] orphans_wf).
Qed.

Lemma family_rank_ranked : ranked family_store family_rank.
Proof.
  intros a b Hp. unfold parent in Hp.
  destruct (nodes family_store !! a) as [t|] eqn:Ha; [|done].
  apply elem_of_map_to_list in Ha.
  set (l := map_to_list (nodes family_store)) in Ha. vm_compute in l. subst l.
  repeat (apply elem_of_cons in Ha as [[= -> ->]|Ha]; [by (vm_compute in Hp; simplify_eq; vm_compute; lia)|]).
  by apply elem_of_nil in Ha.
Qed.

Lemma addChildren_adopts_all_witness :
  wf orphans_with_array ∧ is_Some (nodes orphans_with_array !! 0)
  ∧ unowned orphans_with_array 3
  ∧ arrays orphans_with_array !! 3 = Some [1; 2]
  ∧ (addChildren 0 3 orphans_with_array).1 = inr 0
  ∧ children (addChildren 0 3 orphans_with_array).2 0
    = children orphans_with_array 0 ++ [1; 2].
Proof.
  destruct orphans_with_array_ok as (Hwf & Hun & Harr).
  assert (is_Some (nodes orphans_with_array !! 0)) as H0 by (vm_compute; eauto).
  assert (∀ x, x ∈ [1; 2] → is_Some (nodes orphans_with_array !! x)) as Hall.
  { intros x [->|[->|[]%elem_of_nil]%elem_of_cons]%elem_of_cons; vm_compute; eauto. }
  destruct (addChildren_adopts_all orphans_with_array 0 3 [1; 2] Hwf H0 Hun Harr Hall)
    as (Hret & _ & _ & _ & Hch).
  split_and!; [done..|]. apply Hch.
  - apply NoDup_cons. split; [by intros [=]%list_elem_of_singleton|apply NoDup_singleton].
  - intros x [->|[->|[]%elem_of_nil]%elem_of_cons]%elem_of_cons; by vm_compute.
Defined.

Lemma removeChildren_detaches_all_witness :
  wf family_with_array ∧ is_Some (nodes family_with_array !! 0)
  ∧ unowned family_with_array 3
  ∧ arrays family_with_array !! 3 = Some [1; 2]
  ∧ (removeChildren 0 3 family_with_array).1 = inr 0
  ∧ children (removeChildren 0 3 family_with_array).2 0
    = filter (λ y, y ∉ [1; 2]) (children family_with_array 0).
Proof.
  destruct family_with_array_ok as (Hwf & Hun & Harr).
  assert (is_Some (nodes family_with_array !! 0)) as H0 by (vm_compute; eauto).
  assert (NoDup [1; 2]) as Hnd by (apply NoDup_cons; split; [by intros [=]%list_elem_of_singleton|apply NoDup_singleton]).
  assert (∀ x, x ∈ [1; 2] → parent family_with_array x = Some 0) as Hall.
  { by intros x [->|[->|[]%elem_of_nil]%elem_of_cons]%elem_of_cons. }
  destruct (removeChildren_detaches_all family_with_array 0 3 [1; 2]
              Hwf H0 Hun Harr Hnd Hall) as (Hret & _ & _ & _ & Hch & _).
  by split_and!.
Defined.

Lemma removeChildren_stops_at_stranger_witness :
  wf family_with_stranger ∧ unowned family_with_stranger 3
  ∧ arrays family_with_stranger !! 3 = Some ([1] ++ 0 :: [2])
  ∧ parent family_with_stranger 0 ≠ Some 0
  ∧ (removeChildren 0 3 family_with_stranger).1 = inl ReferenceError
  ∧ parent (removeChildren 0 3 family_with_stranger).2 2 = None
  ∧ parent (removeChildren 0 3 family_with_stranger).2 1 = Some 0.
Proof.
  destruct family_with_stranger_ok as (Hwf & Hun & Harr).
  assert (is_Some (nodes family_with_stranger !! 0)) as H0 by (vm_compute; eauto).
  assert (NoDup [2]) as Hnd by apply NoDup_singleton.
  assert (∀ x, x ∈ [2] → parent family_with_stranger x = Some 0) as Hall.
  { by intros x [->|[]%elem_of_nil]%elem_of_cons. }
  assert (parent family_with_stranger 0 ≠ Some 0) as Hp0 by (by vm_compute).
  destruct (removeChildren_stops_at_stranger family_with_stranger 0 3 [1] 0 [2]
              Hwf H0 Hun Harr Hnd Hall H0 Hp0) as (Hret & _ & Hpar & _).
  split_and!; [done..| |].
  - rewrite Hpar. by vm_compute.
  - rewrite Hpar. by vm_compute.
Defined.

Lemma removeAllChildren_empties_witness :
  wf family_store ∧ is_Some (nodes family_store !! 0)
  ∧ children family_store 0 ≠ []
  ∧ (removeAllChildren 0 family_store).1 = inr 0
  ∧ children (removeAllChildren 0 family_store).2 0 = []
  ∧ tasks (removeAllChildren 0 family_store).2
    = tasks family_store ++ [disconnect_task 0 2; disconnect_task 0 1].
Proof.
  assert (is_Some (nodes family_store !! 0)) as H0 by (vm_compute; eauto).
  assert (children family_store 0 ≠ []) as Hne by (by vm_compute).
  pose proof (removeAllChildren_empties family_store 0 family_store_wf H0) as Hall.
  rewrite decide_False in Hall by done.
  destruct Hall as (Hret & _ & Hch & _ & _ & _ & Htk).
  split_and!; [apply family_store_wf|done..].
Defined.

Lemma traverse_cycle_overflows_witness :
  wf loop_store ∧ ancestor loop_store 0 0 ∧ traverse 1000 loop_store 0 = None.
Proof.
  assert (ancestor loop_store 0 0) as Hcyc.
  { eapply anc_step; [|apply anc_parent]; by vm_compute. }
  split_and!; [apply loop_store_wf|done|].
  apply (traverse_cycle_overflows loop_store 0 1000 loop_store_wf Hcyc).
Defined.

Lemma traverse_visits_subtree_once_witness :
  wf family_store ∧ ranked family_store family_rank
  ∧ is_Some (nodes family_store !! 0)
  ∧ ∃ v, traverse 2 family_store 0 = Some (0 :: v, None) ∧ NoDup (0 :: v)
         ∧ ∀ x, x ∈ v ↔ ancestor family_store 0 x.
Proof.
  assert (is_Some (nodes family_store !! 0)) as H0 by (vm_compute; eauto).
  split_and!; [apply family_store_wf|apply family_rank_ranked|done|].
  apply (traverse_visits_subtree_once family_store family_rank 0
           family_store_wf family_rank_ranked H0).
Defined.

Lemma add_then_removeNode_restores_witness :
  wf orphans_with_array ∧ parent orphans_with_array 1 = None
  ∧ (∀ b, children (removeNode 0 1 (add 0 1 orphans_with_array).2).2 b
          = children orphans_with_array b).
Proof.
  destruct orphans_with_array_ok as (Hwf & _).
  assert (is_Some (nodes orphans_with_array !! 0)) as H0 by (vm_compute; eauto).
  assert (is_Some (nodes orphans_with_array !! 1)) as H1 by (vm_compute; eauto).
  assert (parent orphans_with_array 1 = None) as Hp by reflexivity.
  destruct (add_then_removeNode_restores orphans_with_array 0 1 Hwf H0 H1 Hp)
    as (_ & _ & Hch & _).
  by split_and!.
Defined.

Lemma childCount_counts_witness :
  wf family_store ∧ is_Some (nodes family_store !! 0)
  ∧ is_Some (nodes family_store !! 1)
  ∧ (childCount 0 (add 0 1 family_store).2).1 = inr 2
  ∧ (childCount 1 (add 1 2 family_store).2).1 = inr 1.
Proof.
  assert (is_Some (nodes family_store !! 0)) as H0 by (vm_compute; eauto).
  assert (is_Some (nodes family_store !! 1)) as H1 by (vm_compute; eauto).
  assert (is_Some (nodes family_store !! 2)) as H2 by (vm_compute; eauto).
  split_and!; [apply family_store_wf|done..| |].
  - by rewrite (proj1 (childCount_counts family_store 0 1 family_store_wf H0 H1)).
  - by rewrite (proj1 (childCount_counts family_store 1 2 family_store_wf H1 H2)).
Defined.
End TreeOpsFacts.

(** * More facts about the glTF behaviour *)
Module GltfOpsFacts.
Import Gltf GltfOps GltfFacts.


Lemma reload_version b : version (reload b) = S (version b).
Proof.
  unfold reload, loadObj. simpl. destruct (src b) as [u|]; [|done].
  by destruct (falsy (Some u)).
Qed.





Lemma loaded_models_app evs evs' :
  loaded_models (evs ++ evs') = loaded_models evs ++ loaded_models evs'.
Proof.
  induction evs as [|[] evs IH]; simpl; [done|done|done|]. by rewrite IH.
Qed.

Lemma reload_accounted served b :
  models_accounted served b → models_accounted served (reload b).
Proof.
  intros [Hacc _]. split.
  - unfold reload, loadObj. simpl.
    destruct (src b) as [u|]; [destruct (falsy (Some u))|]; simpl;
      rewrite Hacc; destruct (model b); simpl; by rewrite ?app_nil_r.
  - unfold reload, loadObj. simpl.
    destruct (src b) as [u|]; [destruct (falsy (Some u))|]; simpl; by intros [? ?].
Qed.

Lemma run_accounted steps :
  ∀ served b, models_accounted served b → loads_once served steps →
              ∃ served', models_accounted served' (run steps b).
Proof.
  induction steps as [|st steps IH]; intros served b Hacc Honce; [by exists served|].
  destruct st as [v|v|v| |[]|[]|captured c]; simpl in *;
    try (by apply (IH served)).
  - apply (IH served); [|done]. by apply reload_accounted.
  - apply (IH served); [|done].
    by apply (reload_accounted served (mkBehavior _ _ _ _ _ _ _ _ _ _ _ _)).
  - apply (IH served); [|done]. destruct Hacc as [Hacc _]. split; simpl.
    + rewrite Hacc. destruct (model b); simpl; by rewrite ?app_nil_r.
    + by intros [? ?].
  - destruct c as [m|p|e].
    + destruct Honce as [Hnew Honce]. apply (IH (captured :: served)); [|done].
      unfold complete. destruct Hacc as [Hacc Hserved]. case_decide as Hcap.
      * subst. destruct (model b) as [m0|] eqn:Hm.
        { exfalso. apply Hnew, Hserved. eauto. }
        split; simpl.
        -- rewrite loaded_models_app, Hacc. simpl. by rewrite app_nil_r.
        -- intros _. left.
      * split; [done|]. intros Hs. right. by apply Hserved.
    + apply (IH served); [|done]. unfold complete. case_decide; [|done].
      destruct Hacc as [Hacc Hserved]. split; simpl; [|done].
      rewrite loaded_models_app. simpl. by rewrite app_nil_r.
    + apply (IH served); [|done]. unfold complete. case_decide; [|done].
      destruct Hacc as [Hacc Hserved]. split; simpl; [|done].
      rewrite loaded_models_app. simpl. by rewrite app_nil_r.
Qed.

(** X11.  With a loader that calls the success callback of a load at most
    once, no model is dropped without being disposed: at any point of a
    run the models announced by [MODEL_LOAD] are the disposed ones, in
    order, followed by the current model if there is one. *)
Theorem every_replaced_model_is_disposed steps :
  loads_once [] steps →
  loaded_models (emitted (run steps initial))
  = disposed (run steps initial) ++ option_list (model (run steps initial)).
Proof.
  intros Honce.
  destruct (run_accounted steps [] initial) as [served [Hacc _]]; [|done..].
  split; [done|]. by intros [? ?].
Qed.

Lemma every_replaced_model_is_disposed_witness :
  loads_once [] [SetSrc (Some "a.gltf"); LoadGL true;
                 Complete 1 (Loaded (mkGLTF 7 (Some 8) []));
                 SetSrc (Some "b.gltf"); Rerun;
                 Complete 1 (Progress 3);
                 Complete 2 (Loaded (mkGLTF 5 None [6]))]
  ∧ disposed (run [SetSrc (Some "a.gltf"); LoadGL true;
                   Complete 1 (Loaded (mkGLTF 7 (Some 8) []));
                   SetSrc (Some "b.gltf"); Rerun;
                   Complete 1 (Progress 3);
                   Complete 2 (Loaded (mkGLTF 5 None [6]))] initial)
      ++ option_list (model (run [SetSrc (Some "a.gltf"); LoadGL true;
                   Complete 1 (Loaded (mkGLTF 7 (Some 8) []));
                   SetSrc (Some "b.gltf"); Rerun;
                   Complete 1 (Progress 3);
                   Complete 2 (Loaded (mkGLTF 5 None [6]))] initial))
    = [mkGLTF 7 (Some 8) []; mkGLTF 5 None [6]].
Proof.
  assert (loads_once [] [SetSrc (Some "a.gltf"); LoadGL true;
                 Complete 1 (Loaded (mkGLTF 7 (Some 8) []));
                 SetSrc (Some "b.gltf"); Rerun;
                 Complete 1 (Progress 3);
                 Complete 2 (Loaded (mkGLTF 5 None [6]))]) as Honce.
  { simpl. split_and!; [apply not_elem_of_nil| |done].
    intros [?|?%elem_of_nil]%elem_of_cons; done. }
  split; [exact Honce|].
  by rewrite <-(every_replaced_model_is_disposed _ Honce).
Defined.

End GltfOpsFacts.

(** * More facts about the element class *)
Module BackendOpsFacts.
Import Values Backend BackendOps BackendFacts.

Lemma nth_parent_S s k n e :
  elements s !! n = Some e →
  nth_parent s (S k) n = parent e ≫= nth_parent s k.
Proof. intros He. simpl. by rewrite He. Qed.

Lemma nth_parent_element s k n a :
  nth_parent s (S k) n = Some a → ∃ e p, elements s !! n = Some e ∧ parent e = Some p
                                          ∧ nth_parent s k p = Some a.
Proof.
  simpl. destruct (elements s !! n) as [e|]; [|done]. simpl.
  destruct (parent e) as [p|] eqn:Hp; [|done]. simpl. intros Hk. by exists e, p.
Qed.

Lemma nearest_loop_found k : ∀ fuel s p a ae,
  nth_parent s k p = Some a →
  elements s !! a = Some ae → _willBeRendered ae = true →
  (∀ j b be, j < k → nth_parent s j p = Some b → elements s !! b = Some be →
             _willBeRendered be = false) →
  k < fuel →
  nearest_loop fuel (Some p) s = Some (Some a, s).
Proof.
  induction k as [|k IH]; intros fuel s p a ae Hk Ha Hflag Hbelow Hfuel;
    (destruct fuel as [|fuel]; [lia|]); simpl.
  - injection Hk as ->. unfold mbind, M_bind, read. by rewrite Ha, Hflag.
  - apply nth_parent_element in Hk as (pe & q & Hp & Hq & Hk).
    unfold mbind, M_bind, read. rewrite Hp.
    rewrite (Hbelow 0 p pe); [|lia|done..]. rewrite Hq.
    apply (IH fuel s q a ae); [done..| |lia].
    intros j b be Hj Hb. apply (Hbelow (S j)); [lia|]. by rewrite (nth_parent_S _ _ _ pe), Hq.
Qed.

Lemma nearest_loop_none k : ∀ fuel s p r re,
  nth_parent s k p = Some r →
  elements s !! r = Some re → parent re = None →
  (∀ j b be, j ≤ k → nth_parent s j p = Some b → elements s !! b = Some be →
             _willBeRendered be = false) →
  k < fuel →
  nearest_loop fuel (Some p) s = Some (None, s).
Proof.
  induction k as [|k IH]; intros fuel s p r re Hk Hr Hroot Hbelow Hfuel;
    (destruct fuel as [|fuel]; [lia|]); simpl.
  - injection Hk as ->. unfold mbind, M_bind, read. rewrite Hr.
    rewrite (Hbelow 0 r re); [|lia|done..]. rewrite Hroot. by destruct fuel.
  - apply nth_parent_element in Hk as (pe & q & Hp & Hq & Hk).
    unfold mbind, M_bind, read. rewrite Hp.
    rewrite (Hbelow 0 p pe); [|lia|done..]. rewrite Hq.
    apply (IH fuel s q r re); [done..| |lia].
    intros j b be Hj Hb. apply (Hbelow (S j)); [lia|]. by rewrite (nth_parent_S _ _ _ pe), Hq.
Qed.

(** X12.  [_getNearestAncestorThatShouldBeRendered]: when the element
    [k + 1] parent links up has [_willBeRendered] set and none of the [k]
    elements between does, the loop returns that element, and changes
    nothing, within [k + 1] rounds. *)
Theorem nearest_rendered_ancestor_found fuel k s this a ae :
  nth_parent s (S k) this = Some a →
  elements s !! a = Some ae → _willBeRendered ae = true →
  (∀ j b be, 0 < j ≤ k → nth_parent s j this = Some b → elements s !! b = Some be →
             _willBeRendered be = false) →
  k < fuel →
  _getNearestAncestorThatShouldBeRendered fuel this s = Some (Some a, s).
Proof.
  intros Hk Ha Hflag Hbelow Hfuel.
  apply nth_parent_element in Hk as (e & p & He & Hp & Hk).
  unfold _getNearestAncestorThatShouldBeRendered, mbind, M_bind, read.
  rewrite He, Hp. apply (nearest_loop_found k fuel s p a ae); [done..| |done].
  intros j b be Hj Hb. apply (Hbelow (S j)); [lia|]. by rewrite (nth_parent_S _ _ _ e), Hp.
Qed.

(** X13.  [_getNearestAncestorThatShouldBeRendered]: when the parent
    links end at a root after [k] steps and no element on the way has
    [_willBeRendered] set, the result is [false]. *)
Theorem nearest_rendered_ancestor_none fuel k s this r re :
  nth_parent s k this = Some r →
  elements s !! r = Some re → parent re = None →
  (∀ j b be, 0 < j ≤ k → nth_parent s j this = Some b → elements s !! b = Some be →
             _willBeRendered be = false) →
  k ≤ fuel →
  _getNearestAncestorThatShouldBeRendered fuel this s = Some (None, s).
Proof.
  intros Hk Hr Hroot Hbelow Hfuel.
  unfold _getNearestAncestorThatShouldBeRendered, mbind, M_bind, read.
  destruct k as [|k].
  - injection Hk as ->. rewrite Hr, Hroot. by destruct fuel.
  - apply nth_parent_element in Hk as (e & p & He & Hp & Hk).
    rewrite He, Hp. apply (nearest_loop_none k fuel s p r re); [done..| |lia].
    intros j b be Hj Hb. apply (Hbelow (S j)); [lia|].
    by rewrite (nth_parent_S _ _ _ e), Hp.
Qed.

Lemma nearest_loop_ring fuel : ∀ s p,
  (∀ j, ∃ b be, nth_parent s j p = Some b ∧ elements s !! b = Some be
                ∧ _willBeRendered be = false) →
  nearest_loop fuel (Some p) s = None.
Proof.
  induction fuel as [|fuel IH]; intros s p Hring; [done|]. simpl.
  destruct (Hring 0) as (b & pe & [= <-] & Hp & Hflag).
  destruct (Hring 1) as (q & qe & Hq & _).
  apply nth_parent_element in Hq as (pe' & q' & Hp' & Hq' & [= ->]).
  assert (pe' = pe) as -> by congruence.
  unfold mbind, M_bind, read. rewrite Hp, Hflag, Hq'. apply IH.
  intros j. destruct (Hring (S j)) as (b & be & Hb & Hbe).
  exists b, be. split; [|done]. by rewrite (nth_parent_S _ _ _ pe), Hq' in Hb.
Qed.

(** X25.  [_getNearestAncestorThatShouldBeRendered] where the parent links
    never end (they run into a ring) and no element on them has
    [_willBeRendered] set: the loop does not end, whatever number of
    rounds it is given. *)
Theorem nearest_rendered_ancestor_never_ends s this e :
  elements s !! this = Some e →
  (∀ j, ∃ b be, nth_parent s (S j) this = Some b ∧ elements s !! b = Some be
                ∧ _willBeRendered be = false) →
  ∀ fuel, _getNearestAncestorThatShouldBeRendered fuel this s = None.
Proof.
  intros He Hring fuel.
  unfold _getNearestAncestorThatShouldBeRendered, mbind, M_bind, read. rewrite He.
  destruct (Hring 0) as (p & pe & Hp & _).
  rewrite (nth_parent_S _ _ _ e He) in Hp.
  destruct (parent e) as [q|] eqn:Hq; [|done]. injection Hp as ->.
  apply nearest_loop_ring. intros j. destruct (Hring j) as (b & be & Hb & Hbe).
  exists b, be. split; [|done]. by rewrite (nth_parent_S _ _ _ e He), Hq in Hb.
Qed.

(** ** The scene getter along the parent links *)

Lemma scene_write_lookup (m : gmap nat Element) this r b :
  _scene <$> alter (set__scene r) this m !! b
  = if decide (b = this) then (λ _, r) <$> m !! this else _scene <$> m !! b.
Proof.
  case_decide as Hb.
  - subst. rewrite lookup_alter_eq. by destruct (m !! this).
  - by rewrite lookup_alter_ne.
Qed.

Lemma scene_lookup_kept depth this s r s' m :
  scene depth this s = Some (r, s') → is_Some (elements s !! m) → is_Some (elements s' !! m).
Proof.
  intros (_ & _ & Hsame)%scene_frame [e He]. specialize (Hsame m).
  rewrite He in Hsame. destruct (elements s' !! m); [by eexists|done].
Qed.

Lemma scene_finds k : ∀ depth this s sc a ae,
  nth_parent s k this = Some a → elements s !! a = Some ae → _scene ae = Some sc →
  (∀ j b be, j < k → nth_parent s j this = Some b → elements s !! b = Some be →
             _scene be = None ∧ (0 < j → isScene be = false)) →
  k < depth →
  ∃ s', scene depth this s = Some (Some sc, s')
        ∧ ∀ j b, j ≤ k → nth_parent s j this = Some b →
                 _scene <$> elements s' !! b = Some (Some sc).
Proof.
  induction k as [|k IH]; intros depth this s sc a ae Hk Ha Hsc Hbelow Hdepth;
    (destruct depth as [|depth]; [lia|]).
  - injection Hk as ->. exists s. split.
    + simpl. unfold mbind, M_bind, read. by rewrite Ha, Hsc.
    + intros j b Hj Hb. assert (j = 0) as -> by lia. injection Hb as <-.
      by rewrite Ha, <-Hsc.
  - pose proof Hk as Hchain.
    apply nth_parent_element in Hk as (e & p & He & Hp & Hk).
    destruct (Hbelow 0 this e) as [Hnone _]; [lia|done..|].
    assert (∃ pe, elements s !! p = Some pe) as [pe Hpe].
    { destruct k as [|k]; [injection Hk as ->; eauto|].
      apply nth_parent_element in Hk as (pe & ? & ? & _). eauto. }
    assert (nth_parent s 1 this = Some p) as Hone.
    { by rewrite (nth_parent_S _ _ _ e), Hp. }
    destruct (_scene pe) as [sc'|] eqn:Hpsc.
    + assert (k = 0) as ->.
      { destruct k as [|k]; [done|].
        destruct (Hbelow 1 p pe) as [? _]; [lia|done..|congruence]. }
      injection Hk as ->. assert (pe = ae) as -> by congruence.
      assert (sc' = sc) as -> by congruence.
      eexists. split.
      * simpl. unfold mbind, M_bind, read. rewrite He, Hnone, Hp, Ha, Hpsc. done.
      * intros j b Hj Hb. simpl. rewrite scene_write_lookup. case_decide as Hthis.
        -- by rewrite He.
        -- destruct j as [|[|j]]; [by injection Hb|by rewrite Hone in Hb; injection Hb as <-; rewrite Ha, <-Hsc|lia].
    + assert (0 < k) as Hpos.
      { destruct k as [|k]; [|lia]. injection Hk as ->. congruence. }
      destruct (Hbelow 1 p pe) as [_ Hnot]; [lia|done..|]. specialize (Hnot ltac:(lia)).
      destruct (IH depth p s sc a ae) as (s1 & Hrun & Hcached); [done..| |lia|].
      { intros j b be Hj Hb Hbe.
        destruct (Hbelow (S j) b be) as [? Hs]; [lia| |done|].
        - by rewrite (nth_parent_S _ _ _ e), Hp.
        - split; [done|]. intros _. apply Hs. lia. }
      eexists. split.
      * simpl. unfold mbind, M_bind, read. rewrite He, Hnone, Hp, Hpe, Hpsc, Hnot.
        destruct depth as [|depth]; [lia|]. rewrite Hrun. done.
      * intros j b Hj Hb. simpl. rewrite scene_write_lookup. case_decide as Hthis.
        -- destruct (scene_lookup_kept _ _ _ _ _ this Hrun) as [e1 He1]; [by eexists|].
           by rewrite He1.
        -- destruct j as [|j]; [by injection Hb|].
           apply (Hcached j); [lia|]. by rewrite (nth_parent_S _ _ _ e), Hp in Hb.
Qed.

(** X14.  The [scene] getter: when the nearest element up the parent
    links that has a scene in [_scene] (as a Scene has itself) is [k]
    links up, and no element between is a Scene, the getter returns that
    scene, and afterwards every element on the way, the receiver included,
    has it cached in [_scene]; no other field of any element, no Three.js
    object and no render request changes. *)
Theorem scene_found_and_cached_on_the_way depth k this s sc a ae :
  nth_parent s k this = Some a → elements s !! a = Some ae → _scene ae = Some sc →
  (∀ j b be, j < k → nth_parent s j this = Some b → elements s !! b = Some be →
             _scene be = None ∧ (0 < j → isScene be = false)) →
  k < depth →
  ∃ s', scene depth this s = Some (Some sc, s')
        ∧ (∀ j b, j ≤ k → nth_parent s j this = Some b →
                  _scene <$> elements s' !! b = Some (Some sc))
        ∧ same_elements s s' ∧ objects s' = objects s ∧ to_render s' = to_render s.
Proof.
  intros Hk Ha Hsc Hbelow Hdepth.
  destruct (scene_finds k depth this s sc a ae) as (s' & Hrun & Hcached); [done..|].
  exists s'. destruct (scene_frame _ _ _ _ _ Hrun) as (? & ? & ?). done.
Qed.

(** X15.  The [scene] getter outside a scene: when the parent links end
    at a root, and no element from the receiver to the root has a cached
    scene or is a Scene, the getter returns null and the store is the
    same. *)
Theorem scene_null_outside_a_scene depth k this s r re :
  nth_parent s k this = Some r → elements s !! r = Some re → parent re = None →
  (∀ j b be, j ≤ k → nth_parent s j this = Some b → elements s !! b = Some be →
             _scene be = None ∧ (0 < j → isScene be = false)) →
  k < depth →
  scene depth this s = Some (None, s).
Proof.
  revert depth this. induction k as [|k IH]; intros depth this Hk Hr Hroot Hbelow Hdepth;
    (destruct depth as [|depth]; [lia|]).
  - injection Hk as ->. destruct (Hbelow 0 r re) as [Hnone _]; [lia|done..|].
    simpl. unfold mbind, M_bind, read. by rewrite Hr, Hnone, Hroot.
  - apply nth_parent_element in Hk as (e & p & He & Hp & Hk).
    destruct (Hbelow 0 this e) as [Hnone _]; [lia|done..|].
    assert (∃ pe, elements s !! p = Some pe) as [pe Hpe].
    { destruct k as [|k]; [injection Hk as ->; eauto|].
      apply nth_parent_element in Hk as (pe & ? & ? & _). eauto. }
    destruct (Hbelow 1 p pe) as [Hpnone Hnot]; [lia| |done|].
    { by rewrite (nth_parent_S _ _ _ e), Hp. }
    specialize (Hnot ltac:(lia)).
    simpl. unfold mbind, M_bind, read. rewrite He, Hnone, Hp, Hpe, Hpnone, Hnot.
    rewrite (IH depth p); [|done..| |lia].
    + unfold update_element, mret, M_ret. do 2 f_equal. destruct s as [els objs tr].
      simpl in *. f_equal. apply map_eq. intros m.
      destruct (decide (m = this)) as [->|Hm].
      * rewrite lookup_alter_eq, He. simpl. f_equal. destruct e. simpl in *. by subst.
      * by rewrite lookup_alter_ne.
    + intros j b be Hj Hb Hbe.
      destruct (Hbelow (S j) b be) as [? Hs]; [lia| |done|].
      * by rewrite (nth_parent_S _ _ _ e), Hp.
      * split; [done|]. intros _. apply Hs. lia.
Qed.

(** X26.  The [scene] getter where the parent links never end and no
    element on them has a cached scene or is a Scene: the recursion does
    not end, whatever depth the call stack allows. *)
Theorem scene_never_ends_in_a_ring depth : ∀ s this,
  (∀ j, ∃ b be, nth_parent s j this = Some b ∧ elements s !! b = Some be
                ∧ _scene be = None ∧ isScene be = false) →
  scene depth this s = None.
Proof.
  induction depth as [|depth IH]; intros s this Hring; [done|].
  destruct (Hring 0) as (b & e & [= <-] & He & Hnone & _).
  destruct (Hring 1) as (p & pe & Hp & Hpe & Hpnone & Hpnot).
  rewrite (nth_parent_S _ _ _ e He) in Hp.
  destruct (parent e) as [q|] eqn:Hq; [|done]. injection Hp as ->.
  simpl. unfold mbind, M_bind, read. rewrite He, Hnone, Hq, Hpe, Hpnone, Hpnot.
  rewrite IH; [done|]. intros j. destruct (Hring (S j)) as (b & be & Hb & Hbe).
  exists b, be. split; [|done]. by rewrite (nth_parent_S _ _ _ e He), Hq in Hb.
Qed.

(** ** What every method keeps, from what its steps keep *)

Section composition.
Variable R : state → state → Prop.
Hypothesis R_refl : ∀ s, R s s.
Hypothesis R_trans : ∀ s1 s2 s3, R s1 s2 → R s2 s3 → R s1 s3.
Hypothesis R_scene : ∀ depth this, respects R (scene depth this).
Hypothesis R_three : ∀ this, respects R (three this).
Hypothesis R_threeCSS : ∀ this, respects R (threeCSS this).
Hypothesis R_glLoaded : ∀ this, respects R (update_element this (set_glLoaded true)).
Hypothesis R_cssLoaded : ∀ this, respects R (update_element this (set_cssLoaded true)).
Hypothesis R_update_object : ∀ o f,
  (∀ ob, kind (f ob) = kind ob ∧ owner (f ob) = owner ob) →
  respects R (update_object o f).
Hypothesis R_object_add : ∀ p c, respects R (object_add p c).
Hypothesis R_needsUpdate : ∀ this, respects R (needsUpdate this).

Lemma respects_ret {A} (a : A) : respects R (mret a).
Proof using R_refl. intros s a' s' [= _ <-]. apply R_refl. Qed.

Lemma respects_bind {A B} (m : M A) (f : A → M B) :
  respects R m → (∀ a, respects R (f a)) → respects R (m ≫= f).
Proof using R_trans.
  intros Hm Hf s b s' (a & s1 & H1 & H2)%bind_Some.
  eapply R_trans; [by eapply Hm|by eapply Hf].
Qed.

Lemma respects_read o : respects R (read o).
Proof using R_refl. intros s e s' [_ ->]%read_Some. apply R_refl. Qed.

Lemma respects_scene_flag flag depth this : respects R (scene_flag flag depth this).
Proof using R_refl R_trans R_scene.
  apply respects_bind; [apply R_scene|]. intros [sc|]; [|apply respects_ret].
  apply respects_bind; [apply R_scene|]. intros [sc'|]; [|done].
  apply respects_bind; [apply respects_read|]. intros se. apply respects_ret.
Qed.

Lemma respects_connect getter depth this :
  (∀ n, respects R (getter n)) → respects R (connect getter depth this).
Proof using R_refl R_trans R_scene R_object_add R_needsUpdate.
  intros Hgetter.
  assert (∀ p, respects R (po ← getter p; o ← getter this; object_add po o)) as Hlink.
  { intros p. apply respects_bind; [done|]. intros po.
    apply respects_bind; [done|]. intros o. apply R_object_add. }
  apply respects_bind; [apply respects_read|]. intros e.
  apply respects_bind.
  { destruct (_isPossiblyDistributedToShadowRoot e); [apply R_scene|apply respects_ret]. }
  intros sc. apply respects_bind; [|intros []; apply R_needsUpdate].
  destruct (_ && _).
  - destruct (_distributedParent e); [apply Hlink|apply respects_ret].
  - destruct (_shadowRootParent e); [apply Hlink|].
    destruct (parent e); [apply Hlink|apply respects_ret].
Qed.

Lemma respects__loadGL depth this : respects R (_loadGL depth this).
Proof using All.
  apply respects_bind; [apply respects_scene_flag|]. intros active.
  destruct (negb active); [apply respects_ret|].
  apply respects_bind; [apply respects_read|]. intros e.
  destruct (_glLoaded e); [apply respects_ret|].
  apply respects_bind; [apply R_glLoaded|]. intros [].
  apply respects_bind; [apply R_three|]. intros o.
  apply respects_bind; [by apply R_update_object|]. intros [].
  apply respects_bind; [by apply respects_connect|]. intros [].
  apply respects_bind; [apply R_needsUpdate|]. intros []. apply respects_ret.
Qed.

Lemma respects__loadCSS depth this : respects R (_loadCSS depth this).
Proof using All.
  apply respects_bind; [apply respects_scene_flag|]. intros active.
  destruct (negb active); [apply respects_ret|].
  apply respects_bind; [apply respects_read|]. intros e.
  destruct (_cssLoaded e); [apply respects_ret|].
  apply respects_bind; [apply R_cssLoaded|]. intros [].
  apply respects_bind; [apply R_threeCSS|]. intros o.
  apply respects_bind; [by apply R_update_object|]. intros [].
  apply respects_bind; [by apply respects_connect|]. intros [].
  apply respects_bind; [apply R_needsUpdate|]. intros []. apply respects_ret.
Qed.

Lemma respects__updateScale this : respects R (_updateScale this).
Proof using R_refl R_trans R_three R_threeCSS R_update_object.
  apply respects_bind; [apply respects_read|]. intros e.
  apply respects_bind; [apply R_three|]. intros o.
  apply respects_bind; [by apply R_update_object|]. intros [].
  apply respects_bind; [apply R_threeCSS|]. intros oc. by apply R_update_object.
Qed.

Lemma respects_exec o : respects R (exec o).
Proof using All.
  destruct o as [this|this|this|depth this|depth this|this]; simpl.
  - apply respects_bind; [apply R_three|]. intros ?. apply respects_ret.
  - apply respects_bind; [apply R_threeCSS|]. intros ?. apply respects_ret.
  - apply respects__updateScale.
  - apply respects_bind; [apply respects__loadGL|]. intros ?. apply respects_ret.
  - apply respects_bind; [apply respects__loadCSS|]. intros ?. apply respects_ret.
  - apply R_needsUpdate.
Qed.

Lemma respects_exec_all ops : respects R (exec_all ops).
Proof using All.
  induction ops as [|o ops IH]; simpl; [apply respects_ret|].
  apply respects_bind; [apply respects_exec|]. by intros [].
Qed.
End composition.

(** ** One object per element and backend *)

Lemma mirrored_elements s s' :
  objects s' = objects s →
  (∀ n e', elements s' !! n = Some e' →
           ∃ e, elements s !! n = Some e ∧ __three e' = __three e
                ∧ __threeCSS e' = __threeCSS e) →
  mirrored s → mirrored s'.
Proof.
  intros Hobj Hel [H3 Hc]. split; intros n e' o He' Ho; rewrite Hobj;
    destruct (Hel n e' He') as (e & He & Heq3 & Heqc).
  - apply (H3 n e); [done|congruence].
  - apply (Hc n e); [done|congruence].
Qed.

Lemma mirrored_alter s this f :
  (∀ e, __three (f e) = __three e ∧ __threeCSS (f e) = __threeCSS e) →
  mirrored s → mirrored (mkState (alter f this (elements s)) (objects s) (to_render s)).
Proof.
  intros Hf. apply mirrored_elements; [done|]. simpl. intros n e' He'.
  destruct (decide (n = this)) as [->|Hn].
  - rewrite lookup_alter_eq in He'. destruct (elements s !! this) as [e|]; [|done].
    injection He' as <-. exists e. by destruct (Hf e).
  - rewrite lookup_alter_ne in He' by done. by exists e'.
Qed.

Lemma mirrored_objects s objs :
  (∀ o ob, objects s !! o = Some ob →
           ∃ ob', objs !! o = Some ob' ∧ owner ob' = owner ob ∧ kind ob' = kind ob) →
  mirrored s → mirrored (mkState (elements s) objs (to_render s)).
Proof.
  intros Hobjs [H3 Hc]. split; simpl; intros n e o He Ho.
  - destruct (H3 n e o He Ho) as (ob & Hob & ? & ?).
    destruct (Hobjs o ob Hob) as (ob' & ? & ? & ?). exists ob'. split_and!; congruence.
  - destruct (Hc n e o He Ho) as (ob & Hob & ? & ?).
    destruct (Hobjs o ob Hob) as (ob' & ? & ? & ?). exists ob'. split_and!; congruence.
Qed.

Lemma alter_keeps (objs : gmap nat Object3D) f q o (ob : Object3D) :
  (∀ ob, kind (f ob) = kind ob ∧ owner (f ob) = owner ob) →
  (∃ ob1, objs !! o = Some ob1 ∧ owner ob1 = owner ob ∧ kind ob1 = kind ob) →
  ∃ ob', alter f q objs !! o = Some ob' ∧ owner ob' = owner ob ∧ kind ob' = kind ob.
Proof.
  intros Hf (ob1 & Hob & Ho & Hk). destruct (decide (o = q)) as [->|Hq].
  - rewrite lookup_alter_eq, Hob. simpl. exists (f ob1). destruct (Hf ob1).
    split; [done|]. split; congruence.
  - rewrite lookup_alter_ne by done. by exists ob1.
Qed.

Lemma mirrored_scene depth this : respects keeps_mirrored (scene depth this).
Proof.
  intros s r s' (Hobj & _ & Hsame)%scene_frame. unfold keeps_mirrored.
  apply mirrored_elements; [done|].
  intros n e' He'. specialize (Hsame n). rewrite He' in Hsame.
  destruct (elements s !! n) as [e|]; [|done]. apply (inj Some) in Hsame.
  exists e. split; [done|]. destruct e, e'. simpl in *. by injection Hsame.
Qed.

Lemma mirrored_getter (k : object_kind) this s e :
  elements s !! this = Some e → mirrored s →
  mirrored (mkState
              (<[this := match k with
                         | WebGL => set__three (Some (fresh (dom (objects s)))) e
                         | CSS => set__threeCSS (Some (fresh (dom (objects s)))) e
                         end]> (elements s))
              (<[fresh (dom (objects s)) := mkObject3D k this true (mkXYZ 1 1 1)%float None []]>
                 (objects s))
              (to_render s)).
Proof.
  intros He [H3 Hc].
  assert (objects s !! fresh (dom (objects s)) = None) as Hfresh.
  { apply not_elem_of_dom, is_fresh. }
  split; simpl; intros n e' o He' Ho.
  - destruct (decide (n = this)) as [->|Hn].
    + rewrite lookup_insert_eq in He'. injection He' as <-. destruct k; simpl in Ho.
      * injection Ho as <-. rewrite lookup_insert_eq. by eexists.
      * destruct (H3 this e o He Ho) as (ob & Hob & ? & ?). exists ob.
        rewrite lookup_insert_ne; [done|]. intros <-. congruence.
    + rewrite lookup_insert_ne in He' by done.
      destruct (H3 n e' o He' Ho) as (ob & Hob & ? & ?). exists ob.
      rewrite lookup_insert_ne; [done|]. intros <-. congruence.
  - destruct (decide (n = this)) as [->|Hn].
    + rewrite lookup_insert_eq in He'. injection He' as <-. destruct k; simpl in Ho.
      * destruct (Hc this e o He Ho) as (ob & Hob & ? & ?). exists ob.
        rewrite lookup_insert_ne; [done|]. intros <-. congruence.
      * injection Ho as <-. rewrite lookup_insert_eq. by eexists.
    + rewrite lookup_insert_ne in He' by done.
      destruct (Hc n e' o He' Ho) as (ob & Hob & ? & ?). exists ob.
      rewrite lookup_insert_ne; [done|]. intros <-. congruence.
Qed.

Lemma mirrored_three this : respects keeps_mirrored (three this).
Proof.
  intros s o s' Hrun Hm.
  destruct (elements s !! this) as [e|] eqn:He.
  - destruct (__three e) as [o'|] eqn:Ho.
    + rewrite (three_cached _ _ _ _ He Ho) in Hrun. by injection Hrun as _ <-.
    + rewrite (three_created _ _ _ He Ho) in Hrun. injection Hrun as _ <-.
      by apply (mirrored_getter WebGL).
  - unfold three, mbind, M_bind, read in Hrun. by rewrite He in Hrun.
Qed.

Lemma mirrored_threeCSS this : respects keeps_mirrored (threeCSS this).
Proof.
  intros s o s' Hrun Hm.
  destruct (elements s !! this) as [e|] eqn:He.
  - destruct (__threeCSS e) as [o'|] eqn:Ho.
    + rewrite (threeCSS_cached _ _ _ _ He Ho) in Hrun. by injection Hrun as _ <-.
    + rewrite (threeCSS_created _ _ _ He Ho) in Hrun. injection Hrun as _ <-.
      by apply (mirrored_getter CSS).
  - unfold threeCSS, mbind, M_bind, read in Hrun. by rewrite He in Hrun.
Qed.

Lemma mirrored_object_add p c : respects keeps_mirrored (object_add p c).
Proof.
  intros s [] s' [= <-]. unfold keeps_mirrored. apply mirrored_objects.
  intros o ob Hob. apply alter_keeps; [done|]. apply alter_keeps; [done|].
  destruct (objects s !! c ≫= obj_parent); [|by exists ob].
  apply alter_keeps; [done|]. by exists ob.
Qed.

Lemma exec_all_mirrored ops s s' :
  mirrored s → exec_all ops s = Some (tt, s') → mirrored s'.
Proof.
  intros Hm Hrun. revert Hm.
  refine (respects_exec_all keeps_mirrored _ _ mirrored_scene mirrored_three
            mirrored_threeCSS _ _ _ mirrored_object_add _ ops s tt s' Hrun).
  - by intros ? ?.
  - intros s1 s2 s3 H12 H23 ?. by apply H23, H12.
  - intros this s0 [] s0' [= <-]. unfold keeps_mirrored. by apply mirrored_alter.
  - intros this s0 [] s0' [= <-]. unfold keeps_mirrored. by apply mirrored_alter.
  - intros o f Hf s0 [] s0' [= <-]. unfold keeps_mirrored. apply mirrored_objects.
    intros o' ob Hob. apply alter_keeps; [done|]. by exists ob.
  - intros this s0 [] s0' [= <-] Hm.
    apply (mirrored_alter s0 this (set_willBeRendered true)) in Hm; [|done].
    destruct Hm as [H3 Hc]. by split.
Qed.

(** X16.  From a store in which every object an element holds was made
    for that element, whatever sequence of [three], [threeCSS],
    [_updateScale], [_loadGL], [_loadCSS] and [needsUpdate] calls returns:
    no two elements hold the same Three.js object, the WebGL object and
    the CSS object of an element differ, and each is of the kind its
    getter makes. *)
Theorem backend_objects_never_shared ops s s' :
  mirrored s → exec_all ops s = Some (tt, s') →
  (∀ n m e e' o, elements s' !! n = Some e → elements s' !! m = Some e' →
                 __three e = Some o ∨ __threeCSS e = Some o →
                 __three e' = Some o ∨ __threeCSS e' = Some o → n = m)
  ∧ (∀ n e o, elements s' !! n = Some e → __three e = Some o → __threeCSS e ≠ Some o)
  ∧ (∀ n e o, elements s' !! n = Some e → __three e = Some o →
              kind <$> objects s' !! o = Some WebGL)
  ∧ (∀ n e o, elements s' !! n = Some e → __threeCSS e = Some o →
              kind <$> objects s' !! o = Some CSS).
Proof.
  intros Hm Hrun. destruct (exec_all_mirrored ops s s' Hm Hrun) as [H3 Hc].
  split_and!.
  - intros n m e e' o He He' Ho Ho'.
    assert (∃ ob, objects s' !! o = Some ob ∧ owner ob = n) as (ob & Hob & <-).
    { destruct Ho as [Ho|Ho]; [destruct (H3 n e o He Ho) as (ob & ? & ? & _)
                               |destruct (Hc n e o He Ho) as (ob & ? & ? & _)]; eauto. }
    destruct Ho' as [Ho'|Ho']; [destruct (H3 m e' o He' Ho') as (ob' & ? & ? & _)
                                |destruct (Hc m e' o He' Ho') as (ob' & ? & ? & _)];
      congruence.
  - intros n e o He Ho Ho'.
    destruct (H3 n e o He Ho) as (ob & ? & _ & ?).
    destruct (Hc n e o He Ho') as (ob' & ? & _ & ?). congruence.
  - intros n e o He Ho. destruct (H3 n e o He Ho) as (ob & -> & _ & <-). done.
  - intros n e o He Ho. destruct (Hc n e o He Ho) as (ob & -> & _ & <-). done.
Qed.

(** ** Loading twice *)

Lemma steady_element_refl e : steady_element e e.
Proof. by split. Qed.

Lemma steady_element_trans e1 e2 e3 :
  steady_element e1 e2 → steady_element e2 e3 → steady_element e1 e3.
Proof. intros [] []. split; first [congruence|auto]. Qed.

Lemma steady_refl s : steady s s.
Proof. intros m e He. exists e. split; [done|apply steady_element_refl]. Qed.

Lemma steady_trans s1 s2 s3 : steady s1 s2 → steady s2 s3 → steady s1 s3.
Proof.
  intros H12 H23 m e He.
  destruct (H12 m e He) as (e2 & He2 & ?).
  destruct (H23 m e2 He2) as (e3 & He3 & ?).
  exists e3. split; [done|by eapply steady_element_trans].
Qed.

Lemma steady_alter s this f :
  (∀ e, steady_element e (f e)) →
  steady s (mkState (alter f this (elements s)) (objects s) (to_render s)).
Proof.
  intros Hf m e He. simpl. destruct (decide (m = this)) as [->|Hm].
  - rewrite lookup_alter_eq, He. simpl. by exists (f e).
  - rewrite lookup_alter_ne by done. exists e. split; [done|apply steady_element_refl].
Qed.

Lemma steady_objects s objs tr : steady s (mkState (elements s) objs tr).
Proof. intros m e He. exists e. split; [done|apply steady_element_refl]. Qed.

(** The getter changes an element only by caching its result where
    nothing was cached. *)
Lemma scene_caches_result depth : ∀ this s r s',
  scene depth this s = Some (r, s') →
  ∀ m e, elements s !! m = Some e →
         ∃ e', elements s' !! m = Some e' ∧ set__scene None e' = set__scene None e
               ∧ (_scene e' = _scene e ∨ (_scene e = None ∧ _scene e' = r)).
Proof.
  induction depth as [|depth IH]; intros this s r s' Hrun; [done|].
  simpl in Hrun. apply bind_Some in Hrun as (e0 & ? & [He0 ->]%read_Some & Hrun).
  destruct (_scene e0) as [sc|] eqn:Hsc0.
  { injection Hrun as <- <-. intros m e He. exists e. auto. }
  destruct (parent e0) as [p|].
  2:{ injection Hrun as <- <-. intros m e He. exists e. auto. }
  apply bind_Some in Hrun as (pe & ? & [Hpe ->]%read_Some & Hrun).
  apply bind_Some in Hrun as (r1 & s1 & Hr1 & Hrun).
  apply bind_Some in Hrun as ([] & s2 & [= <-] & [= <- <-]).
  assert (∀ m e, elements s !! m = Some e →
                 ∃ e', elements s1 !! m = Some e' ∧ set__scene None e' = set__scene None e
                       ∧ (_scene e' = _scene e ∨ (_scene e = None ∧ _scene e' = r1)))
    as Hs1.
  { destruct (_scene pe).
    - injection Hr1 as <- <-. intros m e He. exists e. auto.
    - destruct (isScene pe).
      + injection Hr1 as <- <-. intros m e He. exists e. auto.
      + by apply (IH p). }
  intros m e He. destruct (Hs1 m e He) as (e1 & He1 & Hsame & Hcache). simpl.
  destruct (decide (m = this)) as [->|Hm].
  - rewrite lookup_alter_eq, He1. simpl. exists (set__scene r1 e1). split; [done|].
    split; [by destruct e1, e; simpl in *|]. right. split; [congruence|done].
  - rewrite lookup_alter_ne by done. by exists e1.
Qed.

Lemma steady_scene depth this : respects steady (scene depth this).
Proof.
  intros s r s' Hrun m e He.
  destruct (scene_caches_result _ _ _ _ _ Hrun m e He) as (e' & He' & Hsame & Hcache).
  exists e'. split; [done|].
  destruct e, e'. simpl in *. injection Hsame as -> -> -> -> -> -> -> -> -> -> -> -> ->.
  split; simpl; try done. intros sc Hsc. destruct Hcache as [?|[? _]]; congruence.
Qed.

Lemma steady_three this : respects steady (three this).
Proof.
  intros s o s' Hrun.
  destruct (elements s !! this) as [e|] eqn:He.
  - destruct (__three e) as [o'|] eqn:Ho.
    + rewrite (three_cached _ _ _ _ He Ho) in Hrun. injection Hrun as _ <-.
      apply steady_refl.
    + rewrite (three_created _ _ _ He Ho) in Hrun. injection Hrun as _ <-.
      intros m e1 He1. simpl. destruct (decide (m = this)) as [->|Hm].
      * rewrite lookup_insert_eq. eexists. split; [done|].
        assert (e1 = e) as -> by congruence. split; simpl; try done. congruence.
      * rewrite lookup_insert_ne by done. exists e1.
        split; [done|apply steady_element_refl].
  - unfold three, mbind, M_bind, read in Hrun. by rewrite He in Hrun.
Qed.

Lemma steady_threeCSS this : respects steady (threeCSS this).
Proof.
  intros s o s' Hrun.
  destruct (elements s !! this) as [e|] eqn:He.
  - destruct (__threeCSS e) as [o'|] eqn:Ho.
    + rewrite (threeCSS_cached _ _ _ _ He Ho) in Hrun. injection Hrun as _ <-.
      apply steady_refl.
    + rewrite (threeCSS_created _ _ _ He Ho) in Hrun. injection Hrun as _ <-.
      intros m e1 He1. simpl. destruct (decide (m = this)) as [->|Hm].
      * rewrite lookup_insert_eq. eexists. split; [done|].
        assert (e1 = e) as -> by congruence. split; simpl; try done. congruence.
      * rewrite lookup_insert_ne by done. exists e1.
        split; [done|apply steady_element_refl].
  - unfold threeCSS, mbind, M_bind, read in Hrun. by rewrite He in Hrun.
Qed.

Lemma steady_glLoaded this : respects steady (update_element this (set_glLoaded true)).
Proof. intros s [] s' [= <-]. apply steady_alter. by split. Qed.

Lemma steady_cssLoaded this : respects steady (update_element this (set_cssLoaded true)).
Proof. intros s [] s' [= <-]. apply steady_alter. by split. Qed.

Lemma steady_update_object o f : respects steady (update_object o f).
Proof. intros s [] s' [= <-]. apply steady_objects. Qed.

Lemma steady_object_add p c : respects steady (object_add p c).
Proof. intros s [] s' [= <-]. apply steady_objects. Qed.

Lemma steady_needsUpdate this : respects steady (needsUpdate this).
Proof.
  intros s [] s' [= <-].
  eapply steady_trans; [apply (steady_alter s this (set_willBeRendered true)); by split|].
  apply steady_objects.
Qed.

Lemma steady_connect getter depth this :
  (∀ n, respects steady (getter n)) → respects steady (connect getter depth this).
Proof.
  apply respects_connect.
  - apply steady_refl.
  - apply steady_trans.
  - apply steady_scene.
  - apply steady_object_add.
  - apply steady_needsUpdate.
Qed.

Lemma scene_cached_after depth this s sc s' :
  scene depth this s = Some (Some sc, s') →
  ∃ e', elements s' !! this = Some e' ∧ _scene e' = Some sc.
Proof.
  intros Hrun. destruct depth as [|depth]; [done|].
  simpl in Hrun. apply bind_Some in Hrun as (e0 & ? & [He0 ->]%read_Some & Hrun).
  destruct (_scene e0) as [sc0|] eqn:Hsc0.
  { injection Hrun as <- <-. by exists e0. }
  destruct (parent e0) as [p|]; [|done].
  apply bind_Some in Hrun as (pe & ? & [Hpe ->]%read_Some & Hrun).
  apply bind_Some in Hrun as (r1 & s1 & Hr1 & Hrun).
  apply bind_Some in Hrun as ([] & s2 & [= <-] & [= -> <-]).
  assert (is_Some (elements s1 !! this)) as [e1 He1].
  { destruct (_scene pe).
    - injection Hr1 as _ <-. by eexists.
    - destruct (isScene pe).
      + injection Hr1 as _ <-. by eexists.
      + eapply scene_lookup_kept; [done|by eexists]. }
  simpl. rewrite lookup_alter_eq, He1. simpl. by eexists.
Qed.

Lemma scene_flag_again flag depth this s sc e se :
  0 < depth →
  elements s !! this = Some e → _scene e = Some sc →
  elements s !! sc = Some se →
  scene_flag flag depth this s = Some (flag se, s).
Proof.
  intros Hdepth He Hsc Hse. destruct depth as [|depth]; [lia|].
  assert (scene (S depth) this s = Some (Some sc, s)) as Hscene.
  { simpl. unfold mbind, M_bind, read. by rewrite He, Hsc. }
  unfold scene_flag, mbind, M_bind. rewrite Hscene, Hscene. unfold read. by rewrite Hse.
Qed.

Lemma scene_flag_steady flag depth this s s1 :
  scene_flag flag depth this s = Some (true, s1) →
  0 < depth ∧ steady s s1
  ∧ ∃ sc e se, elements s1 !! this = Some e ∧ _scene e = Some sc
               ∧ elements s1 !! sc = Some se ∧ flag se = true.
Proof.
  intros Hrun. unfold scene_flag in Hrun.
  apply bind_Some in Hrun as (r & sA & HA & Hrun).
  destruct r as [sc|]; [|done].
  apply bind_Some in Hrun as (r' & sB & HB & Hrun).
  rewrite (scene_again _ _ _ _ _ HA) in HB. injection HB as <- <-.
  apply bind_Some in Hrun as (se & ? & [Hse ->]%read_Some & [= Hflag <-]).
  split; [destruct depth; [done|lia]|]. split; [by eapply steady_scene|].
  destruct (scene_cached_after _ _ _ _ _ HA) as (e & He & Hsc).
  by exists sc, e, se.
Qed.

(** X17.  After a [_loadGL] that returned true, the next [_loadGL] on the
    same element returns false and leaves the store as it is. *)
Theorem loadGL_loads_once depth this s s' :
  _loadGL depth this s = Some (true, s') →
  _loadGL depth this s' = Some (false, s').
Proof.
  intros Hrun. unfold _loadGL in Hrun.
  apply bind_Some in Hrun as (active & s1 & Hflag & Hrun).
  destruct active; [|done]. simpl in Hrun.
  apply scene_flag_steady in Hflag as (Hdepth & _ & sc & e & se & He & Hsc & Hse & Hon).
  apply bind_Some in Hrun as (e0 & ? & [He0 ->]%read_Some & Hrun).
  assert (e0 = e) as -> by congruence.
  destruct (_glLoaded e) eqn:Hloaded; [done|].
  apply bind_Some in Hrun as ([] & s2 & [= <-] & Hrun).
  assert (steady (mkState (alter (set_glLoaded true) this (elements s1)) (objects s1)
                     (to_render s1)) s') as Hsettled.
  { cbv beta in Hrun.
    match type of Hrun with
    | ?m _ = _ => enough (respects steady m) as Hm by exact (Hm _ _ _ Hrun)
    end.
    apply (respects_bind steady steady_trans); [apply steady_three|]. intros o.
    apply (respects_bind steady steady_trans); [apply steady_update_object|].
    intros [].
    apply (respects_bind steady steady_trans); [apply steady_connect, steady_three|].
    intros [].
    apply (respects_bind steady steady_trans); [apply steady_needsUpdate|].
    intros []. apply (respects_ret steady steady_refl). }
  destruct (Hsettled this (set_glLoaded true e)) as (e' & He' & Hkept).
  { simpl. by rewrite lookup_alter_eq, He. }
  pose proof (kept_glLoaded _ _ Hkept eq_refl) as Hgl.
  pose proof (kept_scene _ _ Hkept) as Hcache.
  destruct (Hsettled sc (if decide (sc = this) then set_glLoaded true se else se))
    as (se' & Hse' & Hskept).
  { simpl. case_decide as Hthis.
    - subst. by rewrite lookup_alter_eq, Hse.
    - by rewrite lookup_alter_ne. }
  pose proof (kept_webgl _ _ Hskept) as Hweb.
  unfold _loadGL, mbind, M_bind.
  rewrite (scene_flag_again webgl depth this s' sc e' se'); [|done|done|by apply Hcache|done].
  assert (webgl se' = true) as ->.
  { rewrite Hweb. by case_decide. }
  simpl. unfold read. rewrite He', Hgl; done.
Qed.

(** X18.  After a [_loadCSS] that returned true, the next [_loadCSS] on
    the same element returns false and leaves the store as it is. *)
Theorem loadCSS_loads_once depth this s s' :
  _loadCSS depth this s = Some (true, s') →
  _loadCSS depth this s' = Some (false, s').
Proof.
  intros Hrun. unfold _loadCSS in Hrun.
  apply bind_Some in Hrun as (active & s1 & Hflag & Hrun).
  destruct active; [|done]. simpl in Hrun.
  apply scene_flag_steady in Hflag as (Hdepth & _ & sc & e & se & He & Hsc & Hse & Hon).
  apply bind_Some in Hrun as (e0 & ? & [He0 ->]%read_Some & Hrun).
  assert (e0 = e) as -> by congruence.
  destruct (_cssLoaded e) eqn:Hloaded; [done|].
  apply bind_Some in Hrun as ([] & s2 & [= <-] & Hrun).
  assert (steady (mkState (alter (set_cssLoaded true) this (elements s1)) (objects s1)
                     (to_render s1)) s') as Hsettled.
  { cbv beta in Hrun.
    match type of Hrun with
    | ?m _ = _ => enough (respects steady m) as Hm by exact (Hm _ _ _ Hrun)
    end.
    apply (respects_bind steady steady_trans); [apply steady_threeCSS|]. intros o.
    apply (respects_bind steady steady_trans); [apply steady_update_object|].
    intros [].
    apply (respects_bind steady steady_trans); [apply steady_connect, steady_threeCSS|].
    intros [].
    apply (respects_bind steady steady_trans); [apply steady_needsUpdate|].
    intros []. apply (respects_ret steady steady_refl). }
  destruct (Hsettled this (set_cssLoaded true e)) as (e' & He' & Hkept).
  { simpl. by rewrite lookup_alter_eq, He. }
  pose proof (kept_cssLoaded _ _ Hkept eq_refl) as Hcss.
  pose proof (kept_scene _ _ Hkept) as Hcache.
  destruct (Hsettled sc (if decide (sc = this) then set_cssLoaded true se else se))
    as (se' & Hse' & Hskept).
  { simpl. case_decide as Hthis.
    - subst. by rewrite lookup_alter_eq, Hse.
    - by rewrite lookup_alter_ne. }
  pose proof (kept_enableCss _ _ Hskept) as Hweb.
  unfold _loadCSS, mbind, M_bind.
  rewrite (scene_flag_again enableCss depth this s' sc e' se');
    [|done|done|by apply Hcache|done].
  assert (enableCss se' = true) as ->.
  { rewrite Hweb. by case_decide. }
  simpl. unfold read. rewrite He', Hcss; done.
Qed.

(** ** The element's object under its parent's *)

Lemma three_holds this s o s' :
  three this s = Some (o, s') →
  ∃ e', elements s' !! this = Some e' ∧ __three e' = Some o.
Proof.
  intros Hrun. destruct (elements s !! this) as [e|] eqn:He.
  - destruct (__three e) as [o'|] eqn:Ho.
    + rewrite (three_cached _ _ _ _ He Ho) in Hrun. injection Hrun as <- <-. eauto.
    + rewrite (three_created _ _ _ He Ho) in Hrun. injection Hrun as <- <-.
      simpl. rewrite lookup_insert_eq. eauto.
  - unfold three, mbind, M_bind, read in Hrun. by rewrite He in Hrun.
Qed.

Lemma threeCSS_holds this s o s' :
  threeCSS this s = Some (o, s') →
  ∃ e', elements s' !! this = Some e' ∧ __threeCSS e' = Some o.
Proof.
  intros Hrun. destruct (elements s !! this) as [e|] eqn:He.
  - destruct (__threeCSS e) as [o'|] eqn:Ho.
    + rewrite (threeCSS_cached _ _ _ _ He Ho) in Hrun. injection Hrun as <- <-. eauto.
    + rewrite (threeCSS_created _ _ _ He Ho) in Hrun. injection Hrun as <- <-.
      simpl. rewrite lookup_insert_eq. eauto.
  - unfold threeCSS, mbind, M_bind, read in Hrun. by rewrite He in Hrun.
Qed.

Lemma fresh_object_kept (objs : gmap nat Object3D) x ob ob' :
  objs !! x = Some ob → <[fresh (dom objs) := ob']> objs !! x = Some ob.
Proof.
  intros Hx. rewrite lookup_insert_ne; [done|]. intros <-.
  by apply (is_fresh (dom objs)), elem_of_dom.
Qed.

Lemma three_objects_kept this s o s' x ob :
  three this s = Some (o, s') → objects s !! x = Some ob → objects s' !! x = Some ob.
Proof.
  intros Hrun Hx. destruct (elements s !! this) as [e|] eqn:He.
  - destruct (__three e) as [o'|] eqn:Ho.
    + rewrite (three_cached _ _ _ _ He Ho) in Hrun. by injection Hrun as _ <-.
    + rewrite (three_created _ _ _ He Ho) in Hrun. injection Hrun as _ <-.
      by apply fresh_object_kept.
  - unfold three, mbind, M_bind, read in Hrun. by rewrite He in Hrun.
Qed.

Lemma threeCSS_objects_kept this s o s' x ob :
  threeCSS this s = Some (o, s') → objects s !! x = Some ob → objects s' !! x = Some ob.
Proof.
  intros Hrun Hx. destruct (elements s !! this) as [e|] eqn:He.
  - destruct (__threeCSS e) as [o'|] eqn:Ho.
    + rewrite (threeCSS_cached _ _ _ _ He Ho) in Hrun. by injection Hrun as _ <-.
    + rewrite (threeCSS_created _ _ _ He Ho) in Hrun. injection Hrun as _ <-.
      by apply fresh_object_kept.
  - unfold threeCSS, mbind, M_bind, read in Hrun. by rewrite He in Hrun.
Qed.

Lemma keeps_mirrored_refl s : keeps_mirrored s s.
Proof. by intros ?. Qed.

Lemma keeps_mirrored_trans s1 s2 s3 :
  keeps_mirrored s1 s2 → keeps_mirrored s2 s3 → keeps_mirrored s1 s3.
Proof. intros H12 H23 ?. by apply H23, H12. Qed.

(** What [p.add(c)] leaves in the two objects. *)
Lemma object_add_links p c s ob pob :
  p ≠ c → objects s !! c = Some ob → objects s !! p = Some pob →
  ∃ s' ob' pob', object_add p c s = Some (tt, s')
    ∧ elements s' = elements s ∧ to_render s' = to_render s
    ∧ objects s' !! c = Some ob' ∧ obj_parent ob' = Some p
    ∧ matrixAutoUpdate ob' = matrixAutoUpdate ob
    ∧ objects s' !! p = Some pob' ∧ last (obj_children pob') = Some c.
Proof.
  intros Hne Hc Hp. unfold object_add.
  set (unlinked := match objects s !! c ≫= obj_parent with
                   | Some q => alter _ q (objects s)
                   | None => objects s
                   end).
  assert (∃ ob1, unlinked !! c = Some ob1 ∧ matrixAutoUpdate ob1 = matrixAutoUpdate ob)
    as (ob1 & Hc1 & Hauto).
  { unfold unlinked. destruct (objects s !! c ≫= obj_parent) as [q|]; [|by exists ob].
    destruct (decide (c = q)) as [<-|Hq].
    - rewrite lookup_alter_eq, Hc. simpl. by eexists.
    - rewrite lookup_alter_ne by done. by exists ob. }
  assert (∃ pob1, unlinked !! p = Some pob1) as [pob1 Hp1].
  { unfold unlinked. destruct (objects s !! c ≫= obj_parent) as [q|]; [|by exists pob].
    destruct (decide (p = q)) as [<-|Hq].
    - rewrite lookup_alter_eq, Hp. simpl. by eexists.
    - rewrite lookup_alter_ne by done. by exists pob. }
  eexists _, _, _. split; [done|]. simpl. split; [done|]. split; [done|].
  rewrite lookup_alter_ne by done. rewrite lookup_alter_eq, Hc1. simpl.
  split; [done|]. split; [done|]. split; [done|].
  rewrite lookup_alter_eq, lookup_alter_ne by done. rewrite Hp1. simpl.
  split; [done|]. simpl. by rewrite last_snoc.
Qed.

Section connect_links.
Variable getter : ref → M ref.
Variable field : Element → option ref.
Hypothesis getter_steady : ∀ n, respects steady (getter n).
Hypothesis getter_mirrored : ∀ n, respects keeps_mirrored (getter n).
Hypothesis getter_holds : ∀ n s o s',
  getter n s = Some (o, s') → ∃ e', elements s' !! n = Some e' ∧ field e' = Some o.
Hypothesis getter_cached : ∀ n s e o,
  elements s !! n = Some e → field e = Some o → getter n s = Some (o, s).
Hypothesis getter_objects_kept : ∀ n s o s' x ob,
  getter n s = Some (o, s') → objects s !! x = Some ob → objects s' !! x = Some ob.
Hypothesis field_steady : ∀ e e' o,
  steady_element e e' → field e = Some o → field e' = Some o.
Hypothesis field_owner : ∀ s n e o,
  mirrored s → elements s !! n = Some e → field e = Some o →
  ∃ ob, objects s !! o = Some ob ∧ owner ob = n.

Lemma connect_links depth this s s' e p o ob :
  mirrored s →
  elements s !! this = Some e → field e = Some o → objects s !! o = Some ob →
  parent e = Some p → p ≠ this →
  _isPossiblyDistributedToShadowRoot e = false → _shadowRootParent e = None →
  connect getter depth this s = Some (tt, s') →
  ∃ po ob' pob' e' pe',
    elements s' !! this = Some e' ∧ steady_element e e' ∧ _willBeRendered e' = true
    ∧ elements s' !! p = Some pe' ∧ field pe' = Some po ∧ o ≠ po
    ∧ objects s' !! o = Some ob' ∧ obj_parent ob' = Some po
    ∧ matrixAutoUpdate ob' = matrixAutoUpdate ob
    ∧ objects s' !! po = Some pob' ∧ last (obj_children pob') = Some o
    ∧ mirrored s' ∧ last (to_render s') = Some this.
Proof using All.
  intros Hm He Ho Hob Hp Hne Hdist Hshadow Hrun. unfold connect in Hrun.
  apply bind_Some in Hrun as (e0 & ? & [He0 ->]%read_Some & Hrun).
  assert (e0 = e) as -> by congruence. rewrite Hdist, Hshadow, Hp in Hrun.
  apply bind_Some in Hrun as (sc & ? & [= <- <-] & Hrun). simpl in Hrun.
  apply bind_Some in Hrun as ([] & s3 & Hlink & Hrun).
  apply bind_Some in Hlink as (po & s1 & Hpo & Hlink).
  apply bind_Some in Hlink as (o' & s2 & Ho' & Hadd).
  pose proof (getter_steady _ _ _ _ Hpo) as Hs1.
  pose proof (getter_mirrored _ _ _ _ Hpo Hm) as Hm1.
  destruct (getter_holds _ _ _ _ Hpo) as (pe1 & Hpe1 & Hfpo).
  destruct (Hs1 this e He) as (e1 & He1 & Hkept1).
  pose proof (field_steady _ _ _ Hkept1 Ho) as Ho1.
  rewrite (getter_cached _ _ _ _ He1 Ho1) in Ho'. injection Ho' as <- <-.
  assert (o ≠ po) as Hopo.
  { intros <-. destruct (field_owner _ _ _ _ Hm1 He1 Ho1) as (ob1 & Hob1 & Hown1).
    destruct (field_owner _ _ _ _ Hm1 Hpe1 Hfpo) as (ob2 & Hob2 & Hown2). congruence. }
  pose proof (getter_objects_kept _ _ _ _ _ _ Hpo Hob) as Hob1.
  destruct (field_owner _ _ _ _ Hm1 Hpe1 Hfpo) as (pob1 & Hpob1 & _).
  destruct (object_add_links po o s1 ob pob1) as
    (s2 & ob' & pob' & Hadd' & Hel2 & Htr2 & Hob' & Hpar & Hauto & Hpob' & Hlast);
    [done..|].
  rewrite Hadd' in Hadd. injection Hadd as <-.
  pose proof (mirrored_object_add _ _ _ _ _ Hadd' Hm1) as Hm2.
  injection Hrun as <-.
  assert (mirrored (mkState (alter (set_willBeRendered true) this (elements s2))
                      (objects s2) (to_render s2 ++ [this]))) as Hm3.
  { apply (mirrored_alter s2 this (set_willBeRendered true)) in Hm2; [|done].
    destruct Hm2 as [H3 Hc]. by split. }
  exists po, ob', pob', (set_willBeRendered true e1), pe1. simpl.
  rewrite Hel2, lookup_alter_eq, He1, lookup_alter_ne, Hpe1 by done. simpl.
  split_and!; try done.
  - eapply steady_element_trans; [done|]. by split.
  - by rewrite <-Hel2.
  - by rewrite last_snoc.
Qed.
End connect_links.

Lemma loadGL_prepares depth this s s' :
  mirrored s → _loadGL depth this s = Some (true, s') →
  ∃ s4 e4 o ob,
    steady s s4 ∧ mirrored s4
    ∧ elements s4 !! this = Some e4 ∧ __three e4 = Some o ∧ _glLoaded e4 = true
    ∧ objects s4 !! o = Some ob ∧ matrixAutoUpdate ob = false
    ∧ (_connectThree depth this ≫= λ _, needsUpdate this ≫= λ _, mret true) s4
      = Some (true, s').
Proof.
  intros Hm Hrun. unfold _loadGL in Hrun.
  apply bind_Some in Hrun as (active & s1 & Hflag & Hrun).
  destruct active; [|done]. simpl in Hrun.
  pose proof (respects_scene_flag keeps_mirrored keeps_mirrored_refl keeps_mirrored_trans
                mirrored_scene _ _ _ _ _ _ Hflag Hm) as Hm1.
  pose proof (respects_scene_flag steady steady_refl steady_trans
                steady_scene _ _ _ _ _ _ Hflag) as Hs1.
  apply bind_Some in Hrun as (e1 & ? & [He1 ->]%read_Some & Hrun).
  destruct (_glLoaded e1) eqn:Hloaded; [done|].
  apply bind_Some in Hrun as ([] & s2 & Hset & Hrun).
  pose proof (steady_glLoaded _ _ _ _ Hset) as Hs2.
  assert (mirrored s2) as Hm2.
  { injection Hset as <-. by apply mirrored_alter. }
  assert (∃ e2, elements s2 !! this = Some e2 ∧ _glLoaded e2 = true) as (e2 & He2 & Hgl2).
  { injection Hset as <-. simpl. rewrite lookup_alter_eq, He1. by eexists. }
  apply bind_Some in Hrun as (o & s3 & Hthree & Hrun).
  pose proof (steady_three _ _ _ _ Hthree) as Hs3.
  pose proof (mirrored_three _ _ _ _ Hthree Hm2) as Hm3.
  destruct (three_holds _ _ _ _ Hthree) as (e3 & He3 & Ho3).
  destruct (Hs3 this e2 He2) as (e3' & He3' & Hkept3).
  assert (e3' = e3) as -> by congruence.
  destruct (held_three s3 Hm3 this e3 o He3 Ho3) as (ob3 & Hob3 & _).
  apply bind_Some in Hrun as ([] & s4 & Hupd & Hrun).
  exists s4, e3, o, (mkObject3D (kind ob3) (owner ob3) false (obj_scale ob3)
                           (obj_parent ob3) (obj_children ob3)).
  injection Hupd as <-. simpl. split_and!; try done.
  - eapply steady_trans; [done|]. eapply steady_trans; [done|].
    eapply steady_trans; [done|]. apply steady_objects.
  - revert Hm3. apply mirrored_objects. intros o' ob Hob.
    apply alter_keeps; [done|]. by exists ob.
  - by apply (kept_glLoaded _ _ Hkept3).
  - by rewrite lookup_alter_eq, Hob3.
Qed.

Lemma loadCSS_prepares depth this s s' :
  mirrored s → _loadCSS depth this s = Some (true, s') →
  ∃ s4 e4 o ob,
    steady s s4 ∧ mirrored s4
    ∧ elements s4 !! this = Some e4 ∧ __threeCSS e4 = Some o ∧ _cssLoaded e4 = true
    ∧ objects s4 !! o = Some ob ∧ matrixAutoUpdate ob = false
    ∧ (_connectThreeCSS depth this ≫= λ _, needsUpdate this ≫= λ _, mret true) s4
      = Some (true, s').
Proof.
  intros Hm Hrun. unfold _loadCSS in Hrun.
  apply bind_Some in Hrun as (active & s1 & Hflag & Hrun).
  destruct active; [|done]. simpl in Hrun.
  pose proof (respects_scene_flag keeps_mirrored keeps_mirrored_refl keeps_mirrored_trans
                mirrored_scene _ _ _ _ _ _ Hflag Hm) as Hm1.
  pose proof (respects_scene_flag steady steady_refl steady_trans
                steady_scene _ _ _ _ _ _ Hflag) as Hs1.
  apply bind_Some in Hrun as (e1 & ? & [He1 ->]%read_Some & Hrun).
  destruct (_cssLoaded e1) eqn:Hloaded; [done|].
  apply bind_Some in Hrun as ([] & s2 & Hset & Hrun).
  pose proof (steady_cssLoaded _ _ _ _ Hset) as Hs2.
  assert (mirrored s2) as Hm2.
  { injection Hset as <-. by apply mirrored_alter. }
  assert (∃ e2, elements s2 !! this = Some e2 ∧ _cssLoaded e2 = true) as (e2 & He2 & Hgl2).
  { injection Hset as <-. simpl. rewrite lookup_alter_eq, He1. by eexists. }
  apply bind_Some in Hrun as (o & s3 & Hthree & Hrun).
  pose proof (steady_threeCSS _ _ _ _ Hthree) as Hs3.
  pose proof (mirrored_threeCSS _ _ _ _ Hthree Hm2) as Hm3.
  destruct (threeCSS_holds _ _ _ _ Hthree) as (e3 & He3 & Ho3).
  destruct (Hs3 this e2 He2) as (e3' & He3' & Hkept3).
  assert (e3' = e3) as -> by congruence.
  destruct (held_threeCSS s3 Hm3 this e3 o He3 Ho3) as (ob3 & Hob3 & _).
  apply bind_Some in Hrun as ([] & s4 & Hupd & Hrun).
  exists s4, e3, o, (mkObject3D (kind ob3) (owner ob3) false (obj_scale ob3)
                       (obj_parent ob3) (obj_children ob3)).
  injection Hupd as <-. simpl. split_and!; try done.
  - eapply steady_trans; [done|]. eapply steady_trans; [done|].
    eapply steady_trans; [done|]. apply steady_objects.
  - revert Hm3. apply mirrored_objects. intros o' ob Hob.
    apply alter_keeps; [done|]. by exists ob.
  - by apply (kept_cssLoaded _ _ Hkept3).
  - by rewrite lookup_alter_eq, Hob3.
Qed.

Lemma needsUpdate_again this s e :
  elements s !! this = Some e → _willBeRendered e = true →
  needsUpdate this s = Some (tt, mkState (elements s) (objects s) (to_render s ++ [this])).
Proof.
  intros He Hflag. unfold needsUpdate. do 3 f_equal. apply map_eq. intros m.
  destruct (decide (m = this)) as [->|Hm].
  - rewrite lookup_alter_eq, He. simpl. f_equal. destruct e. simpl in *. by subst.
  - by rewrite lookup_alter_ne.
Qed.

(** X22.  What a [_loadGL] that returns true leaves for an element with a
    parent, outside shadow-root distribution: the element holds a WebGL
    object with [matrixAutoUpdate] off, its parent holds another, the
    element's object is the last child of the parent's object and has it
    as parent; the element is marked loaded and to be rendered, and it is
    the last one announced to the Motor. *)
Theorem loadGL_links_to_parent depth this s s' e p :
  mirrored s →
  elements s !! this = Some e → parent e = Some p → p ≠ this →
  _isPossiblyDistributedToShadowRoot e = false → _shadowRootParent e = None →
  _loadGL depth this s = Some (true, s') →
  ∃ o po ob pob e' pe',
    elements s' !! this = Some e' ∧ __three e' = Some o
    ∧ _glLoaded e' = true ∧ _willBeRendered e' = true
    ∧ elements s' !! p = Some pe' ∧ __three pe' = Some po ∧ o ≠ po
    ∧ objects s' !! o = Some ob ∧ obj_parent ob = Some po
    ∧ matrixAutoUpdate ob = false
    ∧ objects s' !! po = Some pob ∧ last (obj_children pob) = Some o
    ∧ last (to_render s') = Some this.
Proof.
  intros Hm He Hp Hne Hdist Hshadow Hrun.
  destruct (loadGL_prepares _ _ _ _ Hm Hrun)
    as (s4 & e4 & o & ob & Hs4 & Hm4 & He4 & Ho4 & Hgl4 & Hob4 & Hauto4 & Hrest).
  destruct (Hs4 this e He) as (e4' & He4' & Hkept4).
  assert (e4' = e4) as -> by congruence.
  apply bind_Some in Hrest as ([] & s5 & Hconnect & Hrest).
  assert (∀ e1 e2 o1, steady_element e1 e2 → __three e1 = Some o1 → __three e2 = Some o1)
    as Hfield.
  { intros e1 e2 o1 Hk. apply (kept_three _ _ Hk). }
  assert (∀ s0 n e0 o0, mirrored s0 → elements s0 !! n = Some e0 → __three e0 = Some o0 →
                        ∃ ob0, objects s0 !! o0 = Some ob0 ∧ owner ob0 = n) as Howner.
  { intros s0 n e0 o0 Hm0 He0 Ho0.
    destruct (held_three s0 Hm0 n e0 o0 He0 Ho0) as (ob0 & ? & ? & _). eauto. }
  assert (parent e4 = Some p) as Hp4 by (by rewrite (kept_parent _ _ Hkept4)).
  assert (_isPossiblyDistributedToShadowRoot e4 = false) as Hdist4
    by (by rewrite (kept_distributed _ _ Hkept4)).
  assert (_shadowRootParent e4 = None) as Hshadow4
    by (by rewrite (kept_shadowRootParent _ _ Hkept4)).
  destruct (connect_links three __three steady_three mirrored_three three_holds three_cached
              three_objects_kept Hfield Howner depth this s4 s5 e4 p o ob Hm4 He4 Ho4
              Hob4 Hp4 Hne Hdist4 Hshadow4 Hconnect)
    as (po & ob' & pob' & e5 & pe5 & He5 & Hkept5 & Hflag5 & Hpe5 & Hpo5 & Hopo
        & Hob5 & Hpar5 & Hauto5 & Hpob5 & Hlast5 & Hm5 & _).
  apply bind_Some in Hrest as ([] & s6 & Hupdate & [= <-]).
  rewrite (needsUpdate_again _ _ _ He5 Hflag5) in Hupdate. injection Hupdate as <-.
  exists o, po, ob', pob', e5, pe5. simpl. split_and!; try done.
  - by apply (kept_three _ _ Hkept5).
  - by apply (kept_glLoaded _ _ Hkept5).
  - congruence.
  - by rewrite last_snoc.
Qed.

(** X23.  The same for [_loadCSS] and the CSS objects. *)
Theorem loadCSS_links_to_parent depth this s s' e p :
  mirrored s →
  elements s !! this = Some e → parent e = Some p → p ≠ this →
  _isPossiblyDistributedToShadowRoot e = false → _shadowRootParent e = None →
  _loadCSS depth this s = Some (true, s') →
  ∃ o po ob pob e' pe',
    elements s' !! this = Some e' ∧ __threeCSS e' = Some o
    ∧ _cssLoaded e' = true ∧ _willBeRendered e' = true
    ∧ elements s' !! p = Some pe' ∧ __threeCSS pe' = Some po ∧ o ≠ po
    ∧ objects s' !! o = Some ob ∧ obj_parent ob = Some po
    ∧ matrixAutoUpdate ob = false
    ∧ objects s' !! po = Some pob ∧ last (obj_children pob) = Some o
    ∧ last (to_render s') = Some this.
Proof.
  intros Hm He Hp Hne Hdist Hshadow Hrun.
  destruct (loadCSS_prepares _ _ _ _ Hm Hrun)
    as (s4 & e4 & o & ob & Hs4 & Hm4 & He4 & Ho4 & Hgl4 & Hob4 & Hauto4 & Hrest).
  destruct (Hs4 this e He) as (e4' & He4' & Hkept4).
  assert (e4' = e4) as -> by congruence.
  apply bind_Some in Hrest as ([] & s5 & Hconnect & Hrest).
  assert (∀ e1 e2 o1, steady_element e1 e2 → __threeCSS e1 = Some o1 → __threeCSS e2 = Some o1)
    as Hfield.
  { intros e1 e2 o1 Hk. apply (kept_threeCSS _ _ Hk). }
  assert (∀ s0 n e0 o0, mirrored s0 → elements s0 !! n = Some e0 → __threeCSS e0 = Some o0 →
                        ∃ ob0, objects s0 !! o0 = Some ob0 ∧ owner ob0 = n) as Howner.
  { intros s0 n e0 o0 Hm0 He0 Ho0.
    destruct (held_threeCSS s0 Hm0 n e0 o0 He0 Ho0) as (ob0 & ? & ? & _). eauto. }
  assert (parent e4 = Some p) as Hp4 by (by rewrite (kept_parent _ _ Hkept4)).
  assert (_isPossiblyDistributedToShadowRoot e4 = false) as Hdist4
    by (by rewrite (kept_distributed _ _ Hkept4)).
  assert (_shadowRootParent e4 = None) as Hshadow4
    by (by rewrite (kept_shadowRootParent _ _ Hkept4)).
  destruct (connect_links threeCSS __threeCSS steady_threeCSS mirrored_threeCSS threeCSS_holds threeCSS_cached
              threeCSS_objects_kept Hfield Howner depth this s4 s5 e4 p o ob Hm4 He4 Ho4
              Hob4 Hp4 Hne Hdist4 Hshadow4 Hconnect)
    as (po & ob' & pob' & e5 & pe5 & He5 & Hkept5 & Hflag5 & Hpe5 & Hpo5 & Hopo
        & Hob5 & Hpar5 & Hauto5 & Hpob5 & Hlast5 & Hm5 & _).
  apply bind_Some in Hrest as ([] & s6 & Hupdate & [= <-]).
  rewrite (needsUpdate_again _ _ _ He5 Hflag5) in Hupdate. injection Hupdate as <-.
  exists o, po, ob', pob', e5, pe5. simpl. split_and!; try done.
  - by apply (kept_threeCSS _ _ Hkept5).
  - by apply (kept_cssLoaded _ _ Hkept5).
  - congruence.
  - by rewrite last_snoc.
Qed.

Lemma three_returns this s e :
  elements s !! this = Some e → ∃ o s', three this s = Some (o, s').
Proof.
  intros He. destruct (__three e) as [o|] eqn:Ho.
  - rewrite (three_cached _ _ _ _ He Ho). eauto.
  - rewrite (three_created _ _ _ He Ho). eauto.
Qed.

Lemma threeCSS_returns this s e :
  elements s !! this = Some e → ∃ o s', threeCSS this s = Some (o, s').
Proof.
  intros He. destruct (__threeCSS e) as [o|] eqn:Ho.
  - rewrite (threeCSS_cached _ _ _ _ He Ho). eauto.
  - rewrite (threeCSS_created _ _ _ He Ho). eauto.
Qed.

(** X24.  [_updateScale] returns for every element of the store; after it
    the element holds a WebGL object and a CSS object, made by the call
    where missing, and both have the element's scale. *)
Theorem updateScale_scales_both_objects s this e :
  mirrored s → elements s !! this = Some e →
  ∃ s' e' o oc ob obc,
    _updateScale this s = Some (tt, s')
    ∧ elements s' !! this = Some e' ∧ scale e' = scale e
    ∧ __three e' = Some o ∧ __threeCSS e' = Some oc
    ∧ objects s' !! o = Some ob ∧ kind ob = WebGL ∧ obj_scale ob = scale e
    ∧ objects s' !! oc = Some obc ∧ kind obc = CSS ∧ obj_scale obc = scale e.
Proof.
  intros Hm He.
  destruct (three_returns this s e He) as (o & s1 & Hthree).
  pose proof (mirrored_three _ _ _ _ Hthree Hm) as Hm1.
  destruct (three_holds _ _ _ _ Hthree) as (e1 & He1 & Ho1).
  destruct (held_three s1 Hm1 this e1 o He1 Ho1) as (ob1 & Hob1 & _ & Hkind1).
  set (s2 := mkState (elements s1)
               (alter (λ ob, mkObject3D (kind ob) (owner ob) (matrixAutoUpdate ob)
                               (scale e) (obj_parent ob) (obj_children ob)) o (objects s1))
               (to_render s1)).
  assert (mirrored s2) as Hm2.
  { revert Hm1. apply mirrored_objects. intros o' ob Hob.
    apply alter_keeps; [done|]. by exists ob. }
  destruct (threeCSS_returns this s2 e1 He1) as (oc & s3 & Hcss).
  pose proof (mirrored_threeCSS _ _ _ _ Hcss Hm2) as Hm3.
  destruct (threeCSS_holds _ _ _ _ Hcss) as (e3 & He3 & Hoc3).
  destruct (held_threeCSS s3 Hm3 this e3 oc He3 Hoc3) as (obc3 & Hobc3 & _ & Hkindc3).
  destruct (steady_threeCSS _ _ _ _ Hcss this e1 He1) as (e3' & He3' & Hkept3).
  assert (e3' = e3) as -> by congruence.
  pose proof (kept_three _ _ Hkept3 _ Ho1) as Ho3.
  assert (objects s3 !! o
          = Some (mkObject3D (kind ob1) (owner ob1) (matrixAutoUpdate ob1) (scale e)
                    (obj_parent ob1) (obj_children ob1))) as Hob3.
  { apply (threeCSS_objects_kept _ _ _ _ _ _ Hcss). simpl.
    by rewrite lookup_alter_eq, Hob1. }
  assert (o ≠ oc) as Hne.
  { intros <-. rewrite Hob3 in Hobc3. injection Hobc3 as <-. simpl in Hkindc3.
    congruence. }
  assert (scale e1 = scale e) as Hscale1.
  { destruct (__three e) as [o'|] eqn:Ho.
    - rewrite (three_cached _ _ _ _ He Ho) in Hthree. injection Hthree as _ <-.
      congruence.
    - rewrite (three_created _ _ _ He Ho) in Hthree. injection Hthree as _ <-.
      simpl in He1. rewrite lookup_insert_eq in He1. by injection He1 as <-. }
  assert (scale e3 = scale e1) as Hscale3.
  { destruct (__threeCSS e1) as [o'|] eqn:Ho.
    - rewrite (threeCSS_cached this s2 e1 o' He1 Ho) in Hcss. injection Hcss as _ <-.
      simpl in He3. congruence.
    - rewrite (threeCSS_created this s2 e1 He1 Ho) in Hcss. injection Hcss as _ <-.
      simpl in He3. rewrite lookup_insert_eq in He3. by injection He3 as <-. }
  eexists _, e3, o, oc, _, _. split.
  { unfold _updateScale, mbind, M_bind, read. rewrite He, Hthree.
    unfold update_object at 1. fold s2. rewrite Hcss. done. }
  simpl. rewrite lookup_alter_ne, Hob3, lookup_alter_eq, Hobc3 by done. simpl.
  split_and!; try done. congruence.
Qed.

(** ** The example stores *)

Lemma nested_scene_mirrored : mirrored nested_scene.
Proof.
  split; intros n e o He Ho; exfalso; unfold nested_scene in He; simpl in He;
    repeat (apply lookup_insert_Some in He as [[<- <-]|[? He]]; [done|]);
    by rewrite lookup_empty in He.
Qed.

Lemma nearest_rendered_ancestor_found_witness :
  nth_parent marked_scene 2 2 = Some 0
  ∧ _getNearestAncestorThatShouldBeRendered 2 2 marked_scene = Some (Some 0, marked_scene)
  ∧ _getNearestAncestorThatShouldBeRendered 2 1 marked_scene = Some (Some 0, marked_scene).
Proof.
  split; [by vm_compute|]. split.
  - apply (nearest_rendered_ancestor_found 2 1 marked_scene 2 0
             (set_willBeRendered true (plain None true true true (Some 0))));
      [by vm_compute..| |lia].
    intros j b be Hj Hb Hbe. assert (j = 1) as -> by lia.
    vm_compute in Hb. injection Hb as <-. vm_compute in Hbe. by injection Hbe as <-.
  - by vm_compute.
Defined.

Lemma nearest_rendered_ancestor_none_witness :
  nth_parent nested_scene 2 2 = Some 0
  ∧ _getNearestAncestorThatShouldBeRendered 2 2 nested_scene = Some (None, nested_scene).
Proof.
  split; [by vm_compute|].
  apply (nearest_rendered_ancestor_none 2 2 nested_scene 2 0
           (plain None true true true (Some 0))); [by vm_compute..| |lia].
  intros j b be Hj Hb Hbe.
  assert (j = 1 ∨ j = 2) as [-> | ->] by lia;
    vm_compute in Hb; injection Hb as <-; vm_compute in Hbe; by injection Hbe as <-.
Defined.

Lemma scene_found_and_cached_on_the_way_witness :
  nth_parent nested_scene 2 2 = Some 0
  ∧ ∃ s', scene 3 2 nested_scene = Some (Some 0, s')
          ∧ _scene <$> elements s' !! 2 = Some (Some 0)
          ∧ _scene <$> elements s' !! 1 = Some (Some 0).
Proof.
  split; [by vm_compute|].
  destruct (scene_found_and_cached_on_the_way 3 2 2 nested_scene 0 0
              (plain None true true true (Some 0)))
    as (s' & Hrun & Hcached & _); [by vm_compute..| |lia|].
  - intros j b be Hj Hb Hbe.
    assert (j = 0 ∨ j = 1) as [-> | ->] by lia;
      vm_compute in Hb; injection Hb as <-; vm_compute in Hbe; injection Hbe as <-;
      (split; [reflexivity|]); [lia|done].
  - exists s'. split; [exact Hrun|]. split.
    + by apply (Hcached 0); [lia|].
    + by apply (Hcached 1); [lia|].
Defined.

Lemma scene_null_outside_a_scene_witness :
  nth_parent no_scene 2 2 = Some 0
  ∧ scene 3 2 no_scene = Some (None, no_scene).
Proof.
  split; [by vm_compute|].
  apply (scene_null_outside_a_scene 3 2 2 no_scene 0 (plain None false false false None));
    [by vm_compute..| |lia].
  intros j b be Hj Hb Hbe.
  assert (j = 0 ∨ j = 1 ∨ j = 2) as [-> | [-> | ->]] by lia;
    vm_compute in Hb; injection Hb as <-; vm_compute in Hbe; injection Hbe as <-;
    (split; [reflexivity|done]).
Defined.

Lemma backend_objects_never_shared_witness :
  mirrored nested_scene
  ∧ exec_all some_ops nested_scene = Some (tt, after (exec_all some_ops) nested_scene)
  ∧ ∀ n e o, elements (after (exec_all some_ops) nested_scene) !! n = Some e →
             __three e = Some o → __threeCSS e ≠ Some o.
Proof.
  assert (exec_all some_ops nested_scene
          = Some (tt, after (exec_all some_ops) nested_scene)) as Hrun by (by vm_compute).
  split; [exact nested_scene_mirrored|]. split; [exact Hrun|].
  apply (backend_objects_never_shared some_ops nested_scene
           (after (exec_all some_ops) nested_scene) nested_scene_mirrored Hrun).
Defined.

Lemma loadGL_loads_once_witness :
  _loadGL 3 2 nested_scene = Some (true, after (_loadGL 3 2) nested_scene)
  ∧ _loadGL 3 2 (after (_loadGL 3 2) nested_scene)
    = Some (false, after (_loadGL 3 2) nested_scene).
Proof.
  assert (_loadGL 3 2 nested_scene = Some (true, after (_loadGL 3 2) nested_scene)) as Hrun
    by (by vm_compute).
  split; [exact Hrun|].
  apply (loadGL_loads_once 3 2 nested_scene (after (_loadGL 3 2) nested_scene) Hrun).
Defined.

Lemma loadCSS_loads_once_witness :
  _loadCSS 3 2 nested_scene = Some (true, after (_loadCSS 3 2) nested_scene)
  ∧ _loadCSS 3 2 (after (_loadCSS 3 2) nested_scene)
    = Some (false, after (_loadCSS 3 2) nested_scene).
Proof.
  assert (_loadCSS 3 2 nested_scene = Some (true, after (_loadCSS 3 2) nested_scene)) as Hrun
    by (by vm_compute).
  split; [exact Hrun|].
  apply (loadCSS_loads_once 3 2 nested_scene (after (_loadCSS 3 2) nested_scene) Hrun).
Defined.

Lemma loadGL_links_to_parent_witness :
  _loadGL 3 2 nested_scene = Some (true, after (_loadGL 3 2) nested_scene)
  ∧ ∃ o po ob,
      (elements (after (_loadGL 3 2) nested_scene) !! 2 ≫= __three) = Some o
      ∧ (elements (after (_loadGL 3 2) nested_scene) !! 1 ≫= __three) = Some po
      ∧ objects (after (_loadGL 3 2) nested_scene) !! o = Some ob
      ∧ obj_parent ob = Some po.
Proof.
  assert (_loadGL 3 2 nested_scene = Some (true, after (_loadGL 3 2) nested_scene)) as Hrun
    by (by vm_compute).
  assert (elements nested_scene !! 2 = Some (plain (Some 1) false false false None)) as He
    by (by vm_compute).
  split; [exact Hrun|].
  destruct (loadGL_links_to_parent 3 2 nested_scene _ _ 1 nested_scene_mirrored He
              eq_refl ltac:(done) eq_refl eq_refl Hrun)
    as (o & po & ob & pob & e' & pe' & He' & Ho & _ & _ & Hpe' & Hpo & _ & Hob & Hpar & _).
  exists o, po, ob. by rewrite He', Hpe'.
Defined.

Lemma loadCSS_links_to_parent_witness :
  _loadCSS 3 2 nested_scene = Some (true, after (_loadCSS 3 2) nested_scene)
  ∧ ∃ o po ob,
      (elements (after (_loadCSS 3 2) nested_scene) !! 2 ≫= __threeCSS) = Some o
      ∧ (elements (after (_loadCSS 3 2) nested_scene) !! 1 ≫= __threeCSS) = Some po
      ∧ objects (after (_loadCSS 3 2) nested_scene) !! o = Some ob
      ∧ obj_parent ob = Some po.
Proof.
  assert (_loadCSS 3 2 nested_scene = Some (true, after (_loadCSS 3 2) nested_scene))
    as Hrun by (by vm_compute).
  assert (elements nested_scene !! 2 = Some (plain (Some 1) false false false None)) as He
    by (by vm_compute).
  split; [exact Hrun|].
  destruct (loadCSS_links_to_parent 3 2 nested_scene _ _ 1 nested_scene_mirrored He
              eq_refl ltac:(done) eq_refl eq_refl Hrun)
    as (o & po & ob & pob & e' & pe' & He' & Ho & _ & _ & Hpe' & Hpo & _ & Hob & Hpar & _).
  exists o, po, ob. by rewrite He', Hpe'.
Defined.

Lemma updateScale_scales_both_objects_witness :
  elements nested_scene !! 2 = Some (plain (Some 1) false false false None)
  ∧ ∃ s' o oc, _updateScale 2 nested_scene = Some (tt, s')
               ∧ (elements s' !! 2 ≫= __three) = Some o
               ∧ (elements s' !! 2 ≫= __threeCSS) = Some oc
               ∧ obj_scale <$> objects s' !! o = Some (mkXYZ 1 1 1)%float
               ∧ obj_scale <$> objects s' !! oc = Some (mkXYZ 1 1 1)%float.
Proof.
  assert (elements nested_scene !! 2 = Some (plain (Some 1) false false false None)) as He
    by (by vm_compute).
  split; [exact He|].
  destruct (updateScale_scales_both_objects nested_scene 2 _ nested_scene_mirrored He)
    as (s' & e' & o & oc & ob & obc & Hrun & He' & _ & Ho & Hoc & Hob & _ & Hs & Hobc & _
        & Hsc).
  exists s', o, oc. rewrite He', Hob, Hobc. simpl. rewrite Hs, Hsc. done.
Defined.

Lemma ring_goes_round j :
  ∃ b, (nth_parent ring j 0 = Some b ∧ (b = 0 ∨ b = 1))
       ∧ ∃ b', nth_parent ring j 1 = Some b' ∧ (b' = 0 ∨ b' = 1).
Proof.
  induction j as [|j (b & [Hb Hb01] & b' & Hb' & Hb01')].
  - exists 0. split; [by split; [|left]|]. exists 1. by split; [|right].
  - exists b'. split.
    + split; [|done]. by rewrite (nth_parent_S _ _ _ (plain (Some 1) false false false None)).
    + exists b. split; [|done].
      by rewrite (nth_parent_S _ _ _ (plain (Some 0) false false false None)).
Qed.

Lemma ring_elements b :
  b = 0 ∨ b = 1 →
  ∃ be, elements ring !! b = Some be ∧ _willBeRendered be = false
        ∧ _scene be = None ∧ isScene be = false.
Proof. intros [-> | ->]; eexists; by vm_compute. Qed.

Lemma nearest_rendered_ancestor_never_ends_witness :
  elements ring !! 0 = Some (plain (Some 1) false false false None)
  ∧ _getNearestAncestorThatShouldBeRendered 1000 0 ring = None.
Proof.
  assert (elements ring !! 0 = Some (plain (Some 1) false false false None)) as He
    by (by vm_compute).
  split; [exact He|].
  apply (nearest_rendered_ancestor_never_ends ring 0 _ He).
  intros j. destruct (ring_goes_round (S j)) as (b & [Hb Hb01] & _).
  destruct (ring_elements b Hb01) as (be & Hbe & Hflag & _). by exists b, be.
Defined.

Lemma scene_never_ends_in_a_ring_witness :
  elements ring !! 0 = Some (plain (Some 1) false false false None)
  ∧ scene 1000 0 ring = None.
Proof.
  split; [by vm_compute|].
  apply (scene_never_ends_in_a_ring 1000 ring 0).
  intros j. destruct (ring_goes_round j) as (b & [Hb Hb01] & _).
  destruct (ring_elements b Hb01) as (be & Hbe & _ & Hnone & Hnot). by exists b, be.
Defined.
End BackendOpsFacts.

(** * Facts about the cameras of a scene and the size of its host *)
Module CameraFacts.
Import Values Camera.
#[local] Open Scope float_scope.

Section atan.
Variable atan : float → float.

Lemma or_one_usable v : is_nan (or_one v) = false ∧ (or_one v =? 0) = false.
Proof.
  unfold or_one. destruct ((v =? 0) || is_nan v) eqn:Hv.
  - by vm_compute.
  - by apply orb_false_elim in Hv as [? ?].
Qed.

Lemma update_active_threeCamera f s : threeCamera (update_active f s) = threeCamera s.
Proof. unfold update_active. by destruct (threeCamera s). Qed.

Lemma update_active_activeCameras f s :
  activeCameras (update_active f s) = activeCameras s.
Proof. unfold update_active. by destruct (threeCamera s). Qed.

Lemma active_camera_update f s : active_camera (update_active f s) = f (active_camera s).
Proof.
  unfold update_active, active_camera. destruct (threeCamera s) as [|c] eqn:Hc; simpl.
  - done.
  - by rewrite decide_True.
Qed.

Lemma set_perspective_threeCamera v s :
  threeCamera (set_perspective atan v s) = threeCamera s
  ∧ activeCameras (set_perspective atan v s) = activeCameras s
  ∧ aspect (active_camera (set_perspective atan v s)) = aspect (active_camera s).
Proof.
  unfold set_perspective, _updateCameraProjection, _updateCameraPerspective.
  split_and!.
  - change (threeCamera (needsUpdate ?s')) with (threeCamera s').
    by rewrite !update_active_threeCamera.
  - change (activeCameras (needsUpdate ?s')) with (activeCameras s').
    by rewrite !update_active_activeCameras.
  - change (active_camera (needsUpdate ?s')) with (active_camera s').
    by rewrite !active_camera_update.
Qed.

Lemma setCamera_spec camera s :
  threeCamera (setCamera atan camera s) = from_option ElementCamera DefaultCamera camera
  ∧ activeCameras (setCamera atan camera s) = activeCameras s
  ∧ aspect_usable (active_camera (setCamera atan camera s)).
Proof.
  destruct camera as [c|]; unfold setCamera, from_option.
  - unfold _updateCameraProjection, _updateCameraAspect. split_and!.
    + change (threeCamera (needsUpdate ?s')) with (threeCamera s').
      by rewrite !update_active_threeCamera.
    + change (activeCameras (needsUpdate ?s')) with (activeCameras s').
      by rewrite !update_active_activeCameras.
    + change (active_camera (needsUpdate ?s')) with (active_camera s').
      rewrite !active_camera_update. apply or_one_usable.
  - unfold _createDefaultCamera.
    match goal with
    | |- context [set_perspective atan ?v ?s'] =>
        destruct (set_perspective_threeCamera v s') as (-> & -> & Ha)
    end.
    split_and!; [done..|]. unfold aspect_usable. rewrite Ha. apply or_one_usable.
Qed.

Lemma set_add_NoDup c l : NoDup l → NoDup (set_add c l).
Proof.
  intros Hl. unfold set_add. case_decide; [done|].
  apply NoDup_app. split_and!; [done| |apply NoDup_singleton].
  intros c' Hc' ->%list_elem_of_singleton. done.
Qed.

Lemma exec_registered o s : camera_registered s → camera_registered (exec atan o s).
Proof.
  intros [Hnd Hreg]. destruct o as [c|c|v|v|]; simpl.
  - unfold _addCamera.
    destruct (setCamera_spec (Some c) (with_activeCameras (set_add c (activeCameras s)) s))
      as (H3 & Hl & _).
    split; rewrite ?H3, Hl; simpl; [by apply set_add_NoDup|].
    unfold set_add. case_decide; [done|]. apply elem_of_app. right. left.
  - unfold _removeCamera. cbv zeta.
    match goal with
    | |- context [setCamera atan ?cam ?s'] =>
        destruct (setCamera_spec cam s') as (H3 & Hl & _)
    end.
    split; rewrite ?H3, Hl; simpl; [by apply NoDup_filter|].
    destruct (last _) as [c'|] eqn:Hlast; simpl.
    + apply last_Some in Hlast as [pre Hpre]. simpl in Hpre. rewrite Hpre.
      apply elem_of_app. right. left.
    + by apply last_None in Hlast.
  - destruct (set_perspective_threeCamera v s) as (H3 & Hl & _).
    split; by rewrite ?H3, Hl.
  - done.
  - unfold _updateCameraAspect.
    split; by rewrite ?update_active_threeCamera, update_active_activeCameras.
Qed.

Lemma exec_usable o s :
  aspect_usable (active_camera s) → aspect_usable (active_camera (exec atan o s)).
Proof.
  intros Hs. destruct o as [c|c|v|v|]; simpl.
  - apply setCamera_spec.
  - apply setCamera_spec.
  - unfold aspect_usable. by destruct (set_perspective_threeCamera v s) as (_ & _ & ->).
  - done.
  - unfold _updateCameraAspect. rewrite active_camera_update. apply or_one_usable.
Qed.

Lemma constructed_ok size cams :
  camera_registered (constructed atan size cams)
  ∧ aspect_usable (active_camera (constructed atan size cams)).
Proof.
  unfold constructed.
  match goal with
  | |- context [_createDefaultCamera atan ?s'] =>
      destruct (setCamera_spec None s') as (H3 & Hl & Ha)
  end.
  unfold setCamera in H3, Hl, Ha. split; [|done].
  unfold camera_registered. rewrite H3, Hl. simpl. split; [apply NoDup_nil_2|done].
Qed.

(** X19.  After the constructor and any sequence of [_addCamera],
    [_removeCamera], [perspective] assignments, resizes and
    [_updateCameraAspect] calls, [#threeCamera] is the camera of an element
    in [#activeCameras], or the default camera, and it is the default one
    exactly when no camera element is registered; the set holds no camera
    twice. *)
Theorem camera_in_use_is_registered ops size cams :
  camera_registered (run atan ops (constructed atan size cams)).
Proof.
  assert (∀ s, camera_registered s → camera_registered (run atan ops s)) as Hrun.
  { induction ops as [|o ops IH]; intros s Hs; [done|].
    simpl. by apply IH, exec_registered. }
  apply Hrun, constructed_ok.
Qed.

(** X20.  In the same runs the aspect ratio of the camera in use is never
    NaN and never zero, whatever the size of the scene: the [|| 1] of
    [_createDefaultCamera] and [_updateCameraAspect] sees to it. *)
Theorem camera_aspect_always_usable ops size cams :
  aspect_usable (active_camera (run atan ops (constructed atan size cams))).
Proof.
  assert (∀ s, aspect_usable (active_camera s) →
               aspect_usable (active_camera (run atan ops s))) as Hrun.
  { induction ops as [|o ops IH]; intros s Hs; [done|].
    simpl. by apply IH, exec_usable. }
  apply Hrun, constructed_ok.
Qed.
End atan.
End CameraFacts.

Module HostSizeFacts.
Import Values Size HostSize.
#[local] Open Scope float_scope.


End HostSizeFacts.
